(** * YGOFM-PockStat-ENG: the name-table relocation tools and the generic patcher

    A shallow embedding of [tools/rom_names.py], [tools/rom_patches.py] and
    [YGOFM-NamePatch.py], and the properties of the relocation engine and of
    the patch applier stated over it.

    Conventions of the embedding:
    - a Python [int] is a [Z]; a [str] is the list of its code points;
      [bytes] and [bytearray] are lists of integers in [0, 256);
    - a [dict] read by key is a [gmap]; a [dict] whose iteration order is
      observable is an association list in insertion order;
    - an exception is a value of [exn]; code that mutates a [bytearray] it was
      handed, or prints, or touches the file, runs in the monad [M], whose
      state survives a raise, as the mutated object does in Python. *)

From Stdlib Require Import ZArith Lia.
From stdpp Require Import base decidable option list gmap fin_maps sorting numbers.

Local Open Scope Z_scope.

(** ** Python values and exceptions *)

Abbreviation char := N.
Abbreviation str := (list N).
Abbreviation bytes := (list Z).

Definition ord (ch : char) : Z := Z.of_N ch.

(** The messages of the [ValueError]s the three programs raise. *)
Inductive value_msg : Type :=
  | UnmappedCharacters (name : str) (items : list (char * Z))
  | MissingName (num : Z)
  | PatchExceedsFileSize (name : str) (addr len size : Z)
  | ByteOutOfRange
  | InvalidLiteral.

Inductive key_msg : Type :=
  | LanguageNotFound (language : str)
  | MissingRequiredKey
  | MissingField.

Inductive exit_msg : Type :=
  | WrongNameCount (got : Z)
  | BlobTooLarge (len : Z)
  | OffsetOutOfRange (card rel : Z)
  | BlockCountExceeds255
  | InputNotFound
  | ExitStatus (code : Z).

Inductive exn : Type :=
  | KeyError (m : key_msg)
  | ValueError (m : value_msg)
  | IndexError
  | TypeError
  | FileNotFoundError
  | SystemExit (m : exit_msg).

Inductive result (A : Type) : Type :=
  | Ok (a : A)
  | Raise (e : exn).
Arguments Ok {A} a.
Arguments Raise {A} e.

Definition rbind {A B} (r : result A) (k : A → result B) : result B :=
  match r with
  | Ok a => k a
  | Raise e => Raise e
  end.

Declare Scope py_scope.
Delimit Scope py_scope with py.
Notation "x ←? r ; k" := (rbind r (λ x, k))
  (at level 20, r at level 100, k at level 200, only parsing) : py_scope.
Notation "' p ←? r ; k" := (rbind r (λ p, k))
  (at level 20, p pattern, r at level 100, k at level 200, only parsing)
  : py_scope.
Local Open Scope py_scope.

Definition len {A} (l : list A) : Z := Z.of_nat (length l).

Definition byte_ok (v : Z) : bool := (0 <=? v) && (v <? 256).

(** [bytearray.append(v)]: a value outside [range(256)] is a [ValueError]. *)
Definition append (out : bytes) (v : Z) : result bytes :=
  if byte_ok v then Ok (out ++ [v]) else Raise (ValueError ByteOutOfRange).

(** [bytes([b]) * n]: a count that is not positive gives the empty sequence. *)
Definition bytes_mul (b : Z) (n : Z) : bytes := replicate (Z.to_nat n) b.

(** The index of [seq[i]] for an integer [i]: a negative index counts from
    the end; what is still outside the sequence is an [IndexError]. *)
Definition norm_index (n i : Z) : option nat :=
  let j := if i <? 0 then i + n else i in
  if (0 <=? j) && (j <? n) then Some (Z.to_nat j) else None.

(** [rom[i] = v] on a [bytearray]: the value must be a byte and the index,
    after the adjustment of a negative one, inside the buffer. *)
Definition setitem (rom : bytes) (i v : Z) : result bytes :=
  if byte_ok v then
    match norm_index (len rom) i with
    | Some j => Ok (<[j := v]> rom)
    | None => Raise IndexError
    end
  else Raise (ValueError ByteOutOfRange).

(** One bound of a slice with step 1, as [PySlice_AdjustIndices] clips it. *)
Definition clip (n i : Z) : nat :=
  let j := if i <? 0 then i + n else i in
  Z.to_nat (Z.min (Z.max j 0) n).

(** [rom[lo:hi] = data]: never raises; an empty or inverted range inserts
    [data] at the clipped [lo], which is how a slice store can grow the
    buffer. *)
Definition setslice (rom : bytes) (lo hi : Z) (data : bytes) : bytes :=
  let a := clip (len rom) lo in
  let b := Nat.max a (clip (len rom) hi) in
  take a rom ++ data ++ drop b rom.

(** [rom[lo:hi]] *)
Definition getslice (rom : bytes) (lo hi : Z) : bytes :=
  let a := clip (len rom) lo in
  let b := clip (len rom) hi in
  take (b - a) (drop a rom).

(** ** Text

    The methods of [str] the tools call on manifest values. *)

(** [ch.isspace()]: the white space of the interpreter's Unicode tables. *)
Definition isspace (ch : char) : bool :=
  bool_decide (ch ∈ [0x9; 0xA; 0xB; 0xC; 0xD; 0x1C; 0x1D; 0x1E; 0x1F; 0x20;
                     0x85; 0xA0; 0x1680; 0x2000; 0x2001; 0x2002; 0x2003;
                     0x2004; 0x2005; 0x2006; 0x2007; 0x2008; 0x2009; 0x200A;
                     0x2028; 0x2029; 0x202F; 0x205F; 0x3000]%N).

(** [s.lstrip()] *)
Fixpoint lstrip (s : str) : str :=
  match s with
  | [] => []
  | ch :: rest => if isspace ch then lstrip rest else s
  end.

(** [s.strip()] *)
Definition strip (s : str) : str := reverse (lstrip (reverse (lstrip s))).

(** [s.split()] on the characters still to read, with the word being read,
    if one is. *)
Fixpoint split_loop (s : str) (word : option str) : list str :=
  match s with
  | [] => match word with Some w => [w] | None => [] end
  | ch :: rest =>
      if isspace ch then
        match word with
        | Some w => w :: split_loop rest None
        | None => split_loop rest None
        end
      else split_loop rest (Some (default [] word ++ [ch]))
  end.

(** [s.split()]: the maximal runs of characters that are not white space. *)
Definition split (s : str) : list str := split_loop s None.

(** [s.replace(old, new)] for single characters. *)
Definition replace_char (old new : char) (s : str) : str :=
  (λ ch, if decide (ch = old) then new else ch) <$> s.

(** [s.lower().startswith("0x")]. Lowering maps only [0] to a string that
    begins with [0] and only [x] and [X] to one that begins with [x], so the
    test needs no case table. *)
Definition lower_startswith_0x (s : str) : bool :=
  match s with
  | 0x30%N :: ch :: _ => bool_decide (ch = 0x78%N ∨ ch = 0x58%N)
  | _ => false
  end.

(** ** Effects

    [M S A] is a computation over a mutable state [S] that returns an [A] or
    raises; the state at the raise is kept, since a [bytearray] that was
    half rewritten when the exception left the function stays rewritten. *)

Definition M (S A : Type) : Type := S → S * result A.

Definition ret {S A} (a : A) : M S A := λ s, (s, Ok a).
Definition throw {S A} (e : exn) : M S A := λ s, (s, Raise e).
Definition bind {S A B} (m : M S A) (k : A → M S B) : M S B :=
  λ s, match m s with
       | (s', Ok a) => k a s'
       | (s', Raise e) => (s', Raise e)
       end.
Definition lift {S A} (r : result A) : M S A := λ s, (s, r).
Definition get {S} : M S S := λ s, (s, Ok s).
Definition put {S} (s : S) : M S unit := λ _, (s, Ok tt).

Notation "x ←! m ; k" := (bind m (λ x, k))
  (at level 20, m at level 100, k at level 200, only parsing) : py_scope.
Notation "' p ←! m ; k" := (bind m (λ p, k))
  (at level 20, p pattern, m at level 100, k at level 200, only parsing)
  : py_scope.
Notation "m ;! k" := (bind m (λ _, k))
  (at level 100, k at level 200, right associativity, only parsing) : py_scope.

(** [for x in l: body(x)] *)
Fixpoint for_each {S A} (l : list A) (body : A → M S unit) : M S unit :=
  match l with
  | [] => ret tt
  | x :: rest => body x ;! for_each rest body
  end.

(** A fallible update of the state: on a raise the state is left as it was. *)
Definition update {S} (f : S → result S) : M S unit :=
  λ s, match f s with
       | Ok s' => (s', Ok tt)
       | Raise e => (s, Raise e)
       end.

(** What the programs print, one constructor per [print] call, with the
    values the line is formatted from. *)
Inductive line : Type :=
  | VerboseLanguage (language : str)
  | VerboseBaseOffset (baseOffset : Z)
  | VerboseBlobSize (size : Z)
  | VerboseBlobHead (head : bytes)
  | VerboseRomLayout (index names lookup : Z)
  | VerboseFileLayout (index first names pointer : Z)
  | VerboseIndexHeader (at_ : Z) (head : bytes)
  | PlannedPatches
  | PlannedInject (size fileAt romAt : Z)
  | PlannedPointer (fileAt romAt value : Z)
  | PlannedOffsets (count fileAt romAt : Z)
  | PlannedBlockCount (fileAt romAt blocks effectiveSize : Z)
  | DryRunNoChanges
  | DoneWrote (size effectiveSize blocks : Z)
  | DryWouldWrite (name : str) (size start addr : Z)
  | PatchedWrote (name : str) (size start : Z)
  | DryRunComplete (written : Z)
  | DonePatched (written : Z)
  | SummaryOk
  | SummaryNames (blobSize fileAt romAt : Z)
  | SummaryPointer (fileAt : Z) (pointer : bytes)
  | SummaryOffsets (count first last : Z)
  | SummaryPadded (paddedSize blocks : Z)
  | Usage.

(** The part of the machine a run can see: the image file it patches (absent
    when the path names no file), the [.bak] copy next to it, and the lines
    printed so far. *)
Record world : Type := World {
  file : option bytes;
  backup : option bytes;
  stdout : list line;
}.

(** [print(...)] on a stream that takes every line. A stream that cannot
    encode a line, or that is closed, makes the interpreter raise instead;
    such a run is outside this model: a statement about a run that returns
    describes the run in which the output succeeds, and the statements about
    failing runs speak of the steps in front of the write of the file. *)
Definition print (l : line) : M world unit :=
  λ w, (World (file w) (backup w) (stdout w ++ [l]), Ok tt).

(** [path.read_bytes()] *)
Definition read_bytes : M world bytes :=
  λ w, match file w with
       | Some data => (w, Ok data)
       | None => (w, Raise FileNotFoundError)
       end.

(** [path.write_bytes(data)], and [open(path, "wb")] with [f.write(data)],
    when the write goes through. A write that fails part-way leaves a
    truncated file and raises; such a run is outside this model, and the
    statements about failing runs below speak of the steps in front of the
    write only. *)
Definition write_bytes (data : bytes) : M world unit :=
  λ w, (World (Some data) (backup w) (stdout w), Ok tt).

(** Run a helper that mutates the [bytearray] it is handed, from code whose
    state is the world: the buffer is a local of the caller, so after a raise
    nothing of it can be observed any more. *)
Definition on_buffer {A} (m : M bytes A) (rom : bytes) : M world (bytes * A) :=
  λ w, match m rom with
       | (rom', Ok a) => (w, Ok (rom', a))
       | (_, Raise e) => (w, Raise e)
       end.

(** ** tools/rom_names.py *)

Module RomNames.

Definition POCKETSTATION_MEM_BASE : Z := 0x02000000.
Definition TITLE_BLOCK_COUNT_OFFSET : Z := 0x03.
Definition BLOCK_SIZE : Z := 0x2000.

Definition EXPECTED_CARD_COUNT : Z := 722.
Definition NAME_MARKER : bytes := [0xFA; 0x21].
Definition CARD_ENTRY_SIZE : Z := 6.
Definition CARD_INDEX_HEADER_SIZE : Z := 4.

(** [replacements.get(ch, ch)] over the literal table of [normalizeName]. *)
Definition replacement (ch : char) : char :=
  if decide (ch = 0x2019%N) then 0x27%N
  else if decide (ch = 0x2018%N) then 0x27%N
  else if decide (ch = 0x201C%N) then 0x22%N
  else if decide (ch = 0x201D%N) then 0x22%N
  else if decide (ch = 0x2013%N) then 0x2D%N
  else if decide (ch = 0x2014%N) then 0x2D%N
  else if decide (ch = 0xFF03%N) then 0x23%N
  else if decide (ch = 0x2116%N) then 0x23%N
  else if decide (ch = 0x3000%N) then 0x20%N
  else ch.

Definition normalizeName (name : str) : str := replacement <$> name.

(** [missing[ch] = missing.get(ch, 0) + 1] *)
Definition count_missing (missing : gmap char Z) (ch : char) : gmap char Z :=
  <[ch := default 0 (missing !! ch) + 1]> missing.

(** The order of [sorted] on the [(key, count)] tuples of [missing.items()]. *)
Definition item_le (x y : char * Z) : Prop :=
  (x.1 < y.1)%N ∨ (x.1 = y.1 ∧ x.2 ≤ y.2).

#[global] Instance item_le_dec : RelDecision item_le.
Proof. intros x y. unfold item_le. apply _. Defined.

Definition sorted_items (missing : gmap char Z) : list (char * Z) :=
  merge_sort item_le (map_to_list missing).

(** The [for ch in name] loop of [encodeName], on the characters still to
    visit, with the two objects it updates. A key of [remap] is a string;
    the loop looks up the one-character string [ch]. *)
Fixpoint encodeName_loop (remap : gmap str Z) (strict : bool) (name : str)
    (out : bytes) (missing : gmap char Z) : result (bytes * gmap char Z) :=
  match name with
  | [] => Ok (out, missing)
  | ch :: rest =>
      match remap !! [ch] with
      | Some v =>
          out' ←? append out v;
          encodeName_loop remap strict rest out' missing
      | None =>
          if strict then
            encodeName_loop remap strict rest out (count_missing missing ch)
          else
            let code := ord ch in
            out' ←? append out
                     (if (0x20 <=? code) && (code <=? 0x7E) then code else 0x20);
            encodeName_loop remap strict rest out' missing
      end
  end.

Definition encodeName (name : str) (remap : gmap str Z) (strict : bool)
    : result bytes :=
  let name := normalizeName name in
  '(out, missing) ←? encodeName_loop remap strict name [] ∅;
  if strict && negb (bool_decide (missing = ∅)) then
    Raise (ValueError (UnmappedCharacters name (sorted_items missing)))
  else Ok out.

(** [offsets[i] = start] on a Python list: index [i] comes from [enumerate],
    so it is never negative; past the end it is an [IndexError]. *)
Definition list_setitem (offsets : list Z) (i : nat) (v : Z) : result (list Z) :=
  if decide (i < length offsets)%nat then Ok (<[i := v]> offsets)
  else Raise IndexError.

(** The [for i, name in enumerate(names)] loop of [buildNameBlobAndOffsets],
    from index [i] on. *)
Fixpoint build_loop (remap : gmap str Z) (names : list str) (i : nat)
    (buf : bytes) (offsets : list Z) : result (bytes * list Z) :=
  match names with
  | [] => Ok (buf, offsets)
  | name :: rest =>
      let start := len buf in
      offsets' ←? (if decide (0 < i)%nat then list_setitem offsets i start
                   else Ok offsets);
      enc ←? encodeName name remap true;
      build_loop remap rest (S i) (buf ++ (enc ++ [0x00])) offsets'
  end.

Definition buildNameBlobAndOffsets (names : list str) (remap : gmap str Z)
    : result (bytes * list Z) :=
  let buf := NAME_MARKER in
  let offsets := replicate (Z.to_nat EXPECTED_CARD_COUNT) 0 in
  '(buf, offsets) ←? build_loop remap names 0 buf offsets;
  let pad := (- len buf) `mod` BLOCK_SIZE in
  let buf := if decide (pad ≠ 0) then buf ++ bytes_mul 0xFF pad else buf in
  Ok (buf, offsets).

Definition computeBlockCount (effectiveSize : Z) : Z :=
  (effectiveSize + BLOCK_SIZE - 1) `div` BLOCK_SIZE.

(** [rom[i] = v] as an action on the buffer. *)
Definition store (i v : Z) : M bytes unit := update (λ rom, setitem rom i v).

(** [nameOffsetsInBlob[i]] for an index that comes from [range]. *)
Definition list_getitem (l : list Z) (i : nat) : result Z :=
  match l !! i with
  | Some v => Ok v
  | None => Raise IndexError
  end.

Definition patchCardIndexNameOffsets (fileFirstCardOffset : Z)
    (nameOffsetsInBlob : list Z) : M bytes unit :=
  for_each (seq 0 (Z.to_nat EXPECTED_CARD_COUNT)) (λ i,
    let entryBase := fileFirstCardOffset + Z.of_nat i * CARD_ENTRY_SIZE in
    let nameOffPos := entryBase + 4 in
    off ←! lift (list_getitem nameOffsetsInBlob i);
    let val := Z.land off 0xFFFF in
    store nameOffPos (Z.land val 0xFF) ;!
    store (nameOffPos + 1) (Z.land (Z.shiftr val 8) 0xFF)).

Definition setCardNamePointer (filePointerOffset cardNameRomOffset : Z)
    : M bytes unit :=
  let ptr := POCKETSTATION_MEM_BASE + cardNameRomOffset in
  store (filePointerOffset + 0) (Z.land ptr 0xFF) ;!
  store (filePointerOffset + 1) (Z.land (Z.shiftr ptr 8) 0xFF) ;!
  store (filePointerOffset + 2) (Z.land (Z.shiftr ptr 16) 0xFF) ;!
  store (filePointerOffset + 3) (Z.land (Z.shiftr ptr 24) 0xFF).

(** [rom.extend(b'\xFF' * n)] *)
Definition extend (fill n : Z) : M bytes unit :=
  λ rom, (rom ++ bytes_mul fill n, Ok tt).

Definition ensureRomSize (requiredSize : Z) : M bytes unit :=
  rom ←! get;
  if len rom <? requiredSize then extend 0xFF (requiredSize - len rom)
  else ret tt.

Definition injectBlob (fileAt : Z) (blob : bytes) : M bytes unit :=
  let end_ := fileAt + len blob in
  ensureRomSize end_ ;!
  rom ←! get;
  put (setslice rom fileAt end_ blob).

Definition updateBlockCountHeader (fileHeaderBlockCountPos effectiveSize : Z)
    : M bytes Z :=
  let newBlocks := computeBlockCount effectiveSize in
  store fileHeaderBlockCountPos (Z.land newBlocks 0xFF) ;!
  ret newBlocks.

(** *** The manifest and the command line

    The manifest is taken after [json.load], at the schema the module's
    docstring gives. Where the program turns a text into a number, the
    record holds the outcome of that conversion ([parseHexInt], [int]),
    which is a number or the exception the conversion raises. *)

Record remap_entry : Type := RemapEntry {
  unicode : str;                 (* [entry.get('unicode', '')] *)
  hex : option (result Z);       (* [int(hx, 16)], [None] when [hx is None] *)
}.

Record item : Type := Item {
  number : result Z;             (* [int(item['number'])] *)
  name : result str;             (* [item['name']] *)
}.

Record cardsJson : Type := CardsJson {
  card_index_offset : option (result Z);
  card_name_offset : option (result Z);
  card_lookup_address : option (result Z);
  remap : list remap_entry;
  languages : gmap str (list item);
}.

Record args : Type := Args {
  language : str;
  raw : bool;
  mcs : bool;
  offset : option (result Z);    (* [parseHexInt(args.offset)], if given *)
  dry_run : bool;
  verbose : bool;
}.

Fixpoint buildRemapTable_loop (remapList : list remap_entry)
    (table : gmap str Z) : result (gmap str Z) :=
  match remapList with
  | [] => Ok table
  | entry :: rest =>
      match hex entry with
      | None => buildRemapTable_loop rest table
      | Some hx =>
          v ←? hx;
          buildRemapTable_loop rest (<[unicode entry := v]> table)
      end
  end.

Definition buildRemapTable (cardsJson : cardsJson) : result (gmap str Z) :=
  buildRemapTable_loop (remap cardsJson) ∅.

Fixpoint byNum_loop (items : list item) (byNum : gmap Z str)
    : result (gmap Z str) :=
  match items with
  | [] => Ok byNum
  | item :: rest =>
      num ←? number item;
      nm ←? name item;
      byNum_loop rest (<[num := nm]> byNum)
  end.

Fixpoint names_loop (byNum : gmap Z str) (nums : list Z) (names : list str)
    : result (list str) :=
  match nums with
  | [] => Ok names
  | num :: rest =>
      match byNum !! num with
      | None => Raise (ValueError (MissingName num))
      | Some nm => names_loop byNum rest (names ++ [nm])
      end
  end.

Definition loadLanguageNames (cardsJson : cardsJson) (language : str)
    : result (list str) :=
  match languages cardsJson !! language with
  | None => Raise (KeyError (LanguageNotFound language))
  | Some items =>
      byNum ←? byNum_loop items ∅;
      names_loop byNum (seqZ 1 EXPECTED_CARD_COUNT) []
  end.

(** [cardsJson[key]] followed by [parseHexInt], inside the [try] whose
    handler turns every [KeyError] into the one about the required keys. *)
Definition required (field : option (result Z)) : result Z :=
  match field with
  | None | Some (Raise (KeyError _)) => Raise (KeyError MissingRequiredKey)
  | Some r => r
  end.

Definition readRom : M world bytes := read_bytes.
Definition writeRom (data : bytes) : M world unit := write_bytes data.

(** The write-back, the last two statements of [main]: the one write of
    the file and the line printed after it. *)
Definition write_back (rom : bytes) (finalInfo : Z * Z) : M world unit :=
  writeRom rom ;!
  print (DoneWrote (len rom) finalInfo.1 finalInfo.2).

(** [main], with the write-back as [finish], so that the steps in front of
    it can be told from it. *)
Definition main_with (finish : bytes → Z * Z → M world unit) (args : args)
    (manifest : result cardsJson) : M world unit :=
  baseOffset ←! lift (if raw args then Ok 0x00
                      else if mcs args then Ok 0x80
                      else match offset args with
                           | Some parsed => parsed
                           | None => Ok 0x00
                           end);
  cardsJson ←! lift manifest;
  cardIndexRomOffset ←! lift (required (card_index_offset cardsJson));
  cardNameRomOffset ←! lift (required (card_name_offset cardsJson));
  cardLookupRomAddr ←! lift (required (card_lookup_address cardsJson));
  let fileCardIndexOffset := baseOffset + cardIndexRomOffset in
  let fileFirstCardOffset := fileCardIndexOffset + CARD_INDEX_HEADER_SIZE in
  let fileCardNameOffset := baseOffset + cardNameRomOffset in
  let filePointerOffset := baseOffset + cardLookupRomAddr in
  let fileBlockCountPos := baseOffset + TITLE_BLOCK_COUNT_OFFSET in
  remap ←! lift (buildRemapTable cardsJson);
  names ←! lift (loadLanguageNames cardsJson (language args));
  '(blob, nameOffsets) ←! lift (buildNameBlobAndOffsets names remap);
  (if verbose args then
     print (VerboseLanguage (language args)) ;!
     print (VerboseBaseOffset baseOffset) ;!
     print (VerboseBlobSize (len blob)) ;!
     print (VerboseBlobHead (getslice blob 0 16)) ;!
     print (VerboseRomLayout cardIndexRomOffset cardNameRomOffset
              cardLookupRomAddr) ;!
     print (VerboseFileLayout fileCardIndexOffset fileFirstCardOffset
              fileCardNameOffset filePointerOffset) ;!
     _ ←! readRom;
     romPeek ←! read_bytes;
     if fileCardIndexOffset + CARD_INDEX_HEADER_SIZE <=? len romPeek then
       print (VerboseIndexHeader fileCardIndexOffset
                (getslice romPeek fileCardIndexOffset
                   (fileCardIndexOffset + CARD_INDEX_HEADER_SIZE)))
     else ret tt
   else ret tt) ;!
  rom ←! readRom;
  let plannedEndFile := Z.max (len rom) (fileCardNameOffset + len blob) in
  let plannedEffectiveSize := Z.max (plannedEndFile - baseOffset) 0 in
  let plannedBlocks := computeBlockCount plannedEffectiveSize in
  print PlannedPatches ;!
  print (PlannedInject (len blob) fileCardNameOffset cardNameRomOffset) ;!
  print (PlannedPointer filePointerOffset cardLookupRomAddr
           (POCKETSTATION_MEM_BASE + cardNameRomOffset)) ;!
  print (PlannedOffsets EXPECTED_CARD_COUNT fileFirstCardOffset
           (cardIndexRomOffset + CARD_INDEX_HEADER_SIZE)) ;!
  print (PlannedBlockCount fileBlockCountPos TITLE_BLOCK_COUNT_OFFSET
           plannedBlocks plannedEffectiveSize) ;!
  if dry_run args then print DryRunNoChanges
  else
    '(rom, finalInfo) ←! on_buffer (
        injectBlob fileCardNameOffset blob ;!
        patchCardIndexNameOffsets fileFirstCardOffset nameOffsets ;!
        setCardNamePointer filePointerOffset cardNameRomOffset ;!
        rom ←! get;
        (if len rom <? plannedEndFile
         then extend 0xFF (plannedEndFile - len rom) else ret tt) ;!
        rom ←! get;
        let effectiveSize := Z.max (len rom - baseOffset) 0 in
        finalBlocks ←! updateBlockCountHeader fileBlockCountPos effectiveSize;
        ret (effectiveSize, finalBlocks)) rom;
    finish rom finalInfo.

Definition main (args : args) (manifest : result cardsJson) : M world unit :=
  main_with write_back args manifest.

(** The steps of [main] in front of the write-back. *)
Definition steps (args : args) (manifest : result cardsJson) : M world unit :=
  main_with (λ _ _, ret tt) args manifest.

Section builtin_int.

(** [int(text, base)], the conversion of the interpreter. *)
Variable int_ : Z → str → result Z.

Definition parseHexInt (text : str) : result Z :=
  let text := strip text in
  if lower_startswith_0x text then int_ 16 text else int_ 10 text.

End builtin_int.

End RomNames.

(** ** tools/rom_patches.py *)

Module RomPatches.

(** One item of a language section that is a [dict], with the outcome of the
    expressions [apply_patches] evaluates on it. *)
Record entry : Type := Entry {
  name : str;                    (* [entry.get("name", "(unnamed)")] *)
  active : bool;                 (* truth of [entry.get("active", True)] *)
  addr : result Z;               (* [parse_hex_or_int(entry["addr"])] *)
  value : result bytes;          (* [parse_value_to_bytes(entry["value"])] *)
}.

(** The value under a key of the manifest: a list, whose items are patch
    entries or something that is not a [dict], or a value that cannot be
    iterated, as the number under ["version"]. *)
Inductive section : Type :=
  | NotIterable
  | Patches (items : list (option entry)).

(** The manifest is a [dict] in the order of the file. *)
Definition manifest : Type := list (str * section).

(** [manifest[key]] and [key in manifest] *)
Fixpoint getitem (manifest : manifest) (key : str) : option section :=
  match manifest with
  | [] => None
  | (k, v) :: rest => if decide (k = key) then Some v else getitem rest key
  end.

Section lower.

(** [str.lower], whose Unicode case tables belong to the interpreter. *)
Variable lower : str → str.

(** The [for k in manifest.keys()] loop of [find_language_section]. *)
Fixpoint fallback (keys : list (str * section)) (manifest : manifest)
    (lang_key : str) : result section :=
  match keys with
  | [] => Raise (KeyError (LanguageNotFound lang_key))
  | (k, _) :: rest =>
      if decide (lower k = lower lang_key) then
        match getitem manifest k with
        | Some v => Ok v
        | None => Raise (KeyError MissingField)
        end
      else fallback rest manifest lang_key
  end.

Definition find_language_section (manifest : manifest) (lang_key : str)
    : result section :=
  match getitem manifest lang_key with
  | Some v => Ok v
  | None => fallback manifest manifest lang_key
  end.

End lower.

(** The buffer [apply_patches] rewrites and the lines it prints. *)
Record patcher : Type := Patcher {
  rom_bytes : bytes;
  printed : list line;
}.

Definition say (l : line) : M patcher unit :=
  λ p, (Patcher (rom_bytes p) (printed p ++ [l]), Ok tt).

(** [only_name and name != only_name] *)
Definition filtered_out (only_name : option str) (name : str) : bool :=
  match only_name with
  | Some only => negb (bool_decide (only = [])) && negb (bool_decide (name = only))
  | None => false
  end.

(** The body of the loop of [apply_patches] for one item; it returns the
    new [total]. *)
Definition apply_entry (base_offset : Z) (include_inactive : bool)
    (only_name : option str) (dry_run : bool) (total : Z)
    (item : option entry) : M patcher Z :=
  match item with
  | None => ret total
  | Some entry =>
      if filtered_out only_name (name entry) then ret total
      else if negb (active entry) && negb include_inactive then ret total
      else
        addr ←! lift (addr entry);
        data ←! lift (value entry);
        let start := base_offset + addr in
        let end_ := start + len data in
        p ←! get;
        if len (rom_bytes p) <? end_ then
          throw (ValueError (PatchExceedsFileSize (name entry) addr (len data)
                               (len (rom_bytes p))))
        else
          (if dry_run then
             say (DryWouldWrite (name entry) (len data) start addr)
           else
             put (Patcher (setslice (rom_bytes p) start end_ data) (printed p)) ;!
             say (PatchedWrote (name entry) (len data) start)) ;!
          ret (total + len data)
  end.

Fixpoint apply_loop (base_offset : Z) (include_inactive : bool)
    (only_name : option str) (dry_run : bool) (items : list (option entry))
    (total : Z) : M patcher Z :=
  match items with
  | [] => ret total
  | item :: rest =>
      total' ←! apply_entry base_offset include_inactive only_name dry_run
                  total item;
      apply_loop base_offset include_inactive only_name dry_run rest total'
  end.

Definition apply_patches (base_offset : Z) (patches : section)
    (include_inactive : bool) (only_name : option str) (dry_run : bool)
    : M patcher Z :=
  match patches with
  | NotIterable => throw TypeError
  | Patches items =>
      apply_loop base_offset include_inactive only_name dry_run items 0
  end.

Record args : Type := Args {
  language : str;
  mcs : bool;
  offset : option (result Z);    (* [parse_hex_or_int(args.offset)], if given *)
  only : option str;
  include_inactive : bool;
  dry_run : bool;
}.

(** [apply_patches] called from [main]: it rewrites the buffer [main] read
    and prints to the same output. *)
Definition call_apply_patches (m : M patcher Z) (rom_bytes : bytes)
    : M world (bytes * Z) :=
  λ w, match m (Patcher rom_bytes (stdout w)) with
       | (p, r) =>
           (World (file w) (backup w) (printed p),
            match r with
            | Ok written => Ok (RomPatches.rom_bytes p, written)
            | Raise e => Raise e
            end)
       end.

(** The write-back, the last statements of [main]: the one write of the
    file, the line printed after it and the exit code. *)
Definition write_back (rom_bytes : bytes) (written : Z) : M world Z :=
  write_bytes rom_bytes ;!
  print (DonePatched written) ;!
  ret 0.

(** [main], with the write-back as [finish], so that the steps in front of
    it can be told from it. The call of [apply_patches] names
    [base_offset], [patches], [include_inactive] and [only_name]; [dry_run]
    keeps its default. *)
Definition main_with (finish : bytes → Z → M world Z) (lower : str → str)
    (args : args) (loaded : result manifest) : M world Z :=
  base_offset ←! lift (match offset args with
                       | Some parsed => parsed
                       | None => if mcs args then Ok 0x80 else Ok 0x00
                       end);
  manifest ←! lift loaded;
  patches ←! lift (find_language_section lower manifest (language args));
  rom_bytes ←! read_bytes;
  '(rom_bytes, written) ←! call_apply_patches
      (apply_patches base_offset patches (include_inactive args) (only args)
         false) rom_bytes;
  if dry_run args then
    print (DryRunComplete written) ;!
    ret 0
  else
    finish rom_bytes written.

Definition main (lower : str → str) (args : args)
    (loaded : result manifest) : M world Z :=
  main_with write_back lower args loaded.

(** The steps of [main] in front of the write-back. *)
Definition steps (lower : str → str) (args : args)
    (loaded : result manifest) : M world Z :=
  main_with (λ _ _, ret 0) lower args loaded.

(** A value that [parse_hex_or_int] or, as an item of a list,
    [parse_value_to_bytes] receives: an [int], or anything else, of which
    only its [str(...)] matters. *)
Inductive scalar : Type :=
  | IsInt (n : Z)
  | HasStr (text : str).

(** The value under ["value"]: [bytes], a string, a list, or something
    of another type. *)
Inductive raw_value : Type :=
  | RawBytes (data : bytes)
  | RawStr (text : str)
  | RawList (items : list scalar)
  | RawOther.

Section builtin_int.

(** [int(text, base)], the conversion of the interpreter. *)
Variable int_ : Z → str → result Z.

Definition parse_hex_or_int (x : scalar) : result Z :=
  match x with
  | IsInt n => Ok n
  | HasStr text =>
      let s := strip text in
      if lower_startswith_0x s then int_ 16 s else int_ 10 s
  end.

(** The loop of [parse_value_to_bytes] over [parts]. The two branches for a
    text are the same call. *)
Fixpoint parts_loop (parts : list scalar) (out : bytes) : result bytes :=
  match parts with
  | [] => Ok out
  | p :: rest =>
      match p with
      | IsInt n =>
          out' ←? append out (Z.land n 0xFF);
          parts_loop rest out'
      | HasStr text =>
          let s := strip text in
          n ←? (if lower_startswith_0x s then int_ 16 s else int_ 16 s);
          out' ←? append out (Z.land n 0xFF);
          parts_loop rest out'
      end
  end.

Definition parse_value_to_bytes (val : raw_value) : result bytes :=
  match val with
  | RawBytes data => Ok data
  | RawStr text =>
      let parts := filter (λ p, p ≠ []) (split (replace_char 0x2C 0x20 text)) in
      parts_loop (HasStr <$> parts) []
  | RawList items => parts_loop items []
  | RawOther => Raise TypeError
  end.

(** The entry of a manifest as [apply_patches] reads it. *)
Definition read_entry (name : str) (active : bool) (addr : scalar)
    (value : raw_value) : entry :=
  Entry name active (parse_hex_or_int addr) (parse_value_to_bytes value).

End builtin_int.

End RomPatches.

(** ** YGOFM-NamePatch.py *)

Module NamePatch.

Definition ROM_BASE : Z := 0x02000000.
Definition NAME_LIST_ROM_ADDR : Z := 0x02008000.
Definition LOOKUP_PTR_ROM_ADDR : Z := 0x02002A7C.
Definition CARD_TABLE_ROM_START : Z := 0x02004C0C.
Definition CARD_TABLE_ROM_END : Z := 0x02005CF7.
Definition BYTES_PER_CARD : Z := 6.
Definition START_OF_TEXT : bytes := [0xFA; 0x21].
Definition BLOCK_SIZE : Z := 0x2000.
Definition HEADER_BLOCK_BYTE : Z := 0x03.

Definition NAME_LIST_FILE_OFF : Z := NAME_LIST_ROM_ADDR - ROM_BASE.
Definition LOOKUP_PTR_FILE_OFF : Z := LOOKUP_PTR_ROM_ADDR - ROM_BASE.
Definition CARD_TABLE_FILE_START : Z := CARD_TABLE_ROM_START - ROM_BASE.
Definition CARD_TABLE_FILE_END : Z := CARD_TABLE_ROM_END - ROM_BASE.

Definition NUM_CARDS : Z :=
  ((CARD_TABLE_FILE_END - CARD_TABLE_FILE_START) `div` BYTES_PER_CARD) + 1.

Definition le16 (n : Z) : bytes := [Z.land n 0xFF; Z.land (Z.shiftr n 8) 0xFF].
Definition le32 (n : Z) : bytes :=
  [Z.land n 0xFF; Z.land (Z.shiftr n 8) 0xFF;
   Z.land (Z.shiftr n 16) 0xFF; Z.land (Z.shiftr n 24) 0xFF].

(** [name.encode("ascii")], and in its [UnicodeEncodeError] handler
    [name.encode("latin-1", errors="replace")], which writes [?] for a
    character Latin-1 does not have. *)
Definition encode (name : str) : bytes :=
  if forallb (λ ch, ord ch <? 128) name then ord <$> name
  else (λ ch, if ord ch <? 256 then ord ch else 0x3F) <$> name.

(** The loop that builds the blob; [cursor] is [len(blob)] throughout. *)
Fixpoint blob_loop (names : list str) (idx : nat) (blob : bytes)
    (name_offsets : list Z) (cursor : Z) : bytes * list Z :=
  match names with
  | [] => (blob, name_offsets)
  | name :: rest =>
      let enc := encode name in
      let name_offsets :=
        if decide (idx = 0%nat) then name_offsets ++ [0]
        else name_offsets ++ [cursor] in
      let blob := blob ++ (enc ++ [0x00]) in
      blob_loop rest (S idx) blob name_offsets (len blob)
  end.

(** The loop over the card table: the range check of an offset, then the
    store of its two bytes. *)
Fixpoint offsets_loop (cards : list nat) (name_offsets : list Z) (data : bytes)
    : result bytes :=
  match cards with
  | [] => Ok data
  | i :: rest =>
      let entry_off := CARD_TABLE_FILE_START + Z.of_nat i * BYTES_PER_CARD in
      let name_off_field := entry_off + 4 in
      rel ←? RomNames.list_getitem name_offsets i;
      if (0 <=? rel) && (rel <=? 0xFFFF) then
        offsets_loop rest name_offsets
          (setslice data name_off_field (name_off_field + 2) (le16 rel))
      else Raise (SystemExit (OffsetOutOfRange (Z.of_nat i + 1) rel))
  end.

(** [math.ceil(a / b)]. The quotient is a float; for a divisor that is a
    power of two, as [BLOCK_SIZE] is, it is exact below 2^53, so the integer
    ceiling is what [math.ceil] returns for every size a file can have. *)
Definition ceil_div (a b : Z) : Z := - ((- a) `div` b).

(** [main]. [argc] is [len(sys.argv)]; [card_list] is the list
    [[ln.rstrip("\r\n") for ln in list_path.read_text().splitlines()]],
    absent when [list_path] names no file. *)
Definition main (argc : Z) (card_list : option (list str)) : M world unit :=
  (if decide (argc ≠ 3)
   then print Usage ;! throw (SystemExit (ExitStatus 1))
   else ret tt) ;!
  w ←! get;
  (if file w is None then throw (SystemExit InputNotFound) else ret tt) ;!
  names ←! lift (match card_list with
                 | Some names => Ok names
                 | None => Raise (SystemExit InputNotFound)
                 end);
  let names := filter (λ n, n ≠ []) names in
  (if decide (len names ≠ NUM_CARDS)
   then throw (SystemExit (WrongNameCount (len names))) else ret tt) ;!
  data ←! read_bytes;
  let data := if len data <? NAME_LIST_FILE_OFF
              then data ++ bytes_mul 0x00 (NAME_LIST_FILE_OFF - len data)
              else data in
  let blob := START_OF_TEXT in
  let '(blob, name_offsets) := blob_loop names 0 blob [] (len blob) in
  (if 0xFFFF <? len blob - 1
   then throw (SystemExit (BlobTooLarge (len blob))) else ret tt) ;!
  let end_pos := NAME_LIST_FILE_OFF + len blob in
  let data := if len data <? end_pos
              then data ++ bytes_mul 0x00 (end_pos - len data) else data in
  let data := setslice data NAME_LIST_FILE_OFF end_pos blob in
  let new_ptr := le32 NAME_LIST_ROM_ADDR in
  let data := setslice data LOOKUP_PTR_FILE_OFF (LOOKUP_PTR_FILE_OFF + 4)
                new_ptr in
  data ←! lift (offsets_loop (seq 0 (Z.to_nat NUM_CARDS)) name_offsets data);
  let new_size := len data in
  let blocks := ceil_div new_size BLOCK_SIZE in
  let padded_size := blocks * BLOCK_SIZE in
  let data := if new_size <? padded_size
              then data ++ bytes_mul 0x00 (padded_size - new_size) else data in
  (if 255 <? padded_size `div` BLOCK_SIZE
   then throw (SystemExit BlockCountExceeds255) else ret tt) ;!
  data ←! lift (setitem data HEADER_BLOCK_BYTE (Z.land blocks 0xFF));
  w ←! get;
  (if backup w is None
   then original ←! read_bytes;
        put (World (file w) (Some original) (stdout w))
   else ret tt) ;!
  write_bytes data ;!
  print SummaryOk ;!
  print (SummaryNames (len blob) NAME_LIST_FILE_OFF NAME_LIST_ROM_ADDR) ;!
  print (SummaryPointer LOOKUP_PTR_FILE_OFF new_ptr) ;!
  print (SummaryOffsets NUM_CARDS CARD_TABLE_FILE_START CARD_TABLE_FILE_END) ;!
  print (SummaryPadded padded_size blocks).

End NamePatch.

(** ** Vocabulary of the statements *)

Module Spec.
Import RomNames.

(** A remap table is valid when every code it holds is one byte. *)
Definition remap_valid (remap : gmap str Z) : Prop :=
  ∀ k v, remap !! k = Some v → 0 ≤ v < 256.

(** How often [ch] occurs in [name]. *)
Fixpoint occurrences (ch : char) (name : str) : Z :=
  match name with
  | [] => 0
  | c :: rest => (if decide (c = ch) then 1 else 0) + occurrences ch rest
  end.

(** The code the non-strict encoder writes for one character. *)
Definition lenient_code (remap : gmap str Z) (ch : char) : Z :=
  match remap !! [ch] with
  | Some v => v
  | None => if (0x20 <=? ord ch) && (ord ch <=? 0x7E) then ord ch else 0x20
  end.

(** The strings of a name table after the marker: each followed by its
    terminator. *)
Definition terminated (encs : list bytes) : bytes :=
  concat ((λ enc, enc ++ [0x00]) <$> encs).

(** The lowering of the ASCII letters, to run the lookup on examples. *)
Definition ascii_lower (s : str) : str :=
  (λ c, if ((65 <=? c) && (c <=? 90))%N then (c + 32)%N else c) <$> s.

(** A computation keeps the file when no run of it changes the file,
    whether it returns or raises. *)
Definition keeps_file {A} (m : M world A) : Prop :=
  ∀ w, file (m w).1 = file w.

(** [m] does what [steps] does whenever [steps] raises: a run of [steps]
    that raises is, world and error, the run of [m]. *)
Definition stops_with {A} (m steps : M world A) : Prop :=
  ∀ w e, (steps w).2 = Raise e → m w = steps w.

(** The item of a language section that [apply_patches] goes on to apply:
    a [dict] that passes the name filter and the check of [active]. *)
Definition selected (include_inactive : bool) (only_name : option str)
    (item : option RomPatches.entry) : option RomPatches.entry :=
  entry ← item;
  if RomPatches.filtered_out only_name (RomPatches.name entry) then None
  else if negb (RomPatches.active entry) && negb include_inactive then None
  else Some entry.

(** The line a dry run prints for an item, if it prints one. *)
Definition dry_line (base_offset : Z) (include_inactive : bool)
    (only_name : option str) (item : option RomPatches.entry) : option line :=
  entry ← selected include_inactive only_name item;
  match RomPatches.addr entry, RomPatches.value entry with
  | Ok addr, Ok data =>
      Some (DryWouldWrite (RomPatches.name entry) (len data)
              (base_offset + addr) addr)
  | _, _ => None
  end.

(** Inputs of the example runs: a manifest whose language [e] names every
    card with the same string, and the command line [--raw -l e]. *)
Definition cards_named (nm : str) : RomNames.cardsJson :=
  RomNames.CardsJson (Some (Ok 0x10)) (Some (Ok 0x1200)) (Some (Ok 0x08))
    [RomNames.RemapEntry [65%N] (Some (Ok 0x41))]
    {[ [101%N] := (λ num, RomNames.Item (Ok num) (Ok nm))
                    <$> seqZ 1 RomNames.EXPECTED_CARD_COUNT ]}.

Definition small_cards : RomNames.cardsJson := cards_named [65%N].

Definition long_cards : RomNames.cardsJson :=
  cards_named (replicate 100 65%N).

Definition raw_args : RomNames.args :=
  RomNames.Args [101%N] true false None false false.

(** The number a little-endian field holds. *)
Fixpoint le_value (field : bytes) : Z :=
  match field with
  | [] => 0
  | b :: rest => b + 256 * le_value rest
  end.

(** The code [buildRemapTable] ends up with for a key: that of the last
    entry with this key that has a code. *)
Fixpoint last_code (entries : list RomNames.remap_entry) (key : str)
    : option Z :=
  match entries with
  | [] => None
  | entry :: rest =>
      match last_code rest key with
      | Some v => Some v
      | None =>
          match RomNames.hex entry with
          | Some (Ok v) =>
              if decide (RomNames.unicode entry = key) then Some v else None
          | _ => None
          end
      end
  end.

(** The name [loadLanguageNames] ends up with for a card number: that of
    the last item with this number. *)
Fixpoint last_name (items : list RomNames.item) (num : Z) : option str :=
  match items with
  | [] => None
  | item :: rest =>
      match last_name rest num with
      | Some nm => Some nm
      | None =>
          match RomNames.number item, RomNames.name item with
          | Ok n, Ok nm => if decide (n = num) then Some nm else None
          | _, _ => None
          end
      end
  end.

(** An item of a language section that can be read: its number converts
    and it has a name. *)
Definition readable (item : RomNames.item) : Prop :=
  ∃ n nm, RomNames.number item = Ok n ∧ RomNames.name item = Ok nm.

(** A computation on the buffer keeps its length when no run of it, whether
    it returns or raises, leaves a buffer of another length. *)
Definition keeps_length {A} (m : M bytes A) : Prop :=
  ∀ rom, length (m rom).1 = length rom.

(** The half-open range of the buffer an applied entry writes. *)
Definition in_patch (base_offset : Z) (include_inactive : bool)
    (only_name : option str) (k : nat) (item : option RomPatches.entry)
    : Prop :=
  ∃ entry addr data,
    selected include_inactive only_name item = Some entry ∧
    RomPatches.addr entry = Ok addr ∧ RomPatches.value entry = Ok data ∧
    base_offset + addr ≤ Z.of_nat k < base_offset + addr + len data.

(** A hexadecimal [int] for the example runs: digits and the letters A-F,
    nothing else. *)
Definition hex_digit (ch : char) : option Z :=
  if ((0x30 <=? ch) && (ch <=? 0x39))%N then Some (Z.of_N ch - 0x30)
  else if ((0x41 <=? ch) && (ch <=? 0x46))%N then Some (Z.of_N ch - 0x41 + 10)
  else None.

Definition plain_hex (base : Z) (text : str) : result Z :=
  match text with
  | [] => Raise (ValueError InvalidLiteral)
  | _ =>
      foldl (λ acc ch, n ←? acc;
                       match hex_digit ch with
                       | Some d => if d <? base then Ok (n * base + d)
                                   else Raise (ValueError InvalidLiteral)
                       | None => Raise (ValueError InvalidLiteral)
                       end) (Ok 0) text
  end.

(** The items of a section none of which, when applied, starts before the
    image. *)
Definition starts_inside (base_offset : Z) (include_inactive : bool)
    (only_name : option str) (items : list (option RomPatches.entry)) : Prop :=
  Forall (λ item, ∀ entry a,
            selected include_inactive only_name item = Some entry →
            RomPatches.addr entry = Ok a → 0 ≤ base_offset + a) items.

(** The number of bytes an item adds to the total of [apply_patches]. *)
Definition patch_size (include_inactive : bool) (only_name : option str)
    (item : option RomPatches.entry) : Z :=
  match selected include_inactive only_name item with
  | Some entry =>
      match RomPatches.value entry with Ok data => len data | Raise _ => 0 end
  | None => 0
  end.

(** A word [str.split] returns: not empty and without white space. *)
Definition is_word (w : str) : Prop :=
  w ≠ [] ∧ Forall (λ ch, isspace ch = false) w.

(** The base offset [main] of [rom_patches.py] takes from its options. *)
Definition base_offset_of (args : RomPatches.args) : result Z :=
  match RomPatches.offset args with
  | Some parsed => parsed
  | None => if RomPatches.mcs args then Ok 0x80 else Ok 0x00
  end.

End Spec.

(** * Properties *)

(** ** The encoder *)

Section encoder.
Import RomNames Spec.

Lemma byte_ok_true v : 0 ≤ v < 256 → byte_ok v = true.
Proof. unfold byte_ok. intros. apply andb_true_intro. split; [apply Z.leb_le | apply Z.ltb_lt]; lia. Qed.

Lemma append_ok out v : 0 ≤ v < 256 → append out v = Ok (out ++ [v]).
Proof. intros Hv. unfold append. by rewrite byte_ok_true. Qed.

Lemma lenient_code_byte remap ch :
  remap_valid remap → 0 ≤ lenient_code remap ch < 256.
Proof.
  intros Hv. unfold lenient_code.
  destruct (remap !! [ch]) as [v|] eqn:E; [by eapply Hv|].
  destruct (0x20 <=? ord ch) eqn:E1, (ord ch <=? 0x7E) eqn:E2; simpl; lia.
Qed.

Lemma occurrences_nonneg ch name : 0 ≤ occurrences ch name.
Proof. induction name as [|c rest IH]; simpl; [lia|]. case_decide; lia. Qed.

Lemma occurrences_pos ch name : ch ∈ name → 0 < occurrences ch name.
Proof.
  induction name as [|c rest IH]; simpl; [by intros ?%elem_of_nil|].
  pose proof (occurrences_nonneg ch rest).
  intros [->|Hin]%elem_of_cons; [rewrite decide_True by done; lia|].
  specialize (IH Hin). case_decide; lia.
Qed.

Lemma occurrences_notin ch name : ch ∉ name → occurrences ch name = 0.
Proof.
  induction name as [|c rest IH]; simpl; [done|].
  intros [Hne Hnin]%not_elem_of_cons. rewrite decide_False by done.
  rewrite IH by done. lia.
Qed.

Lemma elem_of_cons_ne {A} (l : list A) x y : x ≠ y → y ∈ x :: l ↔ y ∈ l.
Proof.
  intros Hne. rewrite elem_of_cons.
  split; [intros [->|?]|intros ?]; [done|done|by right].
Qed.

(** The non-strict loop never fails on a valid table and writes one code
    per character. *)
Lemma encodeName_loop_lenient remap name out missing :
  remap_valid remap →
  encodeName_loop remap false name out missing
  = Ok (out ++ (lenient_code remap <$> name), missing).
Proof.
  intros Hv. revert out. induction name as [|ch rest IH]; intros out; simpl.
  - by rewrite app_nil_r.
  - pose proof (lenient_code_byte remap ch Hv) as Hb. unfold lenient_code in *.
    destruct (remap !! [ch]) as [v|] eqn:E.
    + rewrite append_ok by done. simpl. rewrite IH.
      by rewrite <- app_assoc.
    + rewrite append_ok by done. simpl. rewrite IH.
      by rewrite <- app_assoc.
Qed.

(** The strict loop on a valid table: it reaches the end of the name, and the
    tally then holds, for each unmapped character met, what it held before
    plus the number of its occurrences. *)
Lemma encodeName_loop_strict remap name out missing :
  remap_valid remap →
  ∃ out' missing',
    encodeName_loop remap true name out missing = Ok (out', missing') ∧
    ∀ c, missing' !! c =
         if decide (remap !! [c] = None ∧ c ∈ name)
         then Some (default 0 (missing !! c) + occurrences c name)
         else missing !! c.
Proof.
  intros Hv. revert out missing.
  induction name as [|ch rest IH]; intros out missing; simpl.
  - exists out, missing. split; [done|]. intros c.
    rewrite decide_False; [done|]. intros [_ ?%elem_of_nil]. done.
  - destruct (remap !! [ch]) as [v|] eqn:E.
    + rewrite append_ok by (by eapply Hv). simpl.
      destruct (IH (out ++ [v]) missing) as (out' & missing' & -> & Hm).
      exists out', missing'. split; [done|]. intros c. rewrite Hm.
      destruct (decide (ch = c)) as [->|Hne].
      * rewrite !decide_False; [done|..]; intros [? _]; congruence.
      * pose proof (elem_of_cons_ne rest _ _ Hne) as Hiff.
        replace (0 + occurrences c rest) with (occurrences c rest) by lia.
        apply decide_ext. by rewrite Hiff.
    + destruct (IH out (count_missing missing ch)) as (out' & missing' & -> & Hm).
      exists out', missing'. split; [done|]. intros c. rewrite Hm.
      unfold count_missing.
      destruct (decide (ch = c)) as [->|Hne].
      * rewrite lookup_insert_eq. simpl.
        rewrite (decide_True (P := _ ∧ c ∈ c :: rest))
          by (split; [done|apply elem_of_cons; by left]).
        case_decide as Hc.
        -- f_equal; lia.
        -- rewrite occurrences_notin by (intros ?; by apply Hc). f_equal; lia.
      * rewrite lookup_insert_ne by done.
        pose proof (elem_of_cons_ne rest _ _ Hne) as Hiff.
        replace (0 + occurrences c rest) with (occurrences c rest) by lia.
        apply decide_ext. by rewrite Hiff.
Qed.

#[global] Instance item_le_total : Total item_le.
Proof.
  intros [c1 n1] [c2 n2]. unfold item_le. simpl.
  destruct (N.lt_trichotomy c1 c2) as [?|[->|?]]; [by left; left| |by right; left].
  destruct (Z.le_gt_cases n1 n2); [left|right]; right; split; (done || lia).
Qed.

Lemma elem_of_sorted_items missing c n :
  (c, n) ∈ sorted_items missing ↔ missing !! c = Some n.
Proof.
  unfold sorted_items. rewrite merge_sort_Permutation.
  apply elem_of_map_to_list.
Qed.

Lemma NoDup_sorted_items missing : NoDup (sorted_items missing).*1.
Proof.
  unfold sorted_items. rewrite merge_sort_Permutation.
  apply NoDup_fst_map_to_list.
Qed.

Lemma Sorted_sorted_items missing : Sorted item_le (sorted_items missing).
Proof. apply (Sorted_merge_sort item_le). Qed.


(** C7 as the claim states it fails: a printable character that the table
    does not map is written as its own code, here [A] as 0x41, not as the
    placeholder 0x20. *)
Lemma encodeName_lenient_keeps_printable :
  (∅ : gmap str Z) !! [65%N] = None ∧
  encodeName [65%N] ∅ false = Ok [ord 65%N] ∧ ord 65%N ≠ 0x20.
Proof. by vm_compute. Qed.

(** C7, amended: in non-strict mode, over a table of byte codes, [encodeName]
    returns one code per character of the normalized name: the table's code
    for a mapped character; for an unmapped one its own ordinal when that
    lies in 0x20..0x7E, and the placeholder 0x20 otherwise. *)
Theorem encodeName_lenient name remap :
  remap_valid remap →
  ∃ out,
    encodeName name remap false = Ok out ∧
    length out = length (normalizeName name) ∧
    ∀ i ch, normalizeName name !! i = Some ch →
      out !! i = Some (match remap !! [ch] with
                       | Some v => v
                       | None => if (0x20 <=? ord ch) && (ord ch <=? 0x7E)
                                 then ord ch else 0x20
                       end).
Proof.
  intros Hv. exists (lenient_code remap <$> normalizeName name).
  unfold encodeName. rewrite encodeName_loop_lenient by done.
  cbn [rbind andb app].
  split; [done|]. split; [by rewrite length_fmap|].
  intros i ch Hi. rewrite list_lookup_fmap, Hi. done.
Qed.

Lemma encodeName_lenient_witness :
  ∃ out,
    encodeName [65%N; 0x2019%N; 0x3042%N] {[ [0x27%N] := 0x60 ]} false = Ok out ∧
    out = [0x41; 0x60; 0x20].
Proof.
  destruct (encodeName_lenient [65%N; 0x2019%N; 0x3042%N] {[ [0x27%N] := 0x60 ]})
    as (out & Henc & _ & _).
  - intros k v [_ <-]%lookup_singleton_Some. lia.
  - exists out. split; [exact Henc|].
    vm_compute in Henc. by injection Henc as <-.
Defined.

(** C8 as the claim states it fails: the table is whatever the manifest
    gives, and [buildRemapTable] accepts a code above 255. With [A] mapped
    to 256 the store of that code raises the [ValueError] of
    [bytearray.append] at [A]; the scan stops there, and the unmapped
    character after it is never reported. *)
Lemma encodeName_strict_stops_at_wide_code :
  0x3042%N ∈ normalizeName [65%N; 0x3042%N] ∧
  ({[ [65%N] := 256 ]} : gmap str Z) !! [0x3042%N] = None ∧
  encodeName [65%N; 0x3042%N] {[ [65%N] := 256 ]} true
  = Raise (ValueError ByteOutOfRange).
Proof.
  split; [by apply (bool_decide_unpack _); vm_compute|].
  split; by vm_compute.
Qed.

(** C8, amended: in strict mode, over a table of byte codes, a name with a
    character the table does not map makes [encodeName] fail only after the
    whole name was read, and the error carries, sorted, one entry for every
    distinct unmapped character with the number of its occurrences in the
    whole normalized name. *)
Theorem encodeName_strict_reports_all name remap :
  remap_valid remap →
  (∃ ch, ch ∈ normalizeName name ∧ remap !! [ch] = None) →
  ∃ items,
    encodeName name remap true
    = Raise (ValueError (UnmappedCharacters (normalizeName name) items)) ∧
    (∀ ch n, (ch, n) ∈ items ↔
       ch ∈ normalizeName name ∧ remap !! [ch] = None ∧
       n = occurrences ch (normalizeName name)) ∧
    NoDup items.*1 ∧ Sorted item_le items.
Proof.
  intros Hv (ch0 & Hin0 & Hun0). unfold encodeName.
  destruct (encodeName_loop_strict remap (normalizeName name) [] ∅ Hv)
    as (out & missing & -> & Hm). simpl.
  assert (missing ≠ ∅) as Hne.
  { intros ->. specialize (Hm ch0). rewrite decide_True in Hm by done.
    by rewrite lookup_empty in Hm. }
  rewrite bool_decide_eq_false_2 by done. simpl.
  exists (sorted_items missing). split; [done|].
  split; [|split; [apply NoDup_sorted_items|apply Sorted_sorted_items]].
  intros ch n. rewrite elem_of_sorted_items, Hm, lookup_empty. simpl.
  case_decide as Hc.
  - split; [intros [= <-]|intros (_ & _ & ->)]; [by destruct Hc|done].
  - split; [done|intros (? & ? & _)]. by destruct Hc.
Qed.

Lemma encodeName_strict_reports_all_witness :
  ∃ items,
    encodeName [0x3042%N; 65%N; 0x2014%N; 0x3042%N; 0x2D%N]
      {[ [65%N] := 0x41 ]} true
    = Raise (ValueError (UnmappedCharacters
               [0x3042%N; 65%N; 0x2D%N; 0x3042%N; 0x2D%N] items)) ∧
    (0x2D%N, 2) ∈ items ∧ (0x3042%N, 2) ∈ items.
Proof.
  destruct (encodeName_strict_reports_all
              [0x3042%N; 65%N; 0x2014%N; 0x3042%N; 0x2D%N] {[ [65%N] := 0x41 ]})
    as (items & Henc & Hitems & _).
  - intros k v [_ <-]%lookup_singleton_Some. lia.
  - exists 0x2D%N. split; [by apply (bool_decide_unpack _); vm_compute|done].
  - exists items. split; [exact Henc|].
    split; apply Hitems; (split; [by apply (bool_decide_unpack _); vm_compute|done]).
Defined.

End encoder.

(** ** The table builder *)

Section builder.
Import RomNames Spec.

Lemma len_app {A} (l1 l2 : list A) : len (l1 ++ l2) = len l1 + len l2.
Proof. unfold len. rewrite length_app. lia. Qed.

Lemma len_nonneg {A} (l : list A) : 0 ≤ len l.
Proof. unfold len. lia. Qed.

Lemma len_bytes_mul b n : len (bytes_mul b n) = Z.max n 0.
Proof. unfold len, bytes_mul. rewrite length_replicate. lia. Qed.

Lemma terminated_cons enc encs :
  terminated (enc :: encs) = (enc ++ [0x00]) ++ terminated encs.
Proof. done. Qed.

Lemma list_setitem_ok offsets i v :
  (i < length offsets)%nat → list_setitem offsets i v = Ok (<[i := v]> offsets).
Proof. intros. unfold list_setitem. by rewrite decide_True. Qed.

(** The loop of the builder, started at index [i] on a buffer [buf]: it
    appends the terminated strings and stores, at each index it visits
    except 0, the length the buffer had when it got there. *)
Lemma build_loop_spec remap names encs i buf offsets :
  Forall2 (λ nm enc, encodeName nm remap true = Ok enc) names encs →
  (i + length names ≤ length offsets)%nat →
  ∃ offsets',
    build_loop remap names i buf offsets = Ok (buf ++ terminated encs, offsets') ∧
    length offsets' = length offsets ∧
    ∀ j, offsets' !! j =
         if decide (0 < j ∧ i ≤ j < i + length names)%nat
         then Some (len (buf ++ terminated (take (j - i) encs)))
         else offsets !! j.
Proof.
  intros Henc. revert i buf offsets.
  induction Henc as [|nm enc names encs Hnm _ IH]; intros i buf offsets Hlen.
  - exists offsets. simpl. rewrite app_nil_r. split; [done|]. split; [done|].
    intros j. rewrite decide_False; [done|]. simpl. lia.
  - simpl in Hlen. cbn [build_loop].
    set (offsets1 := if decide (0 < i)%nat then <[i := len buf]> offsets
                     else offsets).
    assert ((if decide (0 < i)%nat then list_setitem offsets i (len buf)
             else Ok offsets) = Ok offsets1) as ->.
    { unfold offsets1. case_decide; [|done]. apply list_setitem_ok. lia. }
    cbn [rbind]. rewrite Hnm. cbn [rbind].
    assert (length offsets1 = length offsets) as Hlen1.
    { unfold offsets1. case_decide; [apply length_insert|done]. }
    destruct (IH (S i) (buf ++ enc ++ [0x00]) offsets1) as (offsets' & -> & Hl & Hj).
    { rewrite Hlen1. lia. }
    exists offsets'. rewrite terminated_cons, <- !app_assoc.
    split; [done|]. split; [congruence|].
    intros j. rewrite Hj. cbn [length].
    destruct (decide (j = i)) as [->|Hne].
    + rewrite decide_False by lia. unfold offsets1.
      rewrite Nat.sub_diag. cbn [take terminated concat fmap list_fmap].
      rewrite app_nil_r.
      destruct (decide (0 < i)%nat) as [Hi|Hi].
      * rewrite decide_True by lia. apply list_lookup_insert_eq. lia.
      * rewrite decide_False by lia. done.
    + destruct (decide (0 < j ∧ S i ≤ j < S i + length names)%nat) as [Hc|Hc].
      * rewrite decide_True by lia.
        replace (j - i)%nat with (S (j - S i)) by lia.
        cbn [take]. rewrite terminated_cons, <- !app_assoc. done.
      * rewrite decide_False by lia. unfold offsets1.
        case_decide; [|done]. by rewrite list_lookup_insert_ne.
Qed.

(** What the loop has done when it returns. *)
Lemma build_loop_inv remap names i buf offsets buf' offsets' :
  build_loop remap names i buf offsets = Ok (buf', offsets') →
  ∃ encs,
    Forall2 (λ nm enc, encodeName nm remap true = Ok enc) names encs ∧
    buf' = buf ++ terminated encs.
Proof.
  revert i buf offsets. induction names as [|nm names IH]; intros i buf offsets.
  - intros [= <- <-]. exists []. split; [constructor|]. by rewrite app_nil_r.
  - cbn [build_loop].
    destruct (if decide (0 < i)%nat then list_setitem offsets i (len buf)
              else Ok offsets) as [offsets1|]; [|done].
    cbn [rbind]. destruct (encodeName nm remap true) as [enc|] eqn:Hnm; [|done].
    cbn [rbind]. intros (encs & Hencs & ->)%IH.
    exists (enc :: encs). split; [by constructor|].
    by rewrite terminated_cons, <- !app_assoc.
Qed.

Lemma pad_to_block n : (n + (- n) `mod` BLOCK_SIZE) `mod` BLOCK_SIZE = 0.
Proof.
  unfold BLOCK_SIZE.
  pose proof (Z.div_mod (- n) 8192 ltac:(lia)) as Hdm.
  replace (n + (- n) `mod` 8192) with ((- ((- n) `div` 8192)) * 8192) by lia.
  apply Z.mod_mul. lia.
Qed.

Lemma replicate_lookup_zero n j :
  (j < n)%nat → replicate n 0 !! j = Some 0.
Proof. intros. by apply lookup_replicate_2. Qed.

(** The padding step of the builder, whether or not it has bytes to add. *)
Lemma padded_buffer (buf : bytes) :
  let pad := (- len buf) `mod` BLOCK_SIZE in
  (if decide (pad ≠ 0) then buf ++ bytes_mul 0xFF pad else buf)
  = buf ++ bytes_mul 0xFF pad.
Proof.
  cbn zeta. case_decide as Hp; [done|].
  assert ((- len buf) `mod` BLOCK_SIZE = 0) as -> by lia.
  unfold bytes_mul. simpl. by rewrite app_nil_r.
Qed.

(** The builder on at most [EXPECTED_CARD_COUNT] names that all encode. *)
Lemma buildNameBlobAndOffsets_spec names remap encs :
  (length names ≤ Z.to_nat EXPECTED_CARD_COUNT)%nat →
  Forall2 (λ nm enc, encodeName nm remap true = Ok enc) names encs →
  ∃ blob offsets,
    buildNameBlobAndOffsets names remap = Ok (blob, offsets) ∧
    blob = (NAME_MARKER ++ terminated encs)
           ++ bytes_mul 0xFF
                ((- len (NAME_MARKER ++ terminated encs)) `mod` BLOCK_SIZE) ∧
    length offsets = Z.to_nat EXPECTED_CARD_COUNT ∧
    ∀ j, offsets !! j =
         if decide (0 < j < length names)%nat
         then Some (len (NAME_MARKER ++ terminated (take j encs)))
         else replicate (Z.to_nat EXPECTED_CARD_COUNT) 0 !! j.
Proof.
  intros Hlen Henc. unfold buildNameBlobAndOffsets.
  destruct (build_loop_spec remap names encs 0 NAME_MARKER
              (replicate (Z.to_nat EXPECTED_CARD_COUNT) 0) Henc)
    as (offsets & -> & Hl & Hj).
  { rewrite length_replicate. lia. }
  cbn [rbind]. rewrite padded_buffer. eexists _, offsets.
  split; [done|]. split; [done|].
  rewrite length_replicate in Hl. split; [done|].
  intros j. rewrite Hj, Nat.sub_0_r. apply decide_ext. lia.
Qed.

(** The loop of [YGOFM-NamePatch.py] appends one offset per name. *)
Lemma blob_loop_spec names idx blob name_offsets :
  ∃ news,
    NamePatch.blob_loop names idx blob name_offsets (len blob)
    = (blob ++ terminated (NamePatch.encode <$> names), name_offsets ++ news) ∧
    length news = length names ∧
    ∀ k, (k < length names)%nat →
      news !! k = Some (if decide (idx + k = 0)%nat then 0
                        else len (blob ++ terminated
                                    (take k (NamePatch.encode <$> names)))).
Proof.
  revert idx blob name_offsets.
  induction names as [|nm names IH]; intros idx blob name_offsets.
  - exists []. simpl. rewrite !app_nil_r. split; [done|]. split; [done|].
    intros k Hk. simpl in Hk. lia.
  - cbn [NamePatch.blob_loop].
    set (x := if decide (idx + 0 = 0)%nat then 0 else len blob).
    assert ((if decide (idx = 0%nat) then name_offsets ++ [0]
             else name_offsets ++ [len blob]) = name_offsets ++ [x]) as ->.
    { unfold x. rewrite Nat.add_0_r. by case_decide. }
    destruct (IH (S idx) (blob ++ NamePatch.encode nm ++ [0x00])
                (name_offsets ++ [x])) as (news & -> & Hl & Hk).
    exists (x :: news). rewrite fmap_cons, terminated_cons, <- !app_assoc.
    split; [done|]. split; [simpl; congruence|].
    intros [|k] Hlt; simpl in Hlt.
    + unfold x. cbn [lookup list_lookup take terminated concat fmap list_fmap].
      by rewrite app_nil_r.
    + cbn [lookup list_lookup]. rewrite Hk by lia.
      rewrite !(decide_False (P := (_ = 0)%nat)) by lia.
      cbn [take]. by rewrite terminated_cons, <- !app_assoc.
Qed.

(** C1 as the claim states it fails: for three names that encode, the
    builder of [rom_names.py] returns 722 offsets, not three. *)
Lemma buildNameBlobAndOffsets_three_names :
  let names := [[65%N]; [66%N; 66%N]; [67%N; 67%N; 67%N]] in
  let remap : gmap str Z :=
    <[ [65%N] := 0x41 ]> (<[ [66%N] := 0x42 ]> {[ [67%N] := 0x43 ]}) in
  Forall (λ nm, ∃ enc, encodeName nm remap true = Ok enc) names ∧
  ∃ blob offsets,
    buildNameBlobAndOffsets names remap = Ok (blob, offsets) ∧
    length offsets = 722%nat ∧ length offsets ≠ length names ∧
    take 4 offsets = [0; 4; 7; 0].
Proof.
  split.
  - repeat constructor; eexists; by vm_compute.
  - destruct (buildNameBlobAndOffsets _ _) as [[blob offsets]|] eqn:E;
      vm_compute in E; [|discriminate].
    exists blob, offsets. split; [done|].
    injection E as <- <-. by vm_compute.
Qed.

(** C1, amended: for at most 722 names that all encode, the builder of
    [rom_names.py] returns an offsets array of exactly 722 entries, whatever
    the number N of names: entry 0 is 0, entry i for 0 < i < N is the length
    of the buffer (marker, then the earlier encoded strings with their
    terminators) just before string i is appended, and the entries from N on
    are 0. The loop of [YGOFM-NamePatch.py] returns exactly N offsets, with
    the same values. *)
Theorem name_offsets_mark_string_starts names remap encs :
  (length names ≤ Z.to_nat EXPECTED_CARD_COUNT)%nat →
  Forall2 (λ nm enc, encodeName nm remap true = Ok enc) names encs →
  (∃ blob offsets,
     buildNameBlobAndOffsets names remap = Ok (blob, offsets) ∧
     length offsets = Z.to_nat EXPECTED_CARD_COUNT ∧
     offsets !! 0%nat = Some 0 ∧
     (∀ i, (0 < i < length names)%nat →
        offsets !! i = Some (len (NAME_MARKER ++ terminated (take i encs)))) ∧
     (∀ i, (length names ≤ i < Z.to_nat EXPECTED_CARD_COUNT)%nat →
        offsets !! i = Some 0)) ∧
  (∃ blob name_offsets,
     NamePatch.blob_loop names 0 NamePatch.START_OF_TEXT []
       (len NamePatch.START_OF_TEXT) = (blob, name_offsets) ∧
     length name_offsets = length names ∧
     (names ≠ [] → name_offsets !! 0%nat = Some 0) ∧
     (∀ i, (0 < i < length names)%nat →
        name_offsets !! i
        = Some (len (NamePatch.START_OF_TEXT
                       ++ terminated (take i (NamePatch.encode <$> names)))))).
Proof.
  intros Hlen Henc. split.
  - destruct (buildNameBlobAndOffsets_spec names remap encs Hlen Henc)
      as (blob & offsets & Hb & _ & Hl & Hj).
    exists blob, offsets. split; [done|]. split; [done|].
    split; [|split].
    + rewrite Hj, decide_False by lia. apply replicate_lookup_zero.
      vm_compute. lia.
    + intros i Hi. by rewrite Hj, decide_True.
    + intros i Hi. rewrite Hj, decide_False by lia.
      apply replicate_lookup_zero. lia.
  - destruct (blob_loop_spec names 0 NamePatch.START_OF_TEXT [])
      as (news & Hb & Hl & Hk).
    eexists _, news. split; [exact Hb|]. split; [done|]. split.
    + intros Hne. rewrite Hk by (destruct names; [done|simpl; lia]).
      by rewrite decide_True.
    + intros i Hi. rewrite Hk by lia. by rewrite decide_False by lia.
Qed.

Lemma name_offsets_mark_string_starts_witness :
  ∃ blob offsets,
    buildNameBlobAndOffsets [[65%N]; [66%N; 66%N]; [67%N; 67%N; 67%N]]
      (<[ [65%N] := 0x41 ]> (<[ [66%N] := 0x42 ]> {[ [67%N] := 0x43 ]}))
    = Ok (blob, offsets) ∧
    offsets !! 0%nat = Some 0 ∧ offsets !! 1%nat = Some 4 ∧
    offsets !! 2%nat = Some 7 ∧ offsets !! 3%nat = Some 0.
Proof.
  destruct (name_offsets_mark_string_starts
              [[65%N]; [66%N; 66%N]; [67%N; 67%N; 67%N]]
              (<[ [65%N] := 0x41 ]> (<[ [66%N] := 0x42 ]> {[ [67%N] := 0x43 ]}))
              [[0x41]; [0x42; 0x42]; [0x43; 0x43; 0x43]])
    as [(blob & offsets & Hb & _ & H0 & Hi & Hz) _].
  - vm_compute. lia.
  - repeat constructor; by vm_compute.
  - exists blob, offsets. split; [exact Hb|]. split; [exact H0|].
    split; [|split].
    + rewrite (Hi 1%nat) by (simpl; lia). reflexivity.
    + rewrite (Hi 2%nat) by (simpl; lia). reflexivity.
    + apply (Hz 3%nat). vm_compute. lia.
Defined.

(** C9: whenever the builder returns a table, the table is the marker, the
    encoded strings each with its terminator, and fewer than a block of
    fill bytes, and its length is a multiple of [BLOCK_SIZE]. *)
Theorem name_blob_fills_whole_blocks names remap blob offsets :
  buildNameBlobAndOffsets names remap = Ok (blob, offsets) →
  len blob `mod` BLOCK_SIZE = 0 ∧
  ∃ encs pad,
    Forall2 (λ nm enc, encodeName nm remap true = Ok enc) names encs ∧
    0 ≤ pad < BLOCK_SIZE ∧
    blob = NAME_MARKER ++ terminated encs ++ bytes_mul 0xFF pad.
Proof.
  unfold buildNameBlobAndOffsets.
  destruct (build_loop _ _ _ _ _) as [[buf offs]|] eqn:Hloop; [|done].
  apply build_loop_inv in Hloop as (encs & Hencs & ->).
  cbn [rbind]. remember (NAME_MARKER ++ terminated encs) as buf eqn:Hbuf.
  remember ((- len buf) `mod` BLOCK_SIZE) as pad eqn:Hpad_def.
  assert (0 ≤ pad < BLOCK_SIZE) as Hpad
    by (subst pad; apply Z.mod_pos_bound; done).
  subst pad. rewrite padded_buffer. intros [= <- <-].
  remember ((- len buf) `mod` BLOCK_SIZE) as pad eqn:Hpad_def.
  split.
  - rewrite len_app, len_bytes_mul, Z.max_l, Hpad_def by lia.
    apply pad_to_block.
  - exists encs, pad. split; [done|]. split; [done|].
    subst buf. by rewrite <- app_assoc.
Qed.

Lemma name_blob_fills_whole_blocks_witness :
  ∃ blob offsets,
    buildNameBlobAndOffsets [[65%N]; [66%N; 66%N]] {[ [65%N] := 0x41 ]}
    = Raise (ValueError (UnmappedCharacters [66%N; 66%N] [(66%N, 2)])) ∧
    buildNameBlobAndOffsets [[65%N]; [65%N; 65%N]] {[ [65%N] := 0x41 ]}
    = Ok (blob, offsets) ∧
    len blob `mod` BLOCK_SIZE = 0.
Proof.
  destruct (buildNameBlobAndOffsets_spec [[65%N]; [65%N; 65%N]]
              {[ [65%N] := 0x41 ]} [[0x41]; [0x41; 0x41]])
    as (blob & offsets & Hb & _).
  - vm_compute. lia.
  - repeat constructor; by vm_compute.
  - exists blob, offsets. split; [by vm_compute|]. split; [exact Hb|].
    exact (proj1 (name_blob_fills_whole_blocks _ _ _ _ Hb)).
Defined.

End builder.

(** ** The language section of the patch manifest *)

Section language_section.
Import RomPatches.
Variable lower : str → str.

Lemma getitem_Some_elem (manifest : manifest) k :
  k ∈ manifest.*1 → is_Some (getitem manifest k).
Proof.
  induction manifest as [|[k' v'] rest IH]; simpl.
  - by intros ?%elem_of_nil.
  - rewrite elem_of_cons. intros Hin.
    destruct (decide (k' = k)) as [->|Hne]; [by exists v'|].
    apply IH. destruct Hin as [Heq|Hin]; [congruence|done].
Qed.

Lemma getitem_None_notin (manifest : manifest) k :
  getitem manifest k = None → k ∉ manifest.*1.
Proof.
  intros Hnone Hin. apply getitem_Some_elem in Hin as [v Hv]. congruence.
Qed.

(** The case-insensitive loop over a tail [keys] of the manifest: it stops
    at the first key that matches and raises when there is none. *)
Lemma fallback_first_match (keys : list (str * section)) manifest lang_key
    pre k post :
  keys.*1 = pre ++ k :: post →
  Forall (λ k', lower k' ≠ lower lang_key) pre →
  lower k = lower lang_key →
  k ∈ manifest.*1 →
  ∃ v, getitem manifest k = Some v ∧
       fallback lower keys manifest lang_key = Ok v.
Proof.
  revert keys. induction pre as [|k0 pre IH]; intros keys Hkeys Hpre Hk Hin.
  - destruct keys as [|[k1 v1] keys]; [done|]. simpl in Hkeys.
    injection Hkeys as -> _. simpl. rewrite decide_True by done.
    destruct (getitem_Some_elem manifest k Hin) as [v Hv].
    exists v. by rewrite Hv.
  - destruct keys as [|[k1 v1] keys]; [done|]. simpl in Hkeys.
    injection Hkeys as -> Hkeys. apply Forall_cons_1 in Hpre as [Hk0 Hpre].
    simpl. rewrite decide_False by done. by apply IH.
Qed.

Lemma fallback_no_match (keys : list (str * section)) manifest lang_key :
  Forall (λ k', lower k' ≠ lower lang_key) keys.*1 →
  fallback lower keys manifest lang_key = Raise (KeyError (LanguageNotFound lang_key)).
Proof.
  induction keys as [|[k v] keys IH]; simpl; [done|].
  intros [Hk Hkeys]%Forall_cons_1. rewrite decide_False by done. by apply IH.
Qed.

Lemma fallback_Raise (keys : list (str * section)) manifest lang_key e :
  (∀ k, k ∈ keys.*1 → k ∈ manifest.*1) →
  fallback lower keys manifest lang_key = Raise e →
  e = KeyError (LanguageNotFound lang_key) ∧
  Forall (λ k', lower k' ≠ lower lang_key) keys.*1.
Proof.
  induction keys as [|[k v] keys IH]; simpl; intros Hsub.
  - by intros [= <-].
  - case_decide as Hk.
    + destruct (getitem_Some_elem manifest k) as [v' ->]; [|done].
      apply Hsub. by left.
    + intros [-> Hall]%IH; [|intros k' ?; apply Hsub; by right].
      split; [done|]. by constructor.
Qed.

Lemma getitem_first (manifest : manifest) pre k v post :
  manifest = pre ++ (k, v) :: post → k ∉ pre.*1 →
  getitem manifest k = Some v.
Proof.
  intros -> Hpre. induction pre as [|[k' v'] pre IH]; simpl.
  - by rewrite decide_True.
  - rewrite fmap_cons, not_elem_of_cons in Hpre. destruct Hpre as [Hne Hpre].
    rewrite decide_False by (simpl in Hne; congruence). by apply IH.
Qed.

Lemma getitem_notin (manifest : manifest) k :
  k ∉ manifest.*1 → getitem manifest k = None.
Proof.
  induction manifest as [|[k' v'] rest IH]; simpl; [done|].
  rewrite not_elem_of_cons. intros [Hne Hrest].
  rewrite decide_False by congruence. by apply IH.
Qed.

(** C10: [find_language_section] returns the section the manifest holds
    under the requested key when it has that key; otherwise the section it
    holds under the first key, in the order of the manifest, that equals
    the requested key once both are lowered; and it raises the
    missing-language [KeyError] exactly when no key of the manifest matches
    even so. The section held under a key is the one paired with the key at
    its place in the manifest. *)
Theorem find_language_section_spec (manifest : manifest) (lang_key : str) :
  (∀ pre v post,
     manifest = pre ++ (lang_key, v) :: post →
     lang_key ∉ pre.*1 →
     find_language_section lower manifest lang_key = Ok v) ∧
  (∀ pre k v post,
     lang_key ∉ manifest.*1 →
     manifest = pre ++ (k, v) :: post →
     Forall (λ k', lower k' ≠ lower lang_key) pre.*1 →
     lower k = lower lang_key →
     find_language_section lower manifest lang_key = Ok v) ∧
  (∀ e, find_language_section lower manifest lang_key = Raise e ↔
     e = KeyError (LanguageNotFound lang_key) ∧
     Forall (λ k', lower k' ≠ lower lang_key) manifest.*1).
Proof.
  unfold find_language_section. split; [|split].
  - intros pre v post Hm Hpre. by rewrite (getitem_first _ _ _ _ _ Hm Hpre).
  - intros pre k v post Hnone Hm Hpre Hk.
    rewrite (getitem_notin _ _ Hnone).
    assert (k ∉ pre.*1) as Hfirst.
    { intros Hin. rewrite list.Forall_forall in Hpre.
      by apply (Hpre _ Hin). }
    destruct (fallback_first_match manifest manifest lang_key pre.*1 k
                post.*1) as (v' & Hv' & Hrun); [|done|done| |].
    + by rewrite Hm, fmap_app, fmap_cons.
    + rewrite Hm, fmap_app, fmap_cons. apply elem_of_app. right. by left.
    + rewrite (getitem_first _ _ _ _ _ Hm Hfirst) in Hv'. congruence.
  - intros e. split.
    + destruct (getitem manifest lang_key) eqn:Hexact; [done|].
      by apply fallback_Raise.
    + intros [-> Hall].
      destruct (getitem manifest lang_key) as [v|] eqn:Hexact.
      * exfalso. assert (lang_key ∈ manifest.*1) as Hin.
        { clear Hall. induction manifest as [|[k' v'] rest IH]; [done|].
          simpl in *. case_decide; [subst; by left|right; by apply IH]. }
        rewrite list.Forall_forall in Hall. by apply (Hall _ Hin).
      * by apply fallback_no_match.
Qed.

End language_section.

Lemma find_language_section_spec_witness :
  let first := RomPatches.Patches
                 [Some (RomPatches.Entry [80%N] true (Ok 1) (Ok [7]))] in
  let second := RomPatches.Patches [] in
  let manifest := [([118%N], RomPatches.NotIterable);
                   ([69%N; 110%N], first); ([101%N; 110%N], second)] in
  RomPatches.find_language_section Spec.ascii_lower manifest [101%N; 110%N]
  = Ok second ∧
  RomPatches.find_language_section Spec.ascii_lower manifest [69%N; 78%N]
  = Ok first ∧
  RomPatches.find_language_section Spec.ascii_lower manifest [100%N; 101%N]
  = Raise (KeyError (LanguageNotFound [100%N; 101%N])).
Proof.
  intros first second manifest.
  destruct (find_language_section_spec Spec.ascii_lower manifest
              [101%N; 110%N]) as [Hexact _].
  destruct (find_language_section_spec Spec.ascii_lower manifest
              [69%N; 78%N]) as (_ & Hfold & _).
  destruct (find_language_section_spec Spec.ascii_lower manifest
              [100%N; 101%N]) as (_ & _ & Hnone).
  split; [|split].
  - apply (Hexact [([118%N], RomPatches.NotIterable); ([69%N; 110%N], first)]
             second []); [reflexivity|].
    apply (bool_decide_unpack _). by vm_compute.
  - apply (Hfold [([118%N], RomPatches.NotIterable)] [69%N; 110%N] first
             [([101%N; 110%N], second)]); [|reflexivity| |reflexivity].
    + apply (bool_decide_unpack _). by vm_compute.
    + repeat constructor. by vm_compute.
  - apply Hnone. split; [reflexivity|].
    repeat constructor; by vm_compute.
Defined.

Example find_language_section_examples :
  let manifest := [([101%N; 78%N], RomPatches.Patches []);
                   ([69%N; 78%N], RomPatches.NotIterable);
                   ([100%N; 101%N], RomPatches.Patches [None])] in
  RomPatches.find_language_section Spec.ascii_lower manifest [69%N; 78%N]
  = Ok RomPatches.NotIterable ∧
  RomPatches.find_language_section Spec.ascii_lower manifest [101%N; 110%N]
  = Ok (RomPatches.Patches []) ∧
  RomPatches.find_language_section Spec.ascii_lower manifest [68%N; 69%N]
  = Ok (RomPatches.Patches [None]) ∧
  RomPatches.find_language_section Spec.ascii_lower manifest [102%N; 114%N]
  = Raise (KeyError (LanguageNotFound [102%N; 114%N])).
Proof. by vm_compute. Qed.

(** ** A run that fails in front of the write-back writes nothing *)

Section write_back.
Import Spec.

Lemma keeps_file_ret {A} (a : A) : keeps_file (ret a).
Proof. by intros w. Qed.

Lemma keeps_file_throw {A} e : keeps_file (throw (A := A) e).
Proof. by intros w. Qed.

Lemma keeps_file_lift {A} (r : result A) : keeps_file (lift r).
Proof. by intros w. Qed.

Lemma keeps_file_get : keeps_file get.
Proof. by intros w. Qed.

Lemma keeps_file_print l : keeps_file (print l).
Proof. by intros w. Qed.

Lemma keeps_file_read_bytes : keeps_file read_bytes.
Proof. intros w. unfold read_bytes. by destruct (file w) eqn:E. Qed.

Lemma keeps_file_on_buffer {A} (m : M bytes A) rom :
  keeps_file (on_buffer m rom).
Proof. intros w. unfold on_buffer. by destruct (m rom) as [? []]. Qed.

Lemma keeps_file_bind {A B} (m : M world A) (k : A → M world B) :
  keeps_file m → (∀ a, keeps_file (k a)) → keeps_file (bind m k).
Proof.
  intros Hm Hk w. unfold bind. specialize (Hm w).
  destruct (m w) as [w' [a|e]]; simpl in *; [|done].
  by rewrite Hk.
Qed.

Lemma stops_with_refl {A} (m : M world A) : stops_with m m.
Proof. by intros w e _. Qed.

(** Nothing has to be shown of what stands in the place of a step that
    returns. *)
Lemma stops_with_ret {A} (m : M world A) (a : A) : stops_with m (ret a).
Proof. by intros w e. Qed.

Lemma stops_with_bind {A B} (m : M world A) (k steps : A → M world B) :
  (∀ a, stops_with (k a) (steps a)) →
  stops_with (bind m k) (bind m steps).
Proof.
  intros Hk w e. unfold bind. destruct (m w) as [w' [a|e']]; [|done].
  apply Hk.
Qed.

Lemma keeps_file_call_apply_patches m rom_bytes :
  keeps_file (RomPatches.call_apply_patches m rom_bytes).
Proof.
  intros w. unfold RomPatches.call_apply_patches.
  by destruct (m _) as [? []].
Qed.

Create HintDb keeps discriminated.
#[local] Hint Resolve keeps_file_ret keeps_file_throw keeps_file_lift
  keeps_file_get keeps_file_print keeps_file_read_bytes keeps_file_on_buffer
  keeps_file_call_apply_patches : keeps.

(** Steps that keep the file, one after the other, keep the file. *)
Ltac keeps :=
  repeat first
    [ apply keeps_file_bind; [|intros ?]
    | match goal with
      | |- keeps_file (if ?b then _ else _) => destruct b
      | |- keeps_file (match ?x with _ => _ end) => destruct x
      end
    | solve [unfold RomNames.readRom; auto with keeps] ].

(** Step by step, two runs that differ only in the write-back. *)
Ltac stops :=
  repeat first
    [ apply stops_with_ret
    | apply stops_with_refl
    | apply stops_with_bind; intros ?
    | match goal with
      | |- stops_with (if ?b then _ else _) _ => destruct b
      | |- stops_with (let (_, _) := ?p in _) _ => destruct p
      end ].

Lemma rom_names_stops_with finish args manifest :
  stops_with (RomNames.main_with finish args manifest)
    (RomNames.steps args manifest).
Proof. unfold RomNames.steps, RomNames.main_with. stops. Qed.

Lemma rom_names_steps_keep_file args manifest :
  keeps_file (RomNames.steps args manifest).
Proof. unfold RomNames.steps, RomNames.main_with. keeps. Qed.

Lemma rom_patches_stops_with finish lower args loaded :
  stops_with (RomPatches.main_with finish lower args loaded)
    (RomPatches.steps lower args loaded).
Proof. unfold RomPatches.steps, RomPatches.main_with. stops. Qed.

Lemma rom_patches_steps_keep_file lower args loaded :
  keeps_file (RomPatches.steps lower args loaded).
Proof. unfold RomPatches.steps, RomPatches.main_with. keeps. Qed.

(** C4: when a step of [rom_names.py] or of [rom_patches.py] in front of
    the write-back raises, the run raises that error there: it is the same
    run whatever stands in the place of the write-back, so the write-back
    is not reached, and the file has the bytes it had when the run started.
    The steps are all of [main] but its last statements, the write of the
    file and what follows it. *)
Theorem failed_run_leaves_file_untouched :
  (∀ args manifest w e,
     (RomNames.steps args manifest w).2 = Raise e →
     (RomNames.main args manifest w).2 = Raise e ∧
     file (RomNames.main args manifest w).1 = file w ∧
     ∀ finish,
       RomNames.main_with finish args manifest w
       = RomNames.steps args manifest w) ∧
  (∀ lower args loaded w e,
     (RomPatches.steps lower args loaded w).2 = Raise e →
     (RomPatches.main lower args loaded w).2 = Raise e ∧
     file (RomPatches.main lower args loaded w).1 = file w ∧
     ∀ finish,
       RomPatches.main_with finish lower args loaded w
       = RomPatches.steps lower args loaded w).
Proof.
  split.
  - intros args manifest w e He. unfold RomNames.main.
    rewrite (rom_names_stops_with RomNames.write_back args manifest w e He).
    split; [exact He|]. split; [apply rom_names_steps_keep_file|].
    intros finish. by apply (rom_names_stops_with finish args manifest w e).
  - intros lower args loaded w e He. unfold RomPatches.main.
    rewrite (rom_patches_stops_with RomPatches.write_back lower args loaded
               w e He).
    split; [exact He|]. split; [apply rom_patches_steps_keep_file|].
    intros finish.
    by apply (rom_patches_stops_with finish lower args loaded w e).
Qed.

Lemma failed_run_leaves_file_untouched_witness :
  let w := World (Some [1; 2; 3; 4]) None [] in
  let no_index := RomNames.CardsJson None (Some (Ok 0)) (Some (Ok 0)) [] ∅ in
  let names_args := RomNames.Args [101%N] true false None false false in
  let patches := RomPatches.Patches
    [Some (RomPatches.Entry [80%N] true (Ok 1) (Ok [9; 9]));
     Some (RomPatches.Entry [81%N] true (Ok 3) (Ok [7; 7]))] in
  let patch_args := RomPatches.Args [101%N] false None None false false in
  ((RomNames.main names_args (Ok no_index) w).2
   = Raise (KeyError MissingRequiredKey) ∧
   file (RomNames.main names_args (Ok no_index) w).1 = Some [1; 2; 3; 4]) ∧
  ((RomPatches.main ascii_lower patch_args (Ok [([101%N], patches)]) w).2
   = Raise (ValueError (PatchExceedsFileSize [81%N] 3 2 4)) ∧
   file (RomPatches.main ascii_lower patch_args (Ok [([101%N], patches)]) w).1
   = Some [1; 2; 3; 4]).
Proof.
  intros w no_index names_args patches patch_args.
  destruct (proj1 failed_run_leaves_file_untouched names_args (Ok no_index) w
              (KeyError MissingRequiredKey) eq_refl)
    as (Hnames & Hnames_file & _).
  destruct (proj2 failed_run_leaves_file_untouched ascii_lower patch_args
              (Ok [([101%N], patches)]) w
              (ValueError (PatchExceedsFileSize [81%N] 3 2 4)) eq_refl)
    as (Hpatches & Hpatches_file & _).
  split; split; [exact Hnames|exact Hnames_file|exact Hpatches
                 |exact Hpatches_file].
Defined.

End write_back.

(** ** The generic patch applier *)

Section applier.
Import RomPatches Spec.

Lemma clip_inside n i : 0 ≤ i ≤ n → clip n i = Z.to_nat i.
Proof.
  intros Hi. unfold clip.
  destruct (i <? 0) eqn:E; [apply Z.ltb_lt in E; lia|]. f_equal. lia.
Qed.

(** A slice store into a range that lies inside the buffer and has the
    length of the data keeps the length of the buffer. *)
Lemma setslice_length rom lo data :
  0 ≤ lo → lo + len data ≤ len rom →
  length (setslice rom lo (lo + len data) data) = length rom.
Proof.
  intros Hlo Hhi. unfold setslice. pose proof (len_nonneg data) as Hd.
  rewrite !clip_inside by lia. unfold len in *.
  rewrite !length_app, length_take, length_drop. lia.
Qed.

Lemma apply_entry_selected base_offset include_inactive only_name dry_run
    total item :
  selected include_inactive only_name item = None →
  apply_entry base_offset include_inactive only_name dry_run total item
  = ret total.
Proof.
  unfold selected, apply_entry. destruct item as [entry|]; simpl; [|done].
  destruct (filtered_out _ _); [done|].
  by destruct (negb (active entry) && negb include_inactive).
Qed.

(** One item that is applied, on a buffer [p]: the four ways it can end. *)
Lemma apply_entry_cases base_offset include_inactive only_name dry_run total
    item entry p :
  selected include_inactive only_name item = Some entry →
  apply_entry base_offset include_inactive only_name dry_run total item p =
  match addr entry, value entry with
  | Raise e, _ => (p, Raise e)
  | Ok _, Raise e => (p, Raise e)
  | Ok addr, Ok data =>
      let start := base_offset + addr in
      let end_ := start + len data in
      if len (rom_bytes p) <? end_ then
        (p, Raise (ValueError (PatchExceedsFileSize (name entry) addr
                                 (len data) (len (rom_bytes p)))))
      else if dry_run then
        (Patcher (rom_bytes p)
           (printed p ++ [DryWouldWrite (name entry) (len data) start addr]),
         Ok (total + len data))
      else
        (Patcher (setslice (rom_bytes p) start end_ data)
           (printed p ++ [PatchedWrote (name entry) (len data) start]),
         Ok (total + len data))
  end.
Proof.
  unfold selected, apply_entry. destruct item as [entry'|]; simpl; [|done].
  destruct (filtered_out _ _); [done|].
  destruct (negb (active entry') && negb include_inactive); [done|].
  intros [= ->]. unfold bind, lift.
  destruct (addr entry) as [a|]; [|done].
  destruct (value entry) as [data|]; [|done]. simpl.
  destruct (len (rom_bytes p) <? _); [done|].
  by destruct dry_run.
Qed.

(** An item whose range ends past the buffer raises and leaves the buffer
    and the output as they were. *)
Lemma apply_entry_out_of_range base_offset include_inactive only_name dry_run
    total item entry a data p :
  selected include_inactive only_name item = Some entry →
  addr entry = Ok a → value entry = Ok data →
  len (rom_bytes p) < base_offset + a + len data →
  apply_entry base_offset include_inactive only_name dry_run total item p
  = (p, Raise (ValueError (PatchExceedsFileSize (name entry) a (len data)
                             (len (rom_bytes p))))).
Proof.
  intros Hsel Ha Hd Hlt.
  rewrite (apply_entry_cases _ _ _ _ _ _ _ _ Hsel), Ha, Hd. simpl.
  by rewrite (proj2 (Z.ltb_lt _ _) Hlt).
Qed.

(** In a dry run the loop leaves the buffer as it is, whatever the outcome,
    and a run that returns has printed one line for each item it would have
    written. *)
Lemma apply_loop_dry_run base_offset include_inactive only_name items total
    p p' r :
  apply_loop base_offset include_inactive only_name true items total p
  = (p', r) →
  rom_bytes p' = rom_bytes p ∧
  ∀ written, r = Ok written →
    printed p'
    = printed p ++ omap (dry_line base_offset include_inactive only_name) items.
Proof.
  revert total p. induction items as [|item items IH]; intros total p.
  - intros [= <- <-]. split; [done|]. intros _ _. simpl. by rewrite app_nil_r.
  - cbn [apply_loop]. unfold bind.
    assert (omap (dry_line base_offset include_inactive only_name)
              (item :: items)
            = from_option (λ l, [l]) []
                (dry_line base_offset include_inactive only_name item)
              ++ omap (dry_line base_offset include_inactive only_name) items)
      as -> by (simpl; by destruct (dry_line _ _ _ _)).
    unfold dry_line at 1.
    destruct (selected include_inactive only_name item) as [entry|] eqn:Hsel.
    + rewrite (apply_entry_cases _ _ _ _ _ _ _ _ Hsel).
      cbn [mbind option_bind].
      destruct (addr entry) as [a|]; [|by intros [= <- <-]].
      destruct (value entry) as [data|]; [|by intros [= <- <-]]. cbn zeta.
      destruct (len (rom_bytes p) <? _); [by intros [= <- <-]|].
      intros [Hrom Hout]%IH. split; [done|].
      intros written Hr. rewrite (Hout _ Hr). cbn [printed from_option].
      by rewrite <- app_assoc.
    + rewrite apply_entry_selected by done. unfold ret.
      cbn [mbind option_bind from_option app]. apply IH.
Qed.

(** Without the dry run, items whose start is not negative never change the
    length of the buffer, whatever the outcome. *)
Lemma apply_loop_keeps_length base_offset include_inactive only_name dry_run
    items total p :
  Forall (λ item, ∀ entry a,
            selected include_inactive only_name item = Some entry →
            addr entry = Ok a → 0 ≤ base_offset + a) items →
  length (rom_bytes (apply_loop base_offset include_inactive only_name dry_run
                       items total p).1) = length (rom_bytes p).
Proof.
  intros Hall. revert total p.
  induction Hall as [|item items Hitem _ IH]; intros total p; [done|].
  cbn [apply_loop]. unfold bind at 1.
  destruct (selected include_inactive only_name item) as [entry|] eqn:Hsel.
  - rewrite (apply_entry_cases _ _ _ _ _ _ _ _ Hsel).
    destruct (addr entry) as [a|] eqn:Ha; [|done].
    destruct (value entry) as [data|]; [|done]. cbn zeta.
    destruct (len (rom_bytes p) <? _) eqn:Hend; [done|].
    apply Z.ltb_ge in Hend.
    destruct dry_run; rewrite IH; [done|]. cbn [rom_bytes].
    apply setslice_length; [by eapply Hitem|done].
  - rewrite apply_entry_selected by done. unfold ret. apply IH.
Qed.

End applier.

(** ** The index and header patchers of rom_names.py *)

Section patchers.
Import RomNames Spec.

Lemma land_byte x : Z.land x 0xFF = x `mod` 256.
Proof. apply (Z.land_ones x 8). lia. Qed.

Lemma land_16 x : Z.land x 0xFFFF = x `mod` 65536.
Proof. apply (Z.land_ones x 16). lia. Qed.

Lemma shiftr_8 x : Z.shiftr x 8 = x `div` 256.
Proof. apply (Z.shiftr_div_pow2 x 8). lia. Qed.

Lemma setitem_inside rom i v :
  0 ≤ i < len rom → 0 ≤ v < 256 →
  setitem rom i v = Ok (<[Z.to_nat i := v]> rom).
Proof.
  intros Hi Hv. unfold setitem, norm_index. rewrite byte_ok_true by done.
  destruct (i <? 0) eqn:E; [apply Z.ltb_lt in E; lia|].
  rewrite (proj2 (Z.leb_le 0 i)), (proj2 (Z.ltb_lt i (len rom))) by lia.
  done.
Qed.

Lemma store_inside rom i v :
  0 ≤ i < len rom → 0 ≤ v < 256 →
  store i v rom = (<[Z.to_nat i := v]> rom, Ok tt).
Proof. intros. unfold store, update. by rewrite setitem_inside. Qed.

Lemma len_insert (rom : bytes) j v : len (<[j := v]> rom) = len rom.
Proof. unfold len. by rewrite length_insert. Qed.

(** The loop of [patchCardIndexNameOffsets] over the cards [s .. s + n - 1],
    when their records lie inside the buffer: it returns, keeps the length,
    leaves in the two bytes of each field the low 16 bits of the card's
    offset, and touches nothing else. *)
Lemma patch_loop_spec first offsets n : ∀ s rom,
  0 ≤ first →
  first + (Z.of_nat s + Z.of_nat n) * CARD_ENTRY_SIZE ≤ len rom →
  (s + n ≤ length offsets)%nat →
  ∃ rom',
    for_each (seq s n) (λ i,
      let entryBase := first + Z.of_nat i * CARD_ENTRY_SIZE in
      let nameOffPos := entryBase + 4 in
      off ←! lift (list_getitem offsets i);
      let val := Z.land off 0xFFFF in
      store nameOffPos (Z.land val 0xFF) ;!
      store (nameOffPos + 1) (Z.land (Z.shiftr val 8) 0xFF)) rom
    = (rom', Ok tt) ∧
    length rom' = length rom ∧
    (∀ i off, (s ≤ i < s + n)%nat → offsets !! i = Some off →
       rom' !! Z.to_nat (first + Z.of_nat i * 6 + 4)
       = Some ((off `mod` 65536) `mod` 256) ∧
       rom' !! Z.to_nat (first + Z.of_nat i * 6 + 5)
       = Some (((off `mod` 65536) `div` 256) `mod` 256)) ∧
    (∀ k, (∀ i, (s ≤ i < s + n)%nat →
             k ≠ Z.to_nat (first + Z.of_nat i * 6 + 4) ∧
             k ≠ Z.to_nat (first + Z.of_nat i * 6 + 5)) →
       rom' !! k = rom !! k).
Proof.
  unfold CARD_ENTRY_SIZE.
  induction n as [|n IH]; intros s rom Hfirst Hlen Hoffs.
  - exists rom. split; [done|]. split; [done|]. split; [intros; lia|done].
  - cbn [seq for_each]. unfold bind at 1.
    destruct (lookup_lt_is_Some_2 offsets s ltac:(lia)) as [off0 Hoff0].
    unfold lift at 1, list_getitem at 1. rewrite Hoff0.
    unfold bind at 1 2.
    rewrite land_16, shiftr_8, !land_byte.
    pose proof (Z.mod_pos_bound ((off0 `mod` 65536)) 256 ltac:(lia)).
    pose proof (Z.mod_pos_bound ((off0 `mod` 65536) `div` 256) 256 ltac:(lia)).
    rewrite store_inside by lia.
    rewrite store_inside by (rewrite ?len_insert; lia).
    set (rom1 := <[Z.to_nat (first + Z.of_nat s * 6 + 4 + 1) := _]> _).
    destruct (IH (S s) rom1) as (rom' & Hrun & Hl & Hfield & Hframe).
    { done. }
    { unfold rom1. rewrite !len_insert. lia. }
    { lia. }
    exists rom'. split; [exact Hrun|].
    assert (length rom1 = length rom) as Hl1
      by (unfold rom1; by rewrite !length_insert).
    split; [congruence|]. split.
    + intros i off Hi Hoff. destruct (decide (i = s)) as [->|Hne].
      * assert (off = off0) as -> by congruence.
        rewrite !Hframe by (intros; lia). unfold rom1.
        replace (first + Z.of_nat s * 6 + 4 + 1)
          with (first + Z.of_nat s * 6 + 5) by lia.
        split.
        -- rewrite list_lookup_insert_ne by lia.
           apply list_lookup_insert_eq. unfold len in *. lia.
        -- apply list_lookup_insert_eq. rewrite length_insert.
           unfold len in *. lia.
      * apply Hfield; [lia|done].
    + intros k Hk. rewrite Hframe by (intros; apply Hk; lia).
      unfold rom1. destruct (Hk s ltac:(lia)) as [Hk4 Hk5].
      replace (first + Z.of_nat s * 6 + 4 + 1)
        with (first + Z.of_nat s * 6 + 5) by lia.
      by rewrite !list_lookup_insert_ne by done.
Qed.

(** [updateBlockCountHeader] at a position inside the buffer: it returns the
    block count and stores its low eight bits. It has no failing branch for
    a count above 255. *)
Lemma updateBlockCountHeader_spec pos effectiveSize rom :
  0 ≤ pos < len rom →
  updateBlockCountHeader pos effectiveSize rom
  = (<[Z.to_nat pos := computeBlockCount effectiveSize `mod` 256]> rom,
     Ok (computeBlockCount effectiveSize)).
Proof.
  intros Hpos. unfold updateBlockCountHeader, bind.
  rewrite land_byte, store_inside; [done|done|].
  apply Z.mod_pos_bound. lia.
Qed.

End patchers.

(** ** A whole run of rom_names.py *)

Section names_run.
Import RomNames Spec.

Lemma build_loop_length remap names i buf offsets buf' offsets' :
  build_loop remap names i buf offsets = Ok (buf', offsets') →
  length offsets' = length offsets.
Proof.
  revert i buf offsets. induction names as [|nm names IH]; intros i buf offsets.
  - by intros [= _ <-].
  - cbn [build_loop]. unfold list_setitem.
    destruct (decide (0 < i)%nat); [destruct (decide (i < length offsets)%nat)|];
      cbn [rbind]; try done;
      (destruct (encodeName nm remap true); [|done]); cbn [rbind];
      intros ->%IH; by rewrite ?length_insert.
Qed.

Lemma buildNameBlobAndOffsets_length names remap blob offsets :
  buildNameBlobAndOffsets names remap = Ok (blob, offsets) →
  length offsets = Z.to_nat EXPECTED_CARD_COUNT.
Proof.
  unfold buildNameBlobAndOffsets.
  destruct (build_loop _ _ _ _ _) as [[buf offs]|] eqn:Hloop; [|done].
  apply build_loop_length in Hloop. rewrite length_replicate in Hloop.
  cbn [rbind]. by intros [= _ <-].
Qed.

(** [injectBlob] at a position that is not negative: the buffer ends up as
    long as the longer of itself and the end of the blob. *)
Lemma injectBlob_spec fileAt blob rom :
  0 ≤ fileAt →
  ∃ rom', injectBlob fileAt blob rom = (rom', Ok tt) ∧
          len rom' = Z.max (len rom) (fileAt + len blob).
Proof.
  intros Hat. pose proof (len_nonneg blob) as Hb.
  unfold injectBlob, ensureRomSize, bind, get, put, extend, ret.
  destruct (len rom <? fileAt + len blob) eqn:E.
  - apply Z.ltb_lt in E. eexists. split; [done|].
    set (rom1 := rom ++ _).
    assert (len rom1 = fileAt + len blob) as Hl1.
    { unfold rom1. rewrite len_app, len_bytes_mul. lia. }
    unfold len at 1. rewrite setslice_length by lia. fold (len rom1). lia.
  - apply Z.ltb_ge in E. eexists. split; [done|].
    unfold len at 1. rewrite setslice_length by lia. fold (len rom). lia.
Qed.

(** [setCardNamePointer] on four bytes inside the buffer. *)
Lemma setCardNamePointer_spec at_ cardNameRomOffset rom :
  0 ≤ at_ → at_ + 4 ≤ len rom →
  ∃ rom', setCardNamePointer at_ cardNameRomOffset rom = (rom', Ok tt) ∧
          length rom' = length rom ∧
          ∀ k, (k < Z.to_nat at_ ∨ Z.to_nat at_ + 4 ≤ k)%nat →
               rom' !! k = rom !! k.
Proof.
  intros Hat Hlen. unfold setCardNamePointer, bind.
  rewrite !land_byte.
  repeat (rewrite store_inside;
          [|rewrite ?len_insert; lia|apply Z.mod_pos_bound; lia]).
  eexists. split; [done|]. split; [by rewrite !length_insert|].
  intros k Hk. by rewrite !list_lookup_insert_ne by lia.
Qed.


Lemma bind_ok {S A B} (m : M S A) (k : A → M S B) s s' a :
  m s = (s', Ok a) → bind m k s = k a s'.
Proof. intros Hm. unfold bind. by rewrite Hm. Qed.

Ltac step tac := erewrite bind_ok by tac; cbv beta iota zeta.

Lemma rom_names_main_run args cardsJson w rom base idx nm lk remap names
    blob offsets :
  dry_run args = false →
  (if raw args then Ok 0x00
   else if mcs args then Ok 0x80
   else match offset args with Some parsed => parsed | None => Ok 0x00 end)
  = Ok base →
  card_index_offset cardsJson = Some (Ok idx) →
  card_name_offset cardsJson = Some (Ok nm) →
  card_lookup_address cardsJson = Some (Ok lk) →
  buildRemapTable cardsJson = Ok remap →
  loadLanguageNames cardsJson (language args) = Ok names →
  buildNameBlobAndOffsets names remap = Ok (blob, offsets) →
  file w = Some rom →
  0 ≤ base → 0 ≤ idx → 0 ≤ nm → 0 ≤ lk →
  let size := Z.max (len rom) (base + nm + len blob) in
  base + idx + 4 + 722 * 6 ≤ size → base + lk + 4 ≤ size → base + 3 < size →
  ∃ rom' out,
    main args (Ok cardsJson) w = (World (Some rom') (backup w) out, Ok tt) ∧
    len rom' = size ∧
    rom' !! Z.to_nat (base + 3)
    = Some (computeBlockCount (size - base) `mod` 256) ∧
    ∀ i off, (i < 722)%nat → offsets !! i = Some off →
      let pos := base + idx + 4 + Z.of_nat i * 6 + 4 in
      (pos + 2 ≤ base + lk ∨ base + lk + 4 ≤ pos) →
      (pos + 2 ≤ base + 3 ∨ base + 3 < pos) →
      rom' !! Z.to_nat pos = Some ((off `mod` 65536) `mod` 256) ∧
      rom' !! Z.to_nat (pos + 1)
      = Some (((off `mod` 65536) `div` 256) `mod` 256).
Proof.
  intros Hdry Hbase Hidx Hnm Hlk Hremap Hnames Hbuild Hfile
    Hb0 Hi0 Hn0 Hl0 size Htable Hptr Hhdr.
  destruct w as [f b out0]. cbn [file] in Hfile. subst f. cbn [backup].
  unfold main, main_with, write_back.
  step ltac:(unfold lift; rewrite Hbase; reflexivity).
  step ltac:(reflexivity).
  step ltac:(unfold lift, required; rewrite Hidx; reflexivity).
  step ltac:(unfold lift, required; rewrite Hnm; reflexivity).
  step ltac:(unfold lift, required; rewrite Hlk; reflexivity).
  step ltac:(unfold lift; rewrite Hremap; reflexivity).
  step ltac:(unfold lift; rewrite Hnames; reflexivity).
  step ltac:(unfold lift; rewrite Hbuild; reflexivity).
  (* the verbose block prints and reads, and returns *)
  match goal with
  | |- context [bind (if verbose args then ?m1 else ?m2) _ ?w0] =>
      assert (∃ out1, (if verbose args then m1 else m2) w0
                      = (World (Some rom) b out1, Ok tt)) as [out1 Hverbose]
  end.
  { destruct (verbose args); [|by eexists].
    unfold bind, print, readRom, read_bytes, ret. cbn [file backup stdout].
    destruct (_ <=? _); by eexists. }
  step ltac:(exact Hverbose).
  step ltac:(reflexivity).
  do 5 step ltac:(reflexivity).
  rewrite Hdry.
  (* the changes to the buffer *)
  unfold CARD_INDEX_HEADER_SIZE, TITLE_BLOCK_COUNT_OFFSET.
  destruct (injectBlob_spec (base + nm) blob rom ltac:(lia))
    as (rom1 & Hinject & Hlen1).
  rewrite <- Z.add_assoc in Hlen1. fold size in Hlen1.
  destruct (patch_loop_spec (base + idx + 4) offsets 722 0 rom1)
    as (rom2 & Hpatch & Hlen2 & Hfield & Hframe).
  { lia. }
  { unfold CARD_ENTRY_SIZE. lia. }
  { rewrite (buildNameBlobAndOffsets_length _ _ _ _ Hbuild). done. }
  assert (len rom2 = size) as Hlen2' by (unfold len in *; lia).
  destruct (setCardNamePointer_spec (base + lk) nm rom2 ltac:(lia) ltac:(lia))
    as (rom3 & Hpointer & Hlen3 & Hframe3).
  assert (len rom3 = size) as Hlen3' by (unfold len in *; lia).
  match goal with
  | |- context [on_buffer ?m rom] =>
      assert (m rom = (<[Z.to_nat (base + 3) :=
                          computeBlockCount (size - base) `mod` 256]> rom3,
                       Ok (size - base, computeBlockCount (size - base))))
        as Hblock
  end.
  { step ltac:(exact Hinject).
    step ltac:(exact Hpatch).
    step ltac:(exact Hpointer).
    step ltac:(reflexivity).
    fold size. rewrite Hlen3', Z.ltb_irrefl.
    step ltac:(reflexivity).
    step ltac:(reflexivity).
    rewrite Hlen3', (Z.max_l (size - base) 0) by lia.
    step ltac:(apply updateBlockCountHeader_spec; lia).
    reflexivity. }
  step ltac:(unfold on_buffer; rewrite Hblock; reflexivity).
  eexists _, _. split; [reflexivity|].
  split; [by rewrite len_insert|]. split.
  - apply list_lookup_insert_eq. unfold len in *. lia.
  - intros i off Hi Hoff Hp Hh.
    rewrite !list_lookup_insert_ne by lia.
    rewrite !Hframe3 by lia.
    destruct (Hfield i off ltac:(lia) Hoff) as [Hlo Hhi].
    replace (base + idx + 4 + Z.of_nat i * 6 + 4 + 1)
      with (base + idx + 4 + Z.of_nat i * 6 + 5) by lia.
    done.
Qed.
End names_run.

(** ** Runs that overflow the fields *)

Section overflow.
Import RomNames Spec.

Lemma len_replicate {A} n (x : A) : len (replicate n x) = Z.of_nat n.
Proof. unfold len. by rewrite length_replicate. Qed.

(** C3 fails on the code of [rom_names.py]: on a 2 MiB image, whose block
    count is 256, the run does not fail; it writes the image back with the
    header byte 0, the low eight bits of 256. *)
Theorem block_count_256_is_written_as_0 :
  let rom := replicate (Z.to_nat (256 * BLOCK_SIZE)) 0xFF in
  ∃ rom' out,
    main raw_args (Ok small_cards) (World (Some rom) None [])
    = (World (Some rom') None out, Ok tt) ∧
    len rom' = 256 * BLOCK_SIZE ∧
    computeBlockCount (len rom' - 0) = 256 ∧
    rom' !! 3%nat = Some 0.
Proof.
  intros rom.
  assert (len rom = 2097152) as Hrom.
  { unfold rom, BLOCK_SIZE. rewrite len_replicate. lia. }
  clearbody rom.
  assert (∃ remap names blob offsets,
            buildRemapTable small_cards = Ok remap ∧
            loadLanguageNames small_cards (language raw_args) = Ok names ∧
            buildNameBlobAndOffsets names remap = Ok (blob, offsets) ∧
            len blob = 8192)
    as (remap & names & blob & offsets & Hremap & Hnames & Hbuild & Hblob).
  { eexists _, _, _, _. split; [vm_compute; reflexivity|].
    split; [vm_compute; reflexivity|].
    split; [vm_compute; reflexivity|]. vm_compute; reflexivity. }
  destruct (rom_names_main_run raw_args small_cards
              (World (Some rom) None []) rom 0 0x10 0x1200 0x08
              remap names blob offsets)
    as (rom' & out & Hrun & Hlen & Hheader & _);
    [reflexivity|reflexivity|reflexivity|reflexivity|reflexivity
    |exact Hremap|exact Hnames|exact Hbuild|reflexivity
    |lia|lia|lia|lia
    |rewrite Hrom, Hblob; lia|rewrite Hrom, Hblob; lia
    |rewrite Hrom, Hblob; lia|].
  exists rom', out. split; [exact Hrun|].
  rewrite Hrom, Hblob in Hlen, Hheader.
  split; [exact Hlen|]. split; [by rewrite Hlen|exact Hheader].
Qed.

Lemma Forall2_replicate_same {A B} (P : A → B → Prop) n x y :
  P x y → Forall2 P (replicate n x) (replicate n y).
Proof. intros Hxy. induction n; simpl; by constructor. Qed.

Lemma len_terminated_replicate n (enc : bytes) :
  len (terminated (replicate n enc)) = Z.of_nat n * (len enc + 1).
Proof.
  induction n as [|n IH]; [done|].
  cbn [replicate]. rewrite terminated_cons, !len_app, IH.
  change (len [0]) with 1. lia.
Qed.

(** C2 fails on the code of [rom_names.py]: with 722 names of 100 mapped
    characters the last offset is 72823, above 0xFFFF; the run does not
    fail, and it writes the image back with the bytes 77 1C in the offset
    field of the last record, which read 7287 = 72823 - 65536. *)
Theorem offset_72823_is_written_as_7287 :
  let names := replicate 722 (replicate 100 65%N) in
  let rom := replicate (Z.to_nat 0x1200) 0x00 in
  ∃ blob offsets rom' out,
    loadLanguageNames long_cards (language raw_args) = Ok names ∧
    buildNameBlobAndOffsets names {[ [65%N] := 0x41 ]} = Ok (blob, offsets) ∧
    offsets !! 721%nat = Some 72823 ∧
    main raw_args (Ok long_cards) (World (Some rom) None [])
    = (World (Some rom') None out, Ok tt) ∧
    rom' !! 4350%nat = Some 0x77 ∧ rom' !! 4351%nat = Some 0x1C.
Proof.
  intros names rom.
  assert (len rom = 4608) as Hrom.
  { unfold rom. rewrite len_replicate. lia. }
  clearbody rom.
  assert (buildRemapTable long_cards = Ok {[ [65%N] := 0x41 ]}) as Hremap
    by (vm_compute; reflexivity).
  assert (loadLanguageNames long_cards (language raw_args) = Ok names)
    as Hnames by (vm_compute; reflexivity).
  assert (encodeName (replicate 100 65%N) {[ [65%N] := 0x41 ]} true
          = Ok (replicate 100 0x41)) as Henc by (vm_compute; reflexivity).
  destruct (buildNameBlobAndOffsets_spec names {[ [65%N] := 0x41 ]}
              (replicate 722 (replicate 100 0x41)))
    as (blob & offsets & Hbuild & _ & _ & Hoffsets).
  { unfold names. rewrite length_replicate. vm_compute. lia. }
  { by apply Forall2_replicate_same. }
  assert (offsets !! 721%nat = Some 72823) as Hlast.
  { rewrite Hoffsets, decide_True
      by (unfold names; rewrite length_replicate; lia).
    rewrite take_replicate, len_app, len_terminated_replicate, len_replicate.
    reflexivity. }
  pose proof (len_nonneg blob) as Hblob.
  destruct (rom_names_main_run raw_args long_cards
              (World (Some rom) None []) rom 0 0x10 0x1200 0x08
              {[ [65%N] := 0x41 ]} names blob offsets)
    as (rom' & out & Hrun & _ & _ & Hfield);
    [reflexivity|reflexivity|reflexivity|reflexivity|reflexivity
    |exact Hremap|exact Hnames|exact Hbuild|reflexivity
    |lia|lia|lia|lia|lia|lia|lia|].
  destruct (Hfield 721%nat 72823 ltac:(lia) Hlast ltac:(lia) ltac:(lia))
    as [Hlo Hhi].
  exists blob, offsets, rom', out.
  split; [exact Hnames|]. split; [exact Hbuild|]. split; [exact Hlast|].
  split; [exact Hrun|]. split; [exact Hlo|exact Hhi].
Qed.

End overflow.

(** ** Runs of the generic patcher *)

Section patcher_runs.
Import RomPatches Spec.

(** C5 fails on the code of [rom_patches.py]: a patch of three bytes at
    address -1 passes the range check on a ten-byte image, since its end, 2,
    is not past the image; the slice store then inserts the bytes before the
    last byte, the buffer grows to thirteen bytes, and [main] writes the
    longer image back. *)
Theorem negative_address_grows_image :
  let rom := [0; 0; 0; 0; 0; 0; 0; 0; 0; 0] in
  let patches := Patches [Some (Entry [80%N] true (Ok (-1)) (Ok [1; 2; 3]))] in
  let grown := [0; 0; 0; 0; 0; 0; 0; 0; 0; 1; 2; 3; 0] in
  apply_patches 0 patches false None false (Patcher rom [])
  = (Patcher grown [PatchedWrote [80%N] 3 (-1)], Ok 3) ∧
  main ascii_lower (Args [101%N] false None None false false)
    (Ok [([101%N], patches)]) (World (Some rom) None [])
  = (World (Some grown) None [PatchedWrote [80%N] 3 (-1); DonePatched 3], Ok 0) ∧
  len rom = 10 ∧ len grown = 13.
Proof. by vm_compute. Qed.

(** C6 fails on the code of [rom_patches.py]: [main] calls [apply_patches]
    without the dry-run flag, so a run with [--dry-run] rewrites the buffer
    and prints the line of a write that was made, not of one that would be;
    only the file is left alone. *)
Theorem dry_run_of_main_rewrites_buffer :
  let rom := [0; 0; 0; 0] in
  let patches := Patches [Some (Entry [80%N] true (Ok 1) (Ok [7; 8]))] in
  let args := Args [101%N] false None None false true in
  let w := World (Some rom) None [] in
  dry_run args = true ∧
  main ascii_lower args (Ok [([101%N], patches)]) w
  = (World (Some rom) None [PatchedWrote [80%N] 2 1; DryRunComplete 2], Ok 0) ∧
  call_apply_patches
    (apply_patches 0 patches (include_inactive args) (only args) false) rom w
  = (World (Some rom) None [PatchedWrote [80%N] 2 1], Ok ([0; 7; 8; 0], 2)) ∧
  apply_patches 0 patches (include_inactive args) (only args) true
    (Patcher rom [])
  = (Patcher rom [DryWouldWrite [80%N] 2 1 1], Ok 2).
Proof. by vm_compute. Qed.

End patcher_runs.

(** ** The standalone patcher, YGOFM-NamePatch.py

    What [rom_names.py] leaves out, this program has: it refuses a table
    whose offsets do not fit 16 bits and an image of more than 255 blocks,
    in both cases before it stores or writes anything. *)

Section standalone.
Import Spec.

Lemma bind_inv {S A B} (m : M S A) (k : A → M S B) s s' b :
  bind m k s = (s', Ok b) →
  ∃ a s1, m s = (s1, Ok a) ∧ k a s1 = (s', Ok b).
Proof.
  unfold bind. destruct (m s) as [s1 [a|e]]; [|done]. intros Hk. by exists a, s1.
Qed.

Lemma guard_inv {S} (c : bool) e (s s' : S) :
  (if c then throw e else ret tt) s = (s', Ok tt) → c = false ∧ s' = s.
Proof. destruct c; [done|]. by intros [= <-]. Qed.

Lemma len_cons {A} (x : A) l : len (x :: l) = 1 + len l.
Proof. unfold len. simpl. lia. Qed.

Lemma len_terminated_take_lt (encs : list bytes) k :
  (k < length encs)%nat →
  len (terminated (take k encs)) < len (terminated encs).
Proof.
  revert k. induction encs as [|enc encs IH]; intros k Hk; simpl in Hk; [lia|].
  destruct k as [|k].
  - cbn [take]. rewrite terminated_cons, !len_app.
    change (len (terminated [])) with 0. change (len [0]) with 1.
    pose proof (len_nonneg enc). pose proof (len_nonneg (terminated encs)). lia.
  - cbn [take]. rewrite !terminated_cons, !len_app.
    specialize (IH k ltac:(lia)). lia.
Qed.

(** Every offset the loop records lies before the end of the blob. *)
Lemma blob_loop_offsets_below names blob name_offsets i off :
  NamePatch.blob_loop names 0 NamePatch.START_OF_TEXT []
    (len NamePatch.START_OF_TEXT) = (blob, name_offsets) →
  name_offsets !! i = Some off → off ≤ len blob - 1.
Proof.
  destruct (blob_loop_spec names 0 NamePatch.START_OF_TEXT [])
    as (news & -> & Hl & Hk).
  intros Heq Hoff.
  assert (blob = NamePatch.START_OF_TEXT
                 ++ terminated (NamePatch.encode <$> names)) as ->
    by congruence.
  assert (name_offsets = news) as -> by (simpl in Heq; congruence).
  clear Heq.
  assert (i < length names)%nat as Hi
    by (rewrite <- Hl; by eapply lookup_lt_Some).
  rewrite Hk in Hoff by done. injection Hoff as <-.
  rewrite !len_app. pose proof (len_nonneg (NamePatch.START_OF_TEXT)).
  pose proof (len_terminated_take_lt (NamePatch.encode <$> names) i
                ltac:(by rewrite length_fmap)).
  pose proof (len_nonneg (terminated (NamePatch.encode <$> names))).
  change (len NamePatch.START_OF_TEXT) with 2 in *.
  case_decide; [lia|]. rewrite !len_cons. lia.
Qed.

(** With an offset above 0xFFFF among those recorded, the standalone run
    exits on its size check, with the file and the output as they were. *)
Lemma standalone_refuses_wide_offsets lines w data blob name_offsets i off :
  file w = Some data →
  len (filter (λ n, n ≠ []) lines) = NamePatch.NUM_CARDS →
  NamePatch.blob_loop (filter (λ n, n ≠ []) lines) 0 NamePatch.START_OF_TEXT []
    (len NamePatch.START_OF_TEXT) = (blob, name_offsets) →
  name_offsets !! i = Some off → 0xFFFF < off →
  NamePatch.main 3 (Some lines) w
  = (w, Raise (SystemExit (BlobTooLarge (len blob)))).
Proof.
  intros Hfile Hcount Hloop Hoff Hwide.
  pose proof (blob_loop_offsets_below _ _ _ _ _ Hloop Hoff) as Hbelow.
  unfold NamePatch.main, bind, get, lift, throw, ret, read_bytes.
  rewrite (decide_False (P := 3 ≠ 3)) by (intros Hne; by apply Hne).
  cbv beta iota.
  rewrite Hfile. cbn beta iota.
  rewrite decide_False by (intros Hne; by apply Hne).
  rewrite Hfile, Hloop.
  by rewrite (proj2 (Z.ltb_lt 0xFFFF (len blob - 1))) by lia.
Qed.

(** A standalone run that returns has written an image of whole blocks, at
    most 255 of them, with their exact number in the header byte. *)
Lemma standalone_header_exact argc card_list w w' :
  NamePatch.main argc card_list w = (w', Ok tt) →
  ∃ data',
    file w' = Some data' ∧
    len data' = (len data' `div` NamePatch.BLOCK_SIZE) * NamePatch.BLOCK_SIZE ∧
    0 ≤ len data' `div` NamePatch.BLOCK_SIZE ≤ 255 ∧
    data' !! 3%nat = Some (len data' `div` NamePatch.BLOCK_SIZE).
Proof.
  unfold NamePatch.main. intros Hrun.
  apply bind_inv in Hrun as ([] & s0 & _ & Hrun).
  apply bind_inv in Hrun as (w0 & s & [= <- <-] & Hrun).
  apply bind_inv in Hrun as ([] & s & _ & Hrun).
  apply bind_inv in Hrun as (names & s1 & _ & Hrun).
  apply bind_inv in Hrun as ([] & s2 & _ & Hrun).
  apply bind_inv in Hrun as (data & s3 & _ & Hrun).
  destruct (NamePatch.blob_loop _ _ _ _ _) as [blob name_offsets].
  apply bind_inv in Hrun as ([] & s4 & _ & Hrun).
  apply bind_inv in Hrun as (data1 & s5 & _ & Hrun).
  apply bind_inv in Hrun as ([] & s6 & Hguard & Hrun).
  apply guard_inv in Hguard as [Hblocks ->].
  apply bind_inv in Hrun as (data2 & s7 & Hstore & Hrun).
  unfold lift in Hstore. injection Hstore as <- Hstore.
  apply bind_inv in Hrun as (w1 & s8 & [= <- <-] & Hrun).
  apply bind_inv in Hrun as ([] & s9 & Hbackup & Hrun).
  unfold bind, write_bytes, print in Hrun. injection Hrun as <-.
  exists data2. split; [done|].
  apply Z.ltb_ge in Hblocks. unfold NamePatch.BLOCK_SIZE in *.
  set (n := len data1) in *.
  set (blocks := NamePatch.ceil_div n 8192) in *.
  assert (0 ≤ n) as Hn by apply len_nonneg.
  assert ((blocks * 8192) `div` 8192 = blocks) as Hdiv
    by (apply Z.div_mul; lia).
  assert (n ≤ blocks * 8192) as Hceil.
  { unfold blocks, NamePatch.ceil_div.
    pose proof (Z.div_mod (- n) 8192 ltac:(lia)).
    pose proof (Z.mod_pos_bound (- n) 8192 ltac:(lia)). lia. }
  assert (0 ≤ blocks) as Hpos by lia.
  set (padded := if n <? blocks * 8192
                 then data1 ++ bytes_mul 0 (blocks * 8192 - n) else data1)
    in *.
  assert (len padded = blocks * 8192) as Hpadded.
  { unfold padded. destruct (n <? blocks * 8192) eqn:E.
    - apply Z.ltb_lt in E. rewrite len_app, len_bytes_mul. fold n. lia.
    - apply Z.ltb_ge in E. fold n. lia. }
  rewrite Hdiv in Hblocks.
  unfold setitem, norm_index in Hstore.
  rewrite land_byte, Z.mod_small in Hstore by lia.
  rewrite byte_ok_true in Hstore by lia.
  unfold NamePatch.HEADER_BLOCK_BYTE in Hstore. cbn [Z.ltb Z.compare] in Hstore.
  destruct ((0 <=? 3) && (3 <? len padded)) eqn:Hin; [|done].
  injection Hstore as <-.
  rewrite len_insert, Hpadded, Hdiv.
  split; [done|]. split; [lia|].
  apply list_lookup_insert_eq. apply andb_prop in Hin as [_ Hin].
  apply Z.ltb_lt in Hin. unfold len in Hin. lia.
Qed.

End standalone.

(** * Further properties of the three programs *)

(** ** rom_names.py: names, tables and block counts *)

Section names_more.
Import RomNames Spec.

Lemma replacement_idempotent ch : replacement (replacement ch) = replacement ch.
Proof. unfold replacement. repeat case_decide; subst; done. Qed.

Lemma replacement_ascii ch : (ch < 0x80)%N → replacement ch = ch.
Proof. intros Hch. unfold replacement. repeat case_decide; subst; done || lia. Qed.

(** X1: [normalizeName] keeps the length of a name, leaves every ASCII
    character where it is, and normalizing twice is normalizing once. *)
Theorem normalizeName_idempotent name :
  normalizeName (normalizeName name) = normalizeName name ∧
  length (normalizeName name) = length name ∧
  ∀ i ch, name !! i = Some ch → (ch < 0x80)%N →
          normalizeName name !! i = Some ch.
Proof.
  unfold normalizeName. split; [|split].
  - rewrite <- list_fmap_compose. apply list_fmap_ext.
    intros i ch _. apply replacement_idempotent.
  - apply length_fmap.
  - intros i ch Hi Hch. rewrite list_lookup_fmap, Hi. simpl.
    by rewrite replacement_ascii.
Qed.

(** The strict loop, when it returns with an empty tally: it started with
    one and wrote the table's code for each character. *)
Lemma encodeName_loop_strict_inv remap name out missing out' :
  encodeName_loop remap true name out missing = Ok (out', ∅) →
  missing = ∅ ∧
  ∃ codes, out' = out ++ codes ∧
           Forall2 (λ ch v, remap !! [ch] = Some v) name codes.
Proof.
  revert out missing. induction name as [|ch rest IH]; intros out missing.
  - intros [= <- <-]. split; [done|]. exists []. by rewrite app_nil_r.
  - cbn [encodeName_loop]. destruct (remap !! [ch]) as [v|] eqn:Hch.
    + unfold append. destruct (byte_ok v); [|done]. cbn [rbind].
      intros (-> & codes & -> & Hcodes)%IH. split; [done|].
      exists (v :: codes). rewrite <- app_assoc. split; [done|].
      by constructor.
    + intros [Hne _]%IH. unfold count_missing in Hne.
      by apply insert_non_empty in Hne.
Qed.

Lemma encodeName_strict_inv name remap out :
  encodeName name remap true = Ok out →
  Forall2 (λ ch v, remap !! [ch] = Some v) (normalizeName name) out.
Proof.
  unfold encodeName.
  destruct (encodeName_loop _ _ _ _ _) as [[out' missing]|] eqn:Hloop; [|done].
  cbn [rbind andb]. destruct (bool_decide (missing = ∅)) eqn:Hm; [|done].
  apply bool_decide_eq_true in Hm as ->. cbn [negb]. intros [= <-].
  by apply encodeName_loop_strict_inv in Hloop as (_ & codes & -> & Hcodes).
Qed.

Lemma encodeName_loop_strict_mapped remap name codes out missing :
  remap_valid remap →
  Forall2 (λ ch v, remap !! [ch] = Some v) name codes →
  encodeName_loop remap true name out missing = Ok (out ++ codes, missing).
Proof.
  intros Hv Hcodes. revert out.
  induction Hcodes as [|ch v name codes Hch _ IH]; intros out.
  - by rewrite app_nil_r.
  - cbn [encodeName_loop]. rewrite Hch, append_ok by (by eapply Hv).
    cbn [rbind]. by rewrite IH, <- app_assoc.
Qed.

(** X2: over a table of byte codes, strict [encodeName] returns exactly when
    every character of the normalized name is in the table, and what it
    returns is the table's code of each character, in order, with nothing
    added. *)
Theorem encodeName_strict_ok_iff name remap out :
  remap_valid remap →
  encodeName name remap true = Ok out ↔
  Forall2 (λ ch v, remap !! [ch] = Some v) (normalizeName name) out.
Proof.
  intros Hv. split; [apply encodeName_strict_inv|].
  intros Hcodes. unfold encodeName.
  rewrite (encodeName_loop_strict_mapped _ _ _ _ _ Hv Hcodes).
  cbn [rbind]. by rewrite bool_decide_eq_true_2.
Qed.

Lemma encodeName_strict_ok_iff_witness :
  encodeName [0x2019%N; 65%N] (<[ [0x27%N] := 0x60 ]> {[ [65%N] := 0x41 ]}) true
  = Ok [0x60; 0x41].
Proof.
  apply encodeName_strict_ok_iff.
  - intros k v Hk. apply lookup_insert_Some in Hk as [[_ <-]|[_ Hk]]; [lia|].
    apply lookup_singleton_Some in Hk as [_ <-]. lia.
  - repeat constructor.
Defined.

(** X3: when no two characters share a code, the encoded bytes determine the
    normalized name: two names that strict [encodeName] maps to the same
    bytes are the same after normalization. *)
Theorem encodeName_strict_injective remap name1 name2 out :
  (∀ ch1 ch2 v, remap !! [ch1] = Some v → remap !! [ch2] = Some v → ch1 = ch2) →
  encodeName name1 remap true = Ok out →
  encodeName name2 remap true = Ok out →
  normalizeName name1 = normalizeName name2.
Proof.
  intros Hinj H1%encodeName_strict_inv H2%encodeName_strict_inv.
  revert H2. generalize (normalizeName name2).
  induction H1 as [|ch v l out Hch _ IH]; intros l2 H2.
  - by apply Forall2_nil_inv_r in H2.
  - apply Forall2_cons_inv_r in H2 as (ch2 & l2' & Hch2 & H2 & ->).
    f_equal; [by eapply Hinj|by apply IH].
Qed.

Lemma encodeName_strict_injective_witness :
  normalizeName [0x2019%N; 0x27%N] = normalizeName [0x27%N; 0x2018%N].
Proof.
  apply (encodeName_strict_injective {[ [0x27%N] := 0x60 ]} _ _ [0x60; 0x60]).
  - intros ch1 ch2 v [[= <-] _]%lookup_singleton_Some
      [[= <-] _]%lookup_singleton_Some. reflexivity.
  - reflexivity.
  - reflexivity.
Defined.

Lemma computeBlockCount_ceiling_lemma effectiveSize :
  BLOCK_SIZE * (computeBlockCount effectiveSize - 1) < effectiveSize
  ∧ effectiveSize ≤ BLOCK_SIZE * computeBlockCount effectiveSize.
Proof.
  unfold computeBlockCount, BLOCK_SIZE.
  pose proof (Z.div_mod (effectiveSize + 8192 - 1) 8192 ltac:(lia)).
  pose proof (Z.mod_pos_bound (effectiveSize + 8192 - 1) 8192 ltac:(lia)).
  lia.
Qed.

(** X4: [computeBlockCount] is the ceiling of the size over the block size:
    that many blocks hold the size and one fewer do not; in particular an
    empty image has no block and a size that is a multiple of the block
    size is not rounded up. *)
Theorem computeBlockCount_ceiling effectiveSize :
  BLOCK_SIZE * (computeBlockCount effectiveSize - 1) < effectiveSize
  ∧ effectiveSize ≤ BLOCK_SIZE * computeBlockCount effectiveSize
  ∧ computeBlockCount 0 = 0
  ∧ ∀ n, computeBlockCount (n * BLOCK_SIZE) = n.
Proof.
  destruct (computeBlockCount_ceiling_lemma effectiveSize) as [Hlo Hhi].
  split; [done|]. split; [done|]. split; [done|].
  intros n. pose proof (computeBlockCount_ceiling_lemma (n * BLOCK_SIZE)).
  unfold BLOCK_SIZE in *. lia.
Qed.

Lemma terminated_app encs1 encs2 :
  terminated (encs1 ++ encs2) = terminated encs1 ++ terminated encs2.
Proof. unfold terminated. by rewrite fmap_app, concat_app. Qed.

(** X5: the offsets index the table. For up to 722 names that encode, the
    bytes of the table at the offset recorded for string i > 0 are the
    encoded string i and its terminator; string 0, whose recorded offset is
    0, sits right after the two-byte marker. *)
Theorem name_offsets_index_the_blob names remap encs i enc :
  (length names ≤ Z.to_nat EXPECTED_CARD_COUNT)%nat →
  Forall2 (λ nm enc, encodeName nm remap true = Ok enc) names encs →
  encs !! i = Some enc →
  ∃ blob offsets off,
    buildNameBlobAndOffsets names remap = Ok (blob, offsets) ∧
    (if decide (i = 0%nat) then off = 2 else offsets !! i = Some off) ∧
    0 ≤ off ∧
    take (length enc + 1) (drop (Z.to_nat off) blob) = enc ++ [0x00].
Proof.
  intros Hlen Hencs Hi.
  destruct (buildNameBlobAndOffsets_spec names remap encs Hlen Hencs)
    as (blob & offsets & Hbuild & -> & _ & Hoffsets).
  assert (i < length names)%nat as Hlt.
  { erewrite Forall2_length by done. by eapply lookup_lt_Some. }
  eexists _, offsets, (len (NAME_MARKER ++ terminated (take i encs))).
  split; [exact Hbuild|]. split; [|split; [apply len_nonneg|]].
  - case_decide as H0; [by subst i|].
    by rewrite Hoffsets, decide_True by lia.
  - rewrite <- (take_drop_middle encs i enc Hi) at 2.
    rewrite terminated_app, terminated_cons, !app_assoc, <- !app_assoc.
    rewrite (app_assoc NAME_MARKER).
    unfold len. rewrite Nat2Z.id, drop_app_length.
    rewrite (app_assoc enc).
    replace (length enc + 1)%nat with (length (enc ++ [0])).
    + apply take_app_length.
    + by rewrite length_app.
Qed.

Lemma name_offsets_index_the_blob_witness :
  ∃ blob offsets,
    buildNameBlobAndOffsets [[65%N]; [66%N; 66%N]; [67%N; 67%N; 67%N]]
      (<[ [65%N] := 0x41 ]> (<[ [66%N] := 0x42 ]> {[ [67%N] := 0x43 ]}))
    = Ok (blob, offsets) ∧
    offsets !! 2%nat = Some 7 ∧
    take 4 (drop 7 blob) = [0x43; 0x43; 0x43; 0x00].
Proof.
  destruct (name_offsets_index_the_blob
              [[65%N]; [66%N; 66%N]; [67%N; 67%N; 67%N]]
              (<[ [65%N] := 0x41 ]> (<[ [66%N] := 0x42 ]> {[ [67%N] := 0x43 ]}))
              [[0x41]; [0x42; 0x42]; [0x43; 0x43; 0x43]] 2
              [0x43; 0x43; 0x43])
    as (blob & offsets & off & Hb & Hoff & _ & Htake).
  - vm_compute. lia.
  - repeat constructor.
  - reflexivity.
  - exists blob, offsets. split; [exact Hb|].
    pose proof Hb as Hb'. vm_compute in Hb'. injection Hb' as <- <-.
    vm_compute in Hoff. injection Hoff as <-. split; reflexivity.
Defined.

Lemma build_loop_app remap pre rest i buf offsets :
  build_loop remap (pre ++ rest) i buf offsets
  = rbind (build_loop remap pre i buf offsets)
      (λ '(buf', offsets'),
         build_loop remap rest (i + length pre) buf' offsets').
Proof.
  revert i buf offsets. induction pre as [|nm pre IH]; intros i buf offsets.
  - simpl. by rewrite Nat.add_0_r.
  - cbn [app build_loop length].
    destruct (if decide (0 < i)%nat then list_setitem offsets i (len buf)
              else Ok offsets) as [offsets1|]; [|done].
    cbn [rbind]. destruct (encodeName nm remap true) as [enc|]; [|done].
    cbn [rbind]. rewrite IH. by replace (S i + length pre)%nat
      with (i + S (length pre))%nat by lia.
Qed.

(** X6: more names than [EXPECTED_CARD_COUNT]. When the first 722 names
    encode, a 723rd makes the builder fail with an [IndexError] on the store
    of its offset, and no table is returned. *)
Theorem buildNameBlobAndOffsets_too_many names remap :
  (Z.to_nat EXPECTED_CARD_COUNT < length names)%nat →
  Forall (λ nm, ∃ enc, encodeName nm remap true = Ok enc)
    (take (Z.to_nat EXPECTED_CARD_COUNT) names) →
  buildNameBlobAndOffsets names remap = Raise IndexError.
Proof.
  intros Hlen Hencs.
  assert (∃ encs, Forall2 (λ nm enc, encodeName nm remap true = Ok enc)
                    (take (Z.to_nat EXPECTED_CARD_COUNT) names) encs)
    as [encs Hencs2].
  { clear Hlen. induction Hencs as [|nm l [enc Hnm] _ [encs IH]];
      [by exists []|]. exists (enc :: encs). by constructor. }
  unfold buildNameBlobAndOffsets.
  rewrite <- (take_drop (Z.to_nat EXPECTED_CARD_COUNT) names), build_loop_app.
  destruct (build_loop_spec remap _ encs 0 NAME_MARKER
              (replicate (Z.to_nat EXPECTED_CARD_COUNT) 0) Hencs2)
    as (offsets & -> & Hl & _).
  { rewrite length_replicate, length_take. lia. }
  cbn [rbind]. rewrite length_take, Nat.min_l by lia.
  destruct (drop (Z.to_nat EXPECTED_CARD_COUNT) names) as [|nm rest] eqn:Hdrop.
  { apply (f_equal length) in Hdrop. rewrite length_drop in Hdrop.
    simpl in Hdrop. lia. }
  cbn [build_loop]. rewrite decide_True by (vm_compute; lia).
  unfold list_setitem. rewrite decide_False; [done|].
  rewrite Hl, length_replicate. lia.
Qed.

Lemma buildNameBlobAndOffsets_too_many_witness :
  buildNameBlobAndOffsets (replicate 723 [65%N]) {[ [65%N] := 0x41 ]}
  = Raise IndexError.
Proof.
  apply buildNameBlobAndOffsets_too_many.
  - rewrite length_replicate. vm_compute. lia.
  - apply Forall_take, list.Forall_forall.
    intros nm [-> _]%elem_of_replicate. by exists [0x41].
Defined.

(** X7: the first name that does not encode decides the failure. When the
    names before it encode and it is one of the first 722, the builder
    raises the error [encodeName] raises on it. *)
Theorem buildNameBlobAndOffsets_first_failure names remap pre bad post encs e :
  names = pre ++ bad :: post →
  (length pre < Z.to_nat EXPECTED_CARD_COUNT)%nat →
  Forall2 (λ nm enc, encodeName nm remap true = Ok enc) pre encs →
  encodeName bad remap true = Raise e →
  buildNameBlobAndOffsets names remap = Raise e.
Proof.
  intros -> Hlen Hencs Hbad. unfold buildNameBlobAndOffsets.
  rewrite build_loop_app.
  destruct (build_loop_spec remap pre encs 0 NAME_MARKER
              (replicate (Z.to_nat EXPECTED_CARD_COUNT) 0) Hencs)
    as (offsets & -> & Hl & _).
  { rewrite length_replicate. lia. }
  cbn [rbind build_loop]. unfold list_setitem.
  rewrite Hl, length_replicate.
  destruct (decide (0 < 0 + length pre)%nat);
    [rewrite decide_True by lia|]; cbn [rbind]; by rewrite Hbad.
Qed.

Lemma buildNameBlobAndOffsets_first_failure_witness :
  buildNameBlobAndOffsets [[65%N]; [66%N; 65%N; 66%N]; [67%N]]
    {[ [65%N] := 0x41 ]}
  = Raise (ValueError (UnmappedCharacters [66%N; 65%N; 66%N] [(66%N, 2)])).
Proof.
  apply (buildNameBlobAndOffsets_first_failure _ _ [[65%N]] [66%N; 65%N; 66%N]
           [[67%N]] [[0x41]]).
  - reflexivity.
  - vm_compute. lia.
  - repeat constructor.
  - reflexivity.
Defined.

(** The loop of [buildRemapTable] over entries none of which has a code
    that fails to convert. *)
Lemma buildRemapTable_loop_spec entries table :
  Forall (λ entry, ∀ e, hex entry ≠ Some (Raise e)) entries →
  ∃ table',
    buildRemapTable_loop entries table = Ok table' ∧
    ∀ k, table' !! k = match last_code entries k with
                       | Some v => Some v
                       | None => table !! k
                       end.
Proof.
  intros Hok. revert table.
  induction Hok as [|entry entries Hentry _ IH]; intros table.
  - by exists table.
  - cbn [buildRemapTable_loop last_code].
    destruct (hex entry) as [[v|e]|] eqn:Hhex.
    + cbn [rbind].
      destruct (IH (<[unicode entry := v]> table)) as (table' & -> & Hk).
      exists table'. split; [done|]. intros k. rewrite Hk.
      destruct (last_code entries k); [done|].
      case_decide as Hkey; [subst; apply lookup_insert_eq|].
      by apply lookup_insert_ne.
    + by destruct (Hentry e).
    + destruct (IH table) as (table' & -> & Hk).
      exists table'. split; [done|]. intros k. rewrite Hk.
      by destruct (last_code entries k).
Qed.

Lemma last_code_None entries k :
  Forall (λ entry, unicode entry = k → hex entry = None) entries →
  last_code entries k = None.
Proof.
  induction 1 as [|entry entries Hentry _ IH]; [done|].
  cbn [last_code]. rewrite IH.
  destruct (hex entry) as [[v|e]|] eqn:Hhex; [|done..].
  case_decide as Hkey; [|done]. specialize (Hentry Hkey). congruence.
Qed.

Lemma last_code_app_middle pre entry post v :
  hex entry = Some (Ok v) →
  Forall (λ entry', unicode entry' = unicode entry → hex entry' = None) post →
  last_code (pre ++ entry :: post) (unicode entry) = Some v.
Proof.
  intros Hhex Hpost. induction pre as [|entry' pre IH].
  - cbn [app last_code]. rewrite (last_code_None _ _ Hpost), Hhex.
    by rewrite decide_True.
  - cbn [app last_code]. by rewrite IH.
Qed.

(** X8: [buildRemapTable], when every code converts. It returns a table in
    which a key has the code of the last entry that gives that key a code
    (an entry without a code overrides nothing), and a key that no entry
    gives a code is absent. *)
Theorem buildRemapTable_last_entry_wins cardsJson :
  Forall (λ entry, ∀ e, hex entry ≠ Some (Raise e)) (remap cardsJson) →
  ∃ table,
    buildRemapTable cardsJson = Ok table ∧
    (∀ pre entry post v,
       remap cardsJson = pre ++ entry :: post →
       hex entry = Some (Ok v) →
       Forall (λ entry', unicode entry' = unicode entry → hex entry' = None)
         post →
       table !! unicode entry = Some v) ∧
    (∀ k, Forall (λ entry, unicode entry = k → hex entry = None)
            (remap cardsJson) →
          table !! k = None).
Proof.
  intros Hok. unfold buildRemapTable.
  destruct (buildRemapTable_loop_spec (remap cardsJson) ∅ Hok)
    as (table & -> & Hk).
  exists table. split; [done|]. split.
  - intros pre entry post v Heq Hhex Hpost.
    by rewrite Hk, Heq, (last_code_app_middle _ _ _ _ Hhex Hpost).
  - intros k Hnone. by rewrite Hk, (last_code_None _ _ Hnone), lookup_empty.
Qed.

Lemma buildRemapTable_last_entry_wins_witness :
  ∃ table,
    buildRemapTable
      (CardsJson None None None
         [RemapEntry [65%N] (Some (Ok 0x41)); RemapEntry [65%N] (Some (Ok 0x61));
          RemapEntry [65%N] None; RemapEntry [66%N] None] ∅)
    = Ok table ∧
    table !! [65%N] = Some 0x61 ∧ table !! [66%N] = None.
Proof.
  destruct (buildRemapTable_last_entry_wins
              (CardsJson None None None
                 [RemapEntry [65%N] (Some (Ok 0x41));
                  RemapEntry [65%N] (Some (Ok 0x61));
                  RemapEntry [65%N] None; RemapEntry [66%N] None] ∅))
    as (table & Hb & Hlast & Hnone).
  - repeat constructor; simpl; intros e; discriminate.
  - exists table. split; [exact Hb|]. split.
    + apply (Hlast [RemapEntry [65%N] (Some (Ok 0x41))]
               (RemapEntry [65%N] (Some (Ok 0x61)))
               [RemapEntry [65%N] None; RemapEntry [66%N] None]).
      * reflexivity.
      * reflexivity.
      * repeat constructor; simpl; intros; done.
    + apply Hnone. repeat constructor; simpl; intros; done.
Defined.

(** X9: a code that does not convert stops [buildRemapTable]: with every
    entry before it without such a code, the error of the conversion is
    what the function raises. *)
Theorem buildRemapTable_bad_code cardsJson pre entry post e :
  remap cardsJson = pre ++ entry :: post →
  Forall (λ entry', ∀ e', hex entry' ≠ Some (Raise e')) pre →
  hex entry = Some (Raise e) →
  buildRemapTable cardsJson = Raise e.
Proof.
  intros Heq Hpre Hhex. unfold buildRemapTable. rewrite Heq. clear Heq.
  generalize (∅ : gmap str Z).
  induction Hpre as [|entry' pre Hentry _ IH]; intros table.
  - cbn [app buildRemapTable_loop]. by rewrite Hhex.
  - cbn [app buildRemapTable_loop].
    destruct (hex entry') as [[v|e']|] eqn:Hhex'; cbn [rbind].
    + apply IH.
    + exfalso. by eapply Hentry.
    + apply IH.
Qed.

Lemma buildRemapTable_bad_code_witness :
  buildRemapTable
    (CardsJson None None None
       [RemapEntry [65%N] (Some (Ok 0x41));
        RemapEntry [66%N] (Some (Raise (ValueError InvalidLiteral)));
        RemapEntry [67%N] (Some (Raise TypeError))] ∅)
  = Raise (ValueError InvalidLiteral).
Proof.
  apply (buildRemapTable_bad_code _ [RemapEntry [65%N] (Some (Ok 0x41))]
           (RemapEntry [66%N] (Some (Raise (ValueError InvalidLiteral))))
           [RemapEntry [67%N] (Some (Raise TypeError))]).
  - reflexivity.
  - repeat constructor; simpl; intros e; discriminate.
  - reflexivity.
Defined.

Lemma byNum_loop_spec items byNum :
  Forall readable items →
  ∃ byNum',
    byNum_loop items byNum = Ok byNum' ∧
    ∀ num, byNum' !! num = match last_name items num with
                           | Some nm => Some nm
                           | None => byNum !! num
                           end.
Proof.
  intros Hok. revert byNum.
  induction Hok as [|item items (n & nm & Hn & Hnm) _ IH]; intros byNum.
  - by exists byNum.
  - cbn [byNum_loop last_name]. rewrite Hn, Hnm. cbn [rbind].
    destruct (IH (<[n := nm]> byNum)) as (byNum' & -> & Hnum).
    exists byNum'. split; [done|]. intros num. rewrite Hnum.
    destruct (last_name items num); [done|].
    case_decide as Hkey; [subst; apply lookup_insert_eq|].
    by apply lookup_insert_ne.
Qed.

Lemma last_name_None items num :
  Forall (λ item, number item ≠ Ok num) items → last_name items num = None.
Proof.
  induction 1 as [|item items Hitem _ IH]; [done|].
  cbn [last_name]. rewrite IH.
  destruct (number item) as [n|]; [|done].
  destruct (name item); [|done]. case_decide; [|done]. by subst.
Qed.

Lemma last_name_app_middle pre item post num nm :
  number item = Ok num → name item = Ok nm →
  Forall (λ item', number item' ≠ Ok num) post →
  last_name (pre ++ item :: post) num = Some nm.
Proof.
  intros Hn Hnm Hpost. induction pre as [|item' pre IH].
  - cbn [app last_name]. rewrite (last_name_None _ _ Hpost), Hn, Hnm.
    by rewrite decide_True.
  - cbn [app last_name]. by rewrite IH.
Qed.

Lemma last_name_is_Some items num :
  Forall readable items →
  (∃ item, item ∈ items ∧ number item = Ok num) →
  is_Some (last_name items num).
Proof.
  intros Hok (item & Hin & Hn). induction Hok as [|item' items Hitem _ IH].
  - by apply elem_of_nil in Hin.
  - cbn [last_name]. destruct (last_name items num) as [nm|] eqn:Hlast;
      [by eexists|].
    apply elem_of_cons in Hin as [<-|Hin]; [|by destruct (IH Hin)].
    destruct Hitem as (n & nm & Hn' & Hnm). rewrite Hn', Hnm.
    assert (n = num) as -> by congruence. rewrite decide_True by done.
    by eexists.
Qed.

Lemma names_loop_found byNum nums names :
  (∀ num, num ∈ nums → is_Some (byNum !! num)) →
  ∃ found,
    names_loop byNum nums names = Ok (names ++ found) ∧
    length found = length nums ∧
    ∀ i num, nums !! i = Some num → found !! i = byNum !! num.
Proof.
  revert names. induction nums as [|num nums IH]; intros names Hall.
  - exists []. by rewrite app_nil_r.
  - cbn [names_loop]. destruct (Hall num) as [nm Hnm]; [by left|].
    rewrite Hnm.
    destruct (IH (names ++ [nm])) as (found & -> & Hl & Hi).
    { intros num' ?. apply Hall. by right. }
    exists (nm :: found). rewrite <- app_assoc. split; [done|].
    split; [simpl; congruence|].
    intros [|i] num'; simpl; [by intros [= <-]|apply Hi].
Qed.

Lemma names_loop_missing byNum pre num post names :
  (∀ num', num' ∈ pre → is_Some (byNum !! num')) →
  byNum !! num = None →
  names_loop byNum (pre ++ num :: post) names
  = Raise (ValueError (MissingName num)).
Proof.
  revert names. induction pre as [|num' pre IH]; intros names Hpre Hnum.
  - cbn [app names_loop]. by rewrite Hnum.
  - cbn [app names_loop]. destruct (Hpre num') as [nm ->]; [by left|].
    apply IH; [|done]. intros ? ?. apply Hpre. by right.
Qed.

(** X10: [loadLanguageNames] on a section whose items can all be read and
    that has an item for every card number from 1 to 722. It returns
    exactly 722 names, and the name at index [num - 1] is the name of the
    last item numbered [num]: a later item with the same number replaces
    an earlier one, and the order of the items does not matter. *)
Theorem loadLanguageNames_by_number cardsJson language items :
  languages cardsJson !! language = Some items →
  Forall readable items →
  (∀ num, 1 ≤ num ≤ EXPECTED_CARD_COUNT →
          ∃ item, item ∈ items ∧ number item = Ok num) →
  ∃ names,
    loadLanguageNames cardsJson language = Ok names ∧
    len names = EXPECTED_CARD_COUNT ∧
    ∀ pre item post num nm,
      items = pre ++ item :: post →
      number item = Ok num → name item = Ok nm →
      1 ≤ num ≤ EXPECTED_CARD_COUNT →
      Forall (λ item', number item' ≠ Ok num) post →
      names !! Z.to_nat (num - 1) = Some nm.
Proof.
  intros Hlang Hok Hall. unfold loadLanguageNames. rewrite Hlang.
  destruct (byNum_loop_spec items ∅ Hok) as (byNum & -> & HbyNum).
  cbn [rbind].
  destruct (names_loop_found byNum (seqZ 1 EXPECTED_CARD_COUNT) [])
    as (names & -> & Hl & Hi).
  { intros num Hnum%elem_of_seqZ. rewrite HbyNum.
    destruct (last_name_is_Some items num Hok) as [nm ->]; [|done].
    apply Hall. lia. }
  exists names. split; [done|]. split.
  { unfold len. rewrite Hl, length_seqZ. unfold EXPECTED_CARD_COUNT. lia. }
  intros pre item post num nm -> Hn Hnm Hnum Hpost.
  rewrite (Hi _ num).
  - by rewrite HbyNum, (last_name_app_middle _ _ _ _ _ Hn Hnm Hpost).
  - rewrite lookup_seqZ_lt by lia. f_equal. lia.
Qed.

Lemma loadLanguageNames_by_number_witness :
  ∃ names,
    loadLanguageNames
      (CardsJson None None None []
         {[ [101%N] := ((λ num, Item (Ok num) (Ok [65%N]))
                          <$> seqZ 1 EXPECTED_CARD_COUNT)
                       ++ [Item (Ok 5) (Ok [66%N])] ]}) [101%N]
    = Ok names ∧
    names !! 4%nat = Some [66%N].
Proof.
  destruct (loadLanguageNames_by_number
              (CardsJson None None None []
                 {[ [101%N] := ((λ num, Item (Ok num) (Ok [65%N]))
                                  <$> seqZ 1 EXPECTED_CARD_COUNT)
                               ++ [Item (Ok 5) (Ok [66%N])] ]}) [101%N]
              (((λ num, Item (Ok num) (Ok [65%N]))
                  <$> seqZ 1 EXPECTED_CARD_COUNT)
               ++ [Item (Ok 5) (Ok [66%N])]))
    as (names & Hload & _ & Hname).
  - apply lookup_singleton_eq.
  - apply Forall_app. split.
    + apply Forall_fmap, list.Forall_forall. intros num _. by exists num, [65%N].
    + repeat constructor. by exists 5, [66%N].
  - intros num Hnum. exists (Item (Ok num) (Ok [65%N])). split; [|done].
    apply elem_of_app. left. apply list_elem_of_fmap. exists num.
    split; [done|]. apply elem_of_seqZ. lia.
  - exists names. split; [exact Hload|].
    apply (Hname ((λ num, Item (Ok num) (Ok [65%N]))
                    <$> seqZ 1 EXPECTED_CARD_COUNT)
             (Item (Ok 5) (Ok [66%N])) [] 5 [66%N]);
      [reflexivity|reflexivity|reflexivity|vm_compute; split; discriminate
      |constructor].
Defined.

(** X11: a card number without an item. When the items can all be read and
    [num] is the smallest number from 1 to 722 that no item has,
    [loadLanguageNames] raises the [ValueError] that names [num]; for a
    language the manifest does not have it raises the [KeyError]. *)
Theorem loadLanguageNames_missing cardsJson language :
  (languages cardsJson !! language = None →
   loadLanguageNames cardsJson language
   = Raise (KeyError (LanguageNotFound language))) ∧
  (∀ items num,
     languages cardsJson !! language = Some items →
     Forall readable items →
     1 ≤ num ≤ EXPECTED_CARD_COUNT →
     Forall (λ item, number item ≠ Ok num) items →
     (∀ num', 1 ≤ num' < num → ∃ item, item ∈ items ∧ number item = Ok num') →
     loadLanguageNames cardsJson language
     = Raise (ValueError (MissingName num))).
Proof.
  unfold loadLanguageNames. split; [by intros ->|].
  intros items num -> Hok Hnum Hnone Hbefore.
  destruct (byNum_loop_spec items ∅ Hok) as (byNum & -> & HbyNum).
  cbn [rbind].
  replace EXPECTED_CARD_COUNT with ((num - 1) + (EXPECTED_CARD_COUNT - num + 1))
    by lia.
  rewrite seqZ_app by lia.
  rewrite (seqZ_cons (1 + (num - 1))) by lia.
  replace (1 + (num - 1)) with num by lia.
  apply names_loop_missing.
  - intros num' Hnum'%elem_of_seqZ. rewrite HbyNum.
    destruct (last_name_is_Some items num' Hok) as [nm ->]; [|done].
    apply Hbefore. lia.
  - by rewrite HbyNum, (last_name_None _ _ Hnone), lookup_empty.
Qed.

Lemma loadLanguageNames_missing_witness :
  loadLanguageNames
    (CardsJson None None None []
       {[ [101%N] := [Item (Ok 3) (Ok [67%N]); Item (Ok 1) (Ok [65%N])] ]})
    [101%N]
  = Raise (ValueError (MissingName 2)) ∧
  loadLanguageNames (CardsJson None None None [] ∅) [101%N]
  = Raise (KeyError (LanguageNotFound [101%N])).
Proof.
  split.
  - apply (proj2 (loadLanguageNames_missing _ _)
             [Item (Ok 3) (Ok [67%N]); Item (Ok 1) (Ok [65%N])] 2).
    + reflexivity.
    + repeat constructor; [by exists 3, [67%N]|by exists 1, [65%N]].
    + vm_compute. split; discriminate.
    + repeat constructor; simpl; discriminate.
    + intros num' Hnum'. assert (num' = 1) as -> by lia.
      exists (Item (Ok 1) (Ok [65%N])). split; [|done].
      apply elem_of_cons. right. apply elem_of_cons. by left.
  - apply (proj1 (loadLanguageNames_missing _ _)). reflexivity.
Defined.

End names_more.

(** ** rom_names.py: the writes into the image *)

Section image_writes.
Import RomNames Spec.

Lemma setslice_inside_lookup rom lo data :
  0 ≤ lo → lo + len data ≤ len rom →
  (∀ i b, data !! i = Some b →
          setslice rom lo (lo + len data) data !! (Z.to_nat lo + i)%nat = Some b) ∧
  (∀ k, (k < Z.to_nat lo ∨ Z.to_nat lo + length data ≤ k)%nat →
        setslice rom lo (lo + len data) data !! k = rom !! k).
Proof.
  intros Hlo Hhi. pose proof (len_nonneg data) as Hd.
  unfold setslice. rewrite !clip_inside by lia.
  replace (Z.to_nat lo `max` Z.to_nat (lo + len data))%nat
    with (Z.to_nat lo + length data)%nat by (unfold len in *; lia).
  assert (length (take (Z.to_nat lo) rom) = Z.to_nat lo) as Htake
    by (rewrite length_take; unfold len in *; lia).
  split.
  - intros i b Hi. rewrite lookup_app_r by lia.
    rewrite Htake, lookup_app_l by (apply lookup_lt_Some in Hi; lia).
    by replace (Z.to_nat lo + i - Z.to_nat lo)%nat with i by lia.
  - intros k [Hk|Hk].
    + rewrite lookup_app_l by lia. by rewrite lookup_take_lt.
    + rewrite lookup_app_r by lia. rewrite lookup_app_r by lia.
      rewrite lookup_drop, Htake. f_equal. lia.
Qed.

(** [injectBlob] at a position that is not negative, byte by byte. *)
Lemma injectBlob_full fileAt blob rom :
  0 ≤ fileAt →
  ∃ rom',
    injectBlob fileAt blob rom = (rom', Ok tt) ∧
    len rom' = Z.max (len rom) (fileAt + len blob) ∧
    (∀ i b, blob !! i = Some b → rom' !! (Z.to_nat fileAt + i)%nat = Some b) ∧
    (∀ k, (k < Z.to_nat fileAt ∨ Z.to_nat fileAt + length blob ≤ k)%nat →
          rom' !! k = if decide (k < length rom)%nat then rom !! k
                      else if decide (k < Z.to_nat fileAt)%nat then Some 0xFF
                      else None).
Proof.
  intros Hat. pose proof (len_nonneg blob) as Hb.
  unfold injectBlob, ensureRomSize, bind, get, put, extend, ret.
  destruct (len rom <? fileAt + len blob) eqn:E.
  - apply Z.ltb_lt in E. eexists. split; [done|].
    set (rom1 := rom ++ _).
    assert (len rom1 = fileAt + len blob) as Hl1.
    { unfold rom1. rewrite len_app, len_bytes_mul. lia. }
    destruct (setslice_inside_lookup rom1 fileAt blob) as [Hin Hout]; [lia..|].
    split; [|split; [exact Hin|]].
    { unfold len at 1. rewrite setslice_length by lia. fold (len rom1). lia. }
    intros k Hk. rewrite Hout by done. unfold rom1.
    destruct (decide (k < length rom)%nat) as [Hlt|Hge].
    + by rewrite lookup_app_l.
    + rewrite lookup_app_r by lia. unfold bytes_mul.
      destruct (decide (k < Z.to_nat fileAt)%nat).
      * apply lookup_replicate_2. unfold len in *. lia.
      * apply lookup_replicate_None. unfold len in *. lia.
  - apply Z.ltb_ge in E. eexists. split; [done|].
    destruct (setslice_inside_lookup rom fileAt blob) as [Hin Hout]; [lia..|].
    split; [|split; [exact Hin|]].
    { unfold len at 1. rewrite setslice_length by lia. fold (len rom). lia. }
    intros k Hk. rewrite Hout by done.
    destruct (decide (k < length rom)%nat) as [Hlt|Hge]; [done|].
    rewrite lookup_ge_None_2 by lia.
    rewrite decide_False; [done|]. unfold len in *. lia.
Qed.

(** X12: [injectBlob] at a position that is not negative puts the blob
    there, byte for byte, and grows the image when the blob ends past it,
    never shrinks it. Outside the blob the image keeps its bytes; a gap
    between the old end and the blob is filled with 0xFF. *)
Theorem injectBlob_places_blob fileAt blob rom :
  0 ≤ fileAt →
  ∃ rom',
    injectBlob fileAt blob rom = (rom', Ok tt) ∧
    len rom' = Z.max (len rom) (fileAt + len blob) ∧
    take (length blob) (drop (Z.to_nat fileAt) rom') = blob ∧
    (∀ k, (k < Z.to_nat fileAt ∨ Z.to_nat fileAt + length blob ≤ k)%nat →
          rom' !! k = if decide (k < length rom)%nat then rom !! k
                      else if decide (k < Z.to_nat fileAt)%nat then Some 0xFF
                      else None).
Proof.
  intros Hat.
  destruct (injectBlob_full fileAt blob rom Hat) as (rom' & Hrun & Hl & Hin & Hout).
  exists rom'. split; [done|]. split; [done|]. split; [|done].
  apply list_eq. intros i. destruct (blob !! i) as [b|] eqn:Hi.
  - rewrite lookup_take_lt by (by eapply lookup_lt_Some).
    rewrite lookup_drop. by apply Hin.
  - apply lookup_ge_None in Hi. by rewrite lookup_take_ge.
Qed.

Lemma injectBlob_places_blob_witness :
  injectBlob 6 [0xFA; 0x21; 0x41; 0x00] [1; 2; 3; 4]
  = ([1; 2; 3; 4; 0xFF; 0xFF; 0xFA; 0x21; 0x41; 0x00], Ok tt).
Proof.
  destruct (injectBlob_places_blob 6 [0xFA; 0x21; 0x41; 0x00] [1; 2; 3; 4])
    as (rom' & Hrun & _); [lia|].
  rewrite Hrun. vm_compute in Hrun. by injection Hrun as <-.
Defined.

Lemma le_value_2 x :
  le_value [x `mod` 256; (x `div` 256) `mod` 256] = x `mod` 65536.
Proof.
  cbn [le_value]. change 65536 with (256 * 256).
  rewrite (Z.rem_mul_r x 256 256) by lia. lia.
Qed.

Lemma le_value_4 x :
  le_value [x `mod` 256; (x `div` 256) `mod` 256;
            (x `div` 65536) `mod` 256; (x `div` 16777216) `mod` 256]
  = x `mod` 4294967296.
Proof.
  cbn [le_value].
  change 4294967296 with (256 * (256 * (256 * 256))).
  rewrite (Z.rem_mul_r x 256 (256 * (256 * 256))) by lia.
  rewrite (Z.rem_mul_r (x `div` 256) 256 (256 * 256)) by lia.
  rewrite (Z.rem_mul_r ((x `div` 256) `div` 256) 256 256) by lia.
  rewrite !Z.div_div by lia.
  change (256 * 256) with 65536. change (65536 * 256) with 16777216. lia.
Qed.

Lemma shiftr_16 x : Z.shiftr x 16 = x `div` 65536.
Proof. apply (Z.shiftr_div_pow2 x 16). lia. Qed.

Lemma shiftr_24 x : Z.shiftr x 24 = x `div` 16777216.
Proof. apply (Z.shiftr_div_pow2 x 24). lia. Qed.

Lemma take_drop_2 (rom : bytes) k b0 b1 :
  rom !! k = Some b0 → rom !! (k + 1)%nat = Some b1 →
  take 2 (drop k rom) = [b0; b1].
Proof.
  intros H0 H1. apply list_eq. intros [|[|i]].
  - rewrite lookup_take_lt, lookup_drop, Nat.add_0_r by lia. done.
  - rewrite lookup_take_lt, lookup_drop by lia. done.
  - rewrite lookup_take_ge by lia. done.
Qed.

Lemma take_drop_4 (rom : bytes) k b0 b1 b2 b3 :
  rom !! k = Some b0 → rom !! (k + 1)%nat = Some b1 →
  rom !! (k + 2)%nat = Some b2 → rom !! (k + 3)%nat = Some b3 →
  take 4 (drop k rom) = [b0; b1; b2; b3].
Proof.
  intros H0 H1 H2 H3. apply list_eq. intros [|[|[|[|i]]]].
  - rewrite lookup_take_lt, lookup_drop, Nat.add_0_r by lia. done.
  - rewrite lookup_take_lt, lookup_drop by lia. done.
  - rewrite lookup_take_lt, lookup_drop by lia. done.
  - rewrite lookup_take_lt, lookup_drop by lia. done.
  - rewrite lookup_take_ge by lia. done.
Qed.

(** [setCardNamePointer] on four bytes inside the buffer, byte by byte. *)
Lemma setCardNamePointer_full at_ cardNameRomOffset rom :
  0 ≤ at_ → at_ + 4 ≤ len rom →
  ∃ rom',
    setCardNamePointer at_ cardNameRomOffset rom = (rom', Ok tt) ∧
    length rom' = length rom ∧
    take 4 (drop (Z.to_nat at_) rom')
    = (let ptr := POCKETSTATION_MEM_BASE + cardNameRomOffset in
       [ptr `mod` 256; (ptr `div` 256) `mod` 256;
        (ptr `div` 65536) `mod` 256; (ptr `div` 16777216) `mod` 256]) ∧
    ∀ k, (k < Z.to_nat at_ ∨ Z.to_nat at_ + 4 ≤ k)%nat → rom' !! k = rom !! k.
Proof.
  intros Hat Hlen. unfold setCardNamePointer, bind.
  rewrite shiftr_8, shiftr_16, shiftr_24, !land_byte.
  repeat (rewrite store_inside;
          [|rewrite ?len_insert; lia|apply Z.mod_pos_bound; lia]).
  eexists. split; [done|]. split; [by rewrite !length_insert|].
  unfold len in *. split.
  - cbn zeta. apply take_drop_4.
    + rewrite !list_lookup_insert_ne by lia.
      replace (Z.to_nat (at_ + 0)) with (Z.to_nat at_) by lia.
      apply list_lookup_insert_eq. lia.
    + rewrite !list_lookup_insert_ne by lia.
      replace (Z.to_nat (at_ + 1)) with (Z.to_nat at_ + 1)%nat by lia.
      apply list_lookup_insert_eq. rewrite !length_insert. lia.
    + rewrite !list_lookup_insert_ne by lia.
      replace (Z.to_nat (at_ + 2)) with (Z.to_nat at_ + 2)%nat by lia.
      apply list_lookup_insert_eq. rewrite !length_insert. lia.
    + replace (Z.to_nat (at_ + 3)) with (Z.to_nat at_ + 3)%nat by lia.
      apply list_lookup_insert_eq. rewrite !length_insert. lia.
  - intros k Hk. by rewrite !list_lookup_insert_ne by lia.
Qed.

(** X13: [setCardNamePointer] on a field inside the image. The four bytes
    of the field then read, little-endian, as the device address
    [POCKETSTATION_MEM_BASE + cardNameRomOffset] (its low 32 bits), whatever
    the base offset of the file, and no other byte of the image changes. *)
Theorem setCardNamePointer_round_trip filePointerOffset cardNameRomOffset rom :
  0 ≤ filePointerOffset → filePointerOffset + 4 ≤ len rom →
  ∃ rom',
    setCardNamePointer filePointerOffset cardNameRomOffset rom = (rom', Ok tt) ∧
    length rom' = length rom ∧
    le_value (take 4 (drop (Z.to_nat filePointerOffset) rom'))
    = (POCKETSTATION_MEM_BASE + cardNameRomOffset) `mod` 2 ^ 32 ∧
    ∀ k, (k < Z.to_nat filePointerOffset
          ∨ Z.to_nat filePointerOffset + 4 ≤ k)%nat → rom' !! k = rom !! k.
Proof.
  intros Hat Hlen.
  destruct (setCardNamePointer_full filePointerOffset cardNameRomOffset rom
              Hat Hlen) as (rom' & Hrun & Hl & Hfield & Hframe).
  exists rom'. split; [done|]. split; [done|]. split; [|done].
  rewrite Hfield. cbn zeta. apply le_value_4.
Qed.

Lemma setCardNamePointer_round_trip_witness :
  ∃ rom',
    setCardNamePointer 2 0x8000 [9; 9; 9; 9; 9; 9; 9] = (rom', Ok tt) ∧
    rom' = [9; 9; 0x00; 0x80; 0x00; 0x02; 9].
Proof.
  destruct (setCardNamePointer_round_trip 2 0x8000 [9; 9; 9; 9; 9; 9; 9])
    as (rom' & Hrun & _); [lia|vm_compute; discriminate|].
  exists rom'. split; [exact Hrun|].
  vm_compute in Hrun. by injection Hrun as <-.
Defined.

Lemma keeps_length_store i v : keeps_length (store i v).
Proof.
  intros rom. unfold store, update, setitem.
  destruct (byte_ok v); [|done].
  destruct (norm_index _ _); [|done]. apply length_insert.
Qed.

Lemma keeps_length_bind {A B} (m : M bytes A) (k : A → M bytes B) :
  keeps_length m → (∀ a, keeps_length (k a)) → keeps_length (bind m k).
Proof.
  intros Hm Hk rom. unfold bind. specialize (Hm rom).
  destruct (m rom) as [rom' [a|e]]; simpl in *; [|done].
  by rewrite Hk.
Qed.

Lemma keeps_length_ret {A} (a : A) : keeps_length (ret a).
Proof. by intros rom. Qed.

Lemma keeps_length_lift {A} (r : result A) : keeps_length (lift r).
Proof. by intros rom. Qed.

Lemma keeps_length_for_each {A} (l : list A) body :
  (∀ x, keeps_length (body x)) → keeps_length (for_each l body).
Proof.
  intros Hbody. induction l as [|x l IH]; [apply keeps_length_ret|].
  cbn [for_each]. apply keeps_length_bind; [apply Hbody|by intros _].
Qed.

Lemma field_patchers_keep_length_lemma :
  (∀ first offsets, keeps_length (patchCardIndexNameOffsets first offsets)) ∧
  (∀ at_ nm, keeps_length (setCardNamePointer at_ nm)) ∧
  (∀ pos size, keeps_length (updateBlockCountHeader pos size)).
Proof.
  split; [|split].
  - intros first offsets. apply keeps_length_for_each. intros i.
    apply keeps_length_bind; [apply keeps_length_lift|intros off].
    apply keeps_length_bind; [apply keeps_length_store|intros _].
    apply keeps_length_store.
  - intros at_ nm.
    repeat (apply keeps_length_bind; [apply keeps_length_store|intros _]).
    apply keeps_length_store.
  - intros pos size.
    apply keeps_length_bind; [apply keeps_length_store|intros _].
    apply keeps_length_ret.
Qed.

(** X14: the three field patchers are pure overwrites. Whatever their
    arguments and whether they return or raise part-way,
    [patchCardIndexNameOffsets], [setCardNamePointer] and
    [updateBlockCountHeader] leave a buffer of the length they found. *)
Theorem field_patchers_keep_length first offsets at_ nm pos size rom :
  length (patchCardIndexNameOffsets first offsets rom).1 = length rom ∧
  length (setCardNamePointer at_ nm rom).1 = length rom ∧
  length (updateBlockCountHeader pos size rom).1 = length rom.
Proof.
  destruct field_patchers_keep_length_lemma as (Hpatch & Hptr & Hhdr).
  split; [apply Hpatch|]. split; [apply Hptr|apply Hhdr].
Qed.

(** X15: [patchCardIndexNameOffsets] on a record table that lies inside the
    image. It returns; the two bytes of the offset field of record [i] then
    read, little-endian, as the low 16 bits of [offsets[i]], hence as
    [offsets[i]] itself when that fits 16 bits; the four bytes before the
    field in each record and every byte outside the table stay as they
    were. *)
Theorem patchCardIndexNameOffsets_fields fileFirstCardOffset offsets rom :
  0 ≤ fileFirstCardOffset →
  fileFirstCardOffset + EXPECTED_CARD_COUNT * CARD_ENTRY_SIZE ≤ len rom →
  length offsets = Z.to_nat EXPECTED_CARD_COUNT →
  ∃ rom',
    patchCardIndexNameOffsets fileFirstCardOffset offsets rom = (rom', Ok tt) ∧
    length rom' = length rom ∧
    (∀ i off, offsets !! i = Some off →
       le_value (take 2 (drop (Z.to_nat (fileFirstCardOffset
                                          + Z.of_nat i * CARD_ENTRY_SIZE + 4))
                           rom'))
       = off `mod` 65536) ∧
    (∀ i j, (i < Z.to_nat EXPECTED_CARD_COUNT)%nat → 0 ≤ j < 4 →
       rom' !! Z.to_nat (fileFirstCardOffset + Z.of_nat i * CARD_ENTRY_SIZE + j)
       = rom !! Z.to_nat (fileFirstCardOffset + Z.of_nat i * CARD_ENTRY_SIZE + j)) ∧
    (∀ k, (k < Z.to_nat fileFirstCardOffset
           ∨ Z.to_nat (fileFirstCardOffset
                       + EXPECTED_CARD_COUNT * CARD_ENTRY_SIZE) ≤ k)%nat →
       rom' !! k = rom !! k).
Proof.
  unfold EXPECTED_CARD_COUNT, CARD_ENTRY_SIZE. intros Hfirst Htable Hoffs.
  destruct (patch_loop_spec fileFirstCardOffset offsets 722 0 rom)
    as (rom' & Hrun & Hl & Hfield & Hframe).
  { done. }
  { unfold CARD_ENTRY_SIZE. lia. }
  { lia. }
  exists rom'. split; [exact Hrun|]. split; [done|]. split; [|split].
  - intros i off Hoff.
    assert (i < 722)%nat as Hi by (apply lookup_lt_Some in Hoff; lia).
    destruct (Hfield i off ltac:(lia) Hoff) as [Hlo Hhi].
    erewrite (take_drop_2 _ _ _ _ Hlo);
      [rewrite le_value_2; apply Z.mod_mod; lia|].
    rewrite <- Hhi. f_equal. lia.
  - intros i j Hi Hj. apply Hframe. intros i' Hi'. lia.
  - intros k Hk. apply Hframe. intros i' Hi'. lia.
Qed.

Lemma patchCardIndexNameOffsets_fields_witness :
  ∃ rom',
    patchCardIndexNameOffsets 0 (0 :: 0x1234 :: replicate 720 7)
      (replicate 4332 0xEE) = (rom', Ok tt) ∧
    take 12 rom'
    = [0xEE; 0xEE; 0xEE; 0xEE; 0x00; 0x00; 0xEE; 0xEE; 0xEE; 0xEE; 0x34; 0x12].
Proof.
  destruct (patchCardIndexNameOffsets_fields 0 (0 :: 0x1234 :: replicate 720 7)
              (replicate 4332 0xEE))
    as (rom' & Hrun & _); [lia|vm_compute; discriminate|reflexivity|].
  exists rom'. split; [exact Hrun|].
  vm_compute in Hrun. by injection Hrun as <-.
Defined.

(** The loop of [patchCardIndexNameOffsets] when the records it is to visit
    do not all lie inside the buffer. *)
Lemma patch_loop_out_of_range first offsets n : ∀ s rom,
  0 ≤ first →
  len rom < first + (Z.of_nat s + Z.of_nat n) * CARD_ENTRY_SIZE →
  (s + n ≤ length offsets)%nat →
  (for_each (seq s n) (λ i,
     let entryBase := first + Z.of_nat i * CARD_ENTRY_SIZE in
     let nameOffPos := entryBase + 4 in
     off ←! lift (list_getitem offsets i);
     let val := Z.land off 0xFFFF in
     store nameOffPos (Z.land val 0xFF) ;!
     store (nameOffPos + 1) (Z.land (Z.shiftr val 8) 0xFF)) rom).2
  = Raise IndexError ∨ n = 0%nat.
Proof.
  unfold CARD_ENTRY_SIZE.
  induction n as [|n IH]; intros s rom Hfirst Hlen Hoffs; [by right|left].
  cbn [seq for_each]. unfold bind at 1.
  destruct (lookup_lt_is_Some_2 offsets s ltac:(lia)) as [off0 Hoff0].
  unfold lift at 1, list_getitem at 1. rewrite Hoff0.
  unfold bind at 1 2.
  rewrite land_16, shiftr_8, !land_byte.
  pose proof (Z.mod_pos_bound ((off0 `mod` 65536)) 256 ltac:(lia)).
  pose proof (Z.mod_pos_bound ((off0 `mod` 65536) `div` 256) 256 ltac:(lia)).
  destruct (decide (first + Z.of_nat s * 6 + 4 < len rom)) as [H4|H4].
  - rewrite store_inside by lia.
    destruct (decide (first + Z.of_nat s * 6 + 5 < len rom)) as [H5|H5].
    + rewrite store_inside by (rewrite ?len_insert; lia).
      destruct (IH (S s) (<[Z.to_nat (first + Z.of_nat s * 6 + 4 + 1) :=
                             ((off0 `mod` 65536) `div` 256) `mod` 256]>
                          (<[Z.to_nat (first + Z.of_nat s * 6 + 4) :=
                               (off0 `mod` 65536) `mod` 256]> rom)))
        as [Hraise| ->]; [done|rewrite !len_insert; lia|lia|exact Hraise|lia].
    + unfold store at 1, update, setitem, norm_index.
      rewrite byte_ok_true by lia. rewrite len_insert.
      destruct (first + Z.of_nat s * 6 + 4 + 1 <? 0) eqn:E;
        [apply Z.ltb_lt in E; lia|].
      rewrite (proj2 (Z.ltb_ge _ _)) by lia.
      by rewrite andb_false_r.
  - unfold store at 1, update, setitem, norm_index.
    rewrite byte_ok_true by lia.
    destruct (first + Z.of_nat s * 6 + 4 <? 0) eqn:E;
      [apply Z.ltb_lt in E; lia|].
    rewrite (proj2 (Z.ltb_ge _ _)) by lia.
    by rewrite andb_false_r.
Qed.

(** X16: a record table that does not lie inside the image. With the first
    record at a position that is not negative and the end of the table past
    the end of the image, [patchCardIndexNameOffsets] raises [IndexError]:
    the image is never grown to make room for the table. *)
Theorem patchCardIndexNameOffsets_out_of_range fileFirstCardOffset offsets rom :
  0 ≤ fileFirstCardOffset →
  len rom < fileFirstCardOffset + EXPECTED_CARD_COUNT * CARD_ENTRY_SIZE →
  length offsets = Z.to_nat EXPECTED_CARD_COUNT →
  (patchCardIndexNameOffsets fileFirstCardOffset offsets rom).2
  = Raise IndexError ∧
  length (patchCardIndexNameOffsets fileFirstCardOffset offsets rom).1
  = length rom.
Proof.
  intros Hfirst Hlen Hoffs. split.
  - destruct (patch_loop_out_of_range fileFirstCardOffset offsets 722 0 rom)
      as [Hraise|?];
      [done|exact Hlen|unfold EXPECTED_CARD_COUNT in Hoffs; lia
      |exact Hraise|done].
  - apply (proj1 field_patchers_keep_length_lemma).
Qed.

Lemma patchCardIndexNameOffsets_out_of_range_witness :
  (patchCardIndexNameOffsets 0 (replicate 722 0) (replicate 4331 0xEE)).2
  = Raise IndexError.
Proof.
  apply (patchCardIndexNameOffsets_out_of_range 0 (replicate 722 0)
           (replicate 4331 0xEE)).
  - lia.
  - vm_compute. reflexivity.
  - reflexivity.
Defined.

(** X17: [updateBlockCountHeader] for an image of at most 255 blocks. The
    byte it stores at a position inside the image is the block count
    itself, the ceiling of the effective size over the block size, and that
    count is what it returns. *)
Theorem updateBlockCountHeader_exact pos effectiveSize rom :
  0 ≤ pos < len rom →
  0 ≤ effectiveSize ≤ 255 * BLOCK_SIZE →
  updateBlockCountHeader pos effectiveSize rom
  = (<[Z.to_nat pos := computeBlockCount effectiveSize]> rom,
     Ok (computeBlockCount effectiveSize)) ∧
  0 ≤ computeBlockCount effectiveSize ≤ 255.
Proof.
  intros Hpos Hsize.
  assert (0 ≤ computeBlockCount effectiveSize ≤ 255) as Hcount.
  { pose proof (computeBlockCount_ceiling_lemma effectiveSize).
    unfold BLOCK_SIZE in *. lia. }
  split; [|done].
  rewrite updateBlockCountHeader_spec by done.
  by rewrite Z.mod_small by lia.
Qed.

Lemma updateBlockCountHeader_exact_witness :
  updateBlockCountHeader 3 (0x8000 + 1) [0x51; 0x43; 0x00; 0x0F; 0x00]
  = ([0x51; 0x43; 0x00; 0x05; 0x00], Ok 5).
Proof.
  apply (updateBlockCountHeader_exact 3 (0x8000 + 1)
           [0x51; 0x43; 0x00; 0x0F; 0x00]).
  - vm_compute. split; [discriminate|reflexivity].
  - vm_compute. split; discriminate.
Defined.

End image_writes.

(** ** rom_names.py: whole runs *)

Section names_runs_more.
Import RomNames Spec.

Local Ltac step tac := erewrite bind_ok by tac; cbv beta iota zeta.

(** X18: a dry run of [rom_names.py] never writes. With [--dry-run], for
    every manifest, every other option and every state of the file, the
    file has after the run the bytes it had before, whether the run returns
    or raises. *)
Theorem rom_names_dry_run_keeps_file args manifest w :
  dry_run args = true →
  file (main args manifest w).1 = file w.
Proof.
  intros Hdry. revert w. change (keeps_file (main args manifest)).
  unfold main, main_with, write_back. rewrite Hdry.
  repeat first
    [ apply keeps_file_bind; [|intros ?]
    | match goal with
      | |- keeps_file (let (_, _) := ?p in _) => destruct p
      | |- keeps_file (if ?b then _ else _) => destruct b
      end
    | apply keeps_file_lift | apply keeps_file_print
    | apply keeps_file_read_bytes | apply keeps_file_ret ].
Qed.

Lemma rom_names_dry_run_keeps_file_witness :
  (main (Args [101%N] true false None true false) (Ok small_cards)
     (World (Some [1; 2; 3]) None [])).2 = Ok tt ∧
  file (main (Args [101%N] true false None true false) (Ok small_cards)
          (World (Some [1; 2; 3]) None [])).1 = Some [1; 2; 3].
Proof.
  split; [by vm_compute|].
  apply (rom_names_dry_run_keeps_file (Args [101%N] true false None true false)
           (Ok small_cards) (World (Some [1; 2; 3]) None [])).
  reflexivity.
Defined.

(** X19: what a run of [rom_names.py] writes. Without [--dry-run], with a
    manifest that loads and names that encode, on a file that exists, with
    addresses that are not negative and the header byte, the pointer field,
    the record table and the blob inside the final image and apart from one
    another, the run returns and writes an image that is as long as the
    longer of the old image and the end of the blob; that holds the blob at
    the name offset, the device address of the blob in the pointer field,
    the low 16 bits of each offset in the field of its record and the low
    8 bits of the block count in the header byte; and that has everywhere
    else the old bytes, with 0xFF between the old end and the blob. *)
Theorem rom_names_run_effect args cardsJson w rom base idx nm lk remap names
    blob offsets :
  dry_run args = false →
  (if raw args then Ok 0x00
   else if mcs args then Ok 0x80
   else match offset args with Some parsed => parsed | None => Ok 0x00 end)
  = Ok base →
  card_index_offset cardsJson = Some (Ok idx) →
  card_name_offset cardsJson = Some (Ok nm) →
  card_lookup_address cardsJson = Some (Ok lk) →
  buildRemapTable cardsJson = Ok remap →
  loadLanguageNames cardsJson (language args) = Ok names →
  buildNameBlobAndOffsets names remap = Ok (blob, offsets) →
  file w = Some rom →
  0 ≤ base → 0 ≤ idx → 0 ≤ nm → 0 ≤ lk →
  let size := Z.max (len rom) (base + nm + len blob) in
  let hdr := base + 3 in
  let ptr := base + lk in
  let tab := base + idx + 4 in
  let at_ := base + nm in
  tab + 4332 ≤ size → ptr + 4 ≤ size → hdr < size →
  (hdr < ptr ∨ ptr + 4 ≤ hdr) → (hdr < tab ∨ tab + 4332 ≤ hdr) →
  (hdr < at_ ∨ at_ + len blob ≤ hdr) →
  (ptr + 4 ≤ tab ∨ tab + 4332 ≤ ptr) →
  (ptr + 4 ≤ at_ ∨ at_ + len blob ≤ ptr) →
  (tab + 4332 ≤ at_ ∨ at_ + len blob ≤ tab) →
  ∃ rom' out,
    main args (Ok cardsJson) w = (World (Some rom') (backup w) out, Ok tt) ∧
    len rom' = size ∧
    take (length blob) (drop (Z.to_nat at_) rom') = blob ∧
    le_value (take 4 (drop (Z.to_nat ptr) rom'))
    = (POCKETSTATION_MEM_BASE + nm) `mod` 2 ^ 32 ∧
    (∀ i off, offsets !! i = Some off →
       le_value (take 2 (drop (Z.to_nat (tab + Z.of_nat i * 6 + 4)) rom'))
       = off `mod` 65536) ∧
    rom' !! Z.to_nat hdr = Some (computeBlockCount (size - base) `mod` 256) ∧
    (∀ k, let old := if decide (k < length rom)%nat then rom !! k
                     else if decide (k < Z.to_nat at_)%nat then Some 0xFF
                     else None in
       (Z.of_nat k ≠ hdr ∧
        (Z.of_nat k < ptr ∨ ptr + 4 ≤ Z.of_nat k) ∧
        (Z.of_nat k < at_ ∨ at_ + len blob ≤ Z.of_nat k) ∧
        (Z.of_nat k < tab ∨ tab + 4332 ≤ Z.of_nat k
         ∨ ∃ i j, Z.of_nat k = tab + Z.of_nat i * 6 + j ∧ 0 ≤ j < 4)) →
       rom' !! k = old).
Proof.
  intros Hdry Hbase Hidx Hnm Hlk Hremap Hnames Hbuild Hfile
    Hb0 Hi0 Hn0 Hl0 size hdr ptr tab at_ Htable Hptr Hhdr
    Hhp Hht Hhb Hpt Hpb Htb.
  destruct w as [f b out0]. cbn [file] in Hfile. subst f. cbn [backup].
  pose proof (len_nonneg blob) as Hblob.
  unfold main, main_with, write_back.
  step ltac:(unfold lift; rewrite Hbase; reflexivity).
  step ltac:(reflexivity).
  step ltac:(unfold lift, required; rewrite Hidx; reflexivity).
  step ltac:(unfold lift, required; rewrite Hnm; reflexivity).
  step ltac:(unfold lift, required; rewrite Hlk; reflexivity).
  step ltac:(unfold lift; rewrite Hremap; reflexivity).
  step ltac:(unfold lift; rewrite Hnames; reflexivity).
  step ltac:(unfold lift; rewrite Hbuild; reflexivity).
  match goal with
  | |- context [bind (if verbose args then ?m1 else ?m2) _ ?w0] =>
      assert (∃ out1, (if verbose args then m1 else m2) w0
                      = (World (Some rom) b out1, Ok tt)) as [out1 Hverbose]
  end.
  { destruct (verbose args); [|by eexists].
    unfold bind, print, readRom, read_bytes, ret. cbn [file backup stdout].
    destruct (_ <=? _); by eexists. }
  step ltac:(exact Hverbose).
  step ltac:(reflexivity).
  do 5 step ltac:(reflexivity).
  rewrite Hdry.
  unfold CARD_INDEX_HEADER_SIZE, TITLE_BLOCK_COUNT_OFFSET.
  destruct (injectBlob_full (base + nm) blob rom ltac:(lia))
    as (rom1 & Hinject & Hlen1 & Hblob1 & Hframe1).
  fold size in Hlen1. fold at_ in Hblob1, Hframe1.
  destruct (patch_loop_spec (base + idx + 4) offsets 722 0 rom1)
    as (rom2 & Hpatch & Hlen2 & Hfield2 & Hframe2).
  { lia. }
  { unfold CARD_ENTRY_SIZE. lia. }
  { rewrite (buildNameBlobAndOffsets_length _ _ _ _ Hbuild). done. }
  fold tab in Hfield2, Hframe2.
  assert (len rom2 = size) as Hlen2' by (unfold len in *; lia).
  destruct (setCardNamePointer_full (base + lk) nm rom2 ltac:(lia) ltac:(lia))
    as (rom3 & Hpointer & Hlen3 & Hfield3 & Hframe3).
  fold ptr in Hfield3, Hframe3.
  assert (len rom3 = size) as Hlen3' by (unfold len in *; lia).
  match goal with
  | |- context [on_buffer ?m rom] =>
      assert (m rom = (<[Z.to_nat (base + 3) :=
                          computeBlockCount (size - base) `mod` 256]> rom3,
                       Ok (size - base, computeBlockCount (size - base))))
        as Hblock
  end.
  { step ltac:(exact Hinject).
    step ltac:(exact Hpatch).
    step ltac:(exact Hpointer).
    step ltac:(reflexivity).
    fold size. rewrite Hlen3', Z.ltb_irrefl.
    step ltac:(reflexivity).
    step ltac:(reflexivity).
    rewrite Hlen3', (Z.max_l (size - base) 0) by lia.
    step ltac:(apply updateBlockCountHeader_spec; lia).
    reflexivity. }
  step ltac:(unfold on_buffer; rewrite Hblock; reflexivity).
  fold hdr.
  (* a byte of the final image away from the header byte, the pointer
     field and the offset fields is a byte of the image after [injectBlob] *)
  assert (∀ k, Z.of_nat k ≠ hdr →
               (Z.of_nat k < ptr ∨ ptr + 4 ≤ Z.of_nat k) →
               (∀ i, (i < 722)%nat →
                     Z.of_nat k ≠ tab + Z.of_nat i * 6 + 4 ∧
                     Z.of_nat k ≠ tab + Z.of_nat i * 6 + 5) →
               <[Z.to_nat hdr := computeBlockCount (size - base) `mod` 256]>
                 rom3 !! k = rom1 !! k) as Hback.
  { intros k Hk1 Hk2 Hk3.
    rewrite list_lookup_insert_ne by lia.
    rewrite Hframe3 by lia. apply Hframe2. intros i Hi.
    destruct (Hk3 i ltac:(lia)). lia. }
  eexists _, _. split; [reflexivity|].
  split; [by rewrite len_insert|]. split; [|split; [|split; [|split]]].
  - apply list_eq. intros i. destruct (blob !! i) as [v|] eqn:Hv.
    + rewrite lookup_take_lt by (by eapply lookup_lt_Some).
      rewrite lookup_drop. apply lookup_lt_Some in Hv as Hlt.
      rewrite Hback; [by apply Hblob1|unfold len in *; lia..|].
      intros i' Hi'. unfold len in *. lia.
    + apply lookup_ge_None in Hv. by rewrite lookup_take_ge.
  - cbn zeta in Hfield3.
    transitivity (le_value (take 4 (drop (Z.to_nat ptr) rom3)));
      [|rewrite Hfield3; apply le_value_4].
    f_equal. apply list_eq. intros j.
    destruct (decide (j < 4)%nat) as [Hj|Hj].
    + rewrite !lookup_take_lt, !lookup_drop by done.
      apply list_lookup_insert_ne. lia.
    + by rewrite !lookup_take_ge by lia.
  - intros i off Hoff.
    assert (i < 722)%nat as Hi.
    { apply lookup_lt_Some in Hoff.
      rewrite (buildNameBlobAndOffsets_length _ _ _ _ Hbuild) in Hoff.
      unfold EXPECTED_CARD_COUNT in Hoff. lia. }
    destruct (Hfield2 i off ltac:(lia) Hoff) as [Hlo Hhi].
    erewrite (take_drop_2 _ _ ((off `mod` 65536) `mod` 256)
                (((off `mod` 65536) `div` 256) `mod` 256)).
    + rewrite le_value_2. apply Z.mod_mod. lia.
    + rewrite list_lookup_insert_ne by lia. by rewrite Hframe3 by lia.
    + rewrite list_lookup_insert_ne by lia. rewrite Hframe3 by lia.
      rewrite <- Hhi. f_equal. lia.
  - apply list_lookup_insert_eq. unfold len in *. lia.
  - intros k (Hk1 & Hk2 & Hk3 & Hk4).
    rewrite Hback; [|done|done|].
    + apply Hframe1. unfold len in *. lia.
    + intros i Hi. destruct Hk4 as [Hk4|[Hk4|(i' & j & Hk4 & Hj)]]; lia.
Qed.

Lemma rom_names_run_effect_witness :
  ∃ rom' out,
    main raw_args (Ok small_cards)
      (World (Some (replicate (Z.to_nat 0x1200) 0x00)) None [])
    = (World (Some rom') None out, Ok tt) ∧
    len rom' = 0x3200 ∧ rom' !! 3%nat = Some 2 ∧
    le_value (take 4 (drop 8 rom')) = 0x02001200.
Proof.
  assert (∃ remap names blob offsets,
            buildRemapTable small_cards = Ok remap ∧
            loadLanguageNames small_cards (language raw_args) = Ok names ∧
            buildNameBlobAndOffsets names remap = Ok (blob, offsets) ∧
            len blob = 8192)
    as (remap & names & blob & offsets & Hremap & Hnames & Hbuild & Hblob).
  { eexists _, _, _, _. split; [vm_compute; reflexivity|].
    split; [vm_compute; reflexivity|].
    split; [vm_compute; reflexivity|]. vm_compute; reflexivity. }
  assert (len (replicate (Z.to_nat 0x1200) 0x00) = 4608) as Hrom
    by (rewrite len_replicate; lia).
  destruct (rom_names_run_effect raw_args small_cards
              (World (Some (replicate (Z.to_nat 0x1200) 0x00)) None [])
              (replicate (Z.to_nat 0x1200) 0x00) 0 0x10 0x1200 0x08
              remap names blob offsets)
    as (rom' & out & Hrun & Hlen & _ & Hptr & _ & Hhdr & _);
    [reflexivity|reflexivity|reflexivity|reflexivity|reflexivity
    |exact Hremap|exact Hnames|exact Hbuild|reflexivity
    |lia|lia|lia|lia
    |rewrite Hrom, Hblob; lia|rewrite Hrom, Hblob; lia
    |rewrite Hrom, Hblob; lia
    |lia|lia|lia|lia|lia|lia|].
  exists rom', out. split; [exact Hrun|].
  rewrite Hrom, Hblob in Hlen, Hhdr.
  split; [exact Hlen|]. split; [exact Hhdr|exact Hptr].
Defined.

End names_runs_more.

(** ** rom_patches.py: what applying patches does *)

Section applier_more.
Import RomPatches Spec.

(** X20: [apply_patches] in a dry run. Whatever the patches and whether it
    returns or raises, the buffer is left as it was; and when it returns it
    has printed, in order, one line for each item that passes the filters,
    with the name, the length, the start and the manifest address of the
    write a real run would make. *)
Theorem apply_patches_dry_run base_offset patches include_inactive only_name p :
  rom_bytes (apply_patches base_offset patches include_inactive only_name
               true p).1 = rom_bytes p ∧
  ∀ items written,
    patches = Patches items →
    (apply_patches base_offset patches include_inactive only_name true p).2
    = Ok written →
    printed (apply_patches base_offset patches include_inactive only_name
               true p).1
    = printed p ++ omap (dry_line base_offset include_inactive only_name) items.
Proof.
  destruct patches as [|items]; [by split|]. cbn [apply_patches].
  destruct (apply_loop base_offset include_inactive only_name true items 0 p)
    as [p' r] eqn:Hrun.
  apply apply_loop_dry_run in Hrun as [Hrom Hout]. split; [done|].
  intros items' written [= <-]. apply Hout.
Qed.

(** The two loops, dry and real, on buffers of one length. *)
Lemma apply_loop_same_outcome base_offset include_inactive only_name items :
  starts_inside base_offset include_inactive only_name items →
  ∀ total p1 p2,
    length (rom_bytes p1) = length (rom_bytes p2) →
    (apply_loop base_offset include_inactive only_name true items total p1).2
    = (apply_loop base_offset include_inactive only_name false items total p2).2.
Proof.
  unfold starts_inside.
  induction 1 as [|item items Hitem _ IH]; intros total p1 p2 Hlen; [done|].
  cbn [apply_loop]. unfold bind.
  destruct (selected include_inactive only_name item) as [entry|] eqn:Hsel.
  - rewrite !(apply_entry_cases _ _ _ _ _ _ _ _ Hsel).
    destruct (addr entry) as [a|] eqn:Ha; [|done].
    destruct (value entry) as [data|]; [|done]. cbn zeta.
    assert (len (rom_bytes p1) = len (rom_bytes p2)) as ->
      by (unfold len; by rewrite Hlen).
    destruct (len (rom_bytes p2) <? _) eqn:Hend; [done|].
    apply Z.ltb_ge in Hend. apply IH. cbn [rom_bytes].
    rewrite Hlen. symmetry. apply setslice_length; [by eapply Hitem|done].
  - rewrite !apply_entry_selected by done. unfold ret. by apply IH.
Qed.

(** X21: a dry run predicts the real run. For patches none of which starts
    before the image, [apply_patches] returns the same total, or raises the
    same error at the same item, with and without [dry_run]. *)
Theorem apply_patches_dry_run_predicts base_offset patches include_inactive
    only_name p items :
  patches = Patches items →
  starts_inside base_offset include_inactive only_name items →
  (apply_patches base_offset patches include_inactive only_name true p).2
  = (apply_patches base_offset patches include_inactive only_name false p).2.
Proof. intros -> Hitems. by apply apply_loop_same_outcome. Qed.

Lemma apply_patches_dry_run_predicts_witness :
  let patches :=
    Patches [Some (Entry [80%N] true (Ok 1) (Ok [7; 8]));
             None;
             Some (Entry [81%N] false (Ok 0) (Ok [1]));
             Some (Entry [82%N] true (Ok 3) (Ok [9; 9]))] in
  (apply_patches 0 patches false None true (Patcher [0; 0; 0; 0] [])).2
  = Raise (ValueError (PatchExceedsFileSize [82%N] 3 2 4)) ∧
  (apply_patches 0 patches false None false (Patcher [0; 0; 0; 0] [])).2
  = Raise (ValueError (PatchExceedsFileSize [82%N] 3 2 4)).
Proof.
  intros patches. split; [reflexivity|].
  rewrite <- (apply_patches_dry_run_predicts 0 patches false None
                (Patcher [0; 0; 0; 0] []) _ eq_refl).
  - reflexivity.
  - repeat constructor; intros entry a; vm_compute;
      intros [= <-] [= <-]; discriminate.
Defined.

(** One applied write, away from its range. *)
Lemma apply_loop_frame base_offset include_inactive only_name dry_run items k :
  starts_inside base_offset include_inactive only_name items →
  Forall (λ item, ¬ in_patch base_offset include_inactive only_name k item)
    items →
  ∀ total p,
    rom_bytes (apply_loop base_offset include_inactive only_name dry_run
                 items total p).1 !! k = rom_bytes p !! k.
Proof.
  unfold starts_inside.
  intros Hstart Hout. induction Hstart as [|item items Hitem _ IH];
    intros total p; [done|].
  apply Forall_cons_1 in Hout as [Hk Hout]. specialize (IH Hout).
  cbn [apply_loop]. unfold bind.
  destruct (selected include_inactive only_name item) as [entry|] eqn:Hsel.
  - rewrite (apply_entry_cases _ _ _ _ _ _ _ _ Hsel).
    destruct (addr entry) as [a|] eqn:Ha; [|done].
    destruct (value entry) as [data|] eqn:Hd; [|done]. cbn zeta.
    destruct (len (rom_bytes p) <? _) eqn:Hend; [done|].
    apply Z.ltb_ge in Hend.
    destruct dry_run; rewrite IH; [done|]. cbn [rom_bytes].
    specialize (Hitem entry a eq_refl Ha).
    apply (proj2 (setslice_inside_lookup _ _ data Hitem Hend)).
    destruct (decide (k < Z.to_nat (base_offset + a))%nat); [by left|right].
    destruct (decide (Z.to_nat (base_offset + a) + length data ≤ k)%nat);
      [done|].
    exfalso. apply Hk. exists entry, a, data. unfold len.
    split; [done|]. split; [done|]. split; [done|]. lia.
  - rewrite apply_entry_selected by done. unfold ret. apply IH.
Qed.

(** X22: [apply_patches] changes only the ranges of the patches it applies.
    For patches none of which starts before the image, a byte that lies in
    the range of no applied patch has after the call, returned or raised,
    the value it had before. *)
Theorem apply_patches_frame base_offset patches include_inactive only_name
    dry_run p items k :
  patches = Patches items →
  starts_inside base_offset include_inactive only_name items →
  Forall (λ item, ¬ in_patch base_offset include_inactive only_name k item)
    items →
  rom_bytes (apply_patches base_offset patches include_inactive only_name
               dry_run p).1 !! k = rom_bytes p !! k.
Proof. intros -> Hstart Hout. by apply apply_loop_frame. Qed.

Lemma apply_patches_frame_witness :
  let patches :=
    Patches [Some (Entry [80%N] true (Ok 1) (Ok [7; 8]));
             Some (Entry [81%N] false (Ok 0) (Ok [1]))] in
  rom_bytes (apply_patches 0 patches false None false
               (Patcher [5; 5; 5; 5] [])).1 !! 0%nat = Some 5.
Proof.
  intros patches.
  rewrite (apply_patches_frame 0 patches false None false
             (Patcher [5; 5; 5; 5] []) _ 0%nat eq_refl); [reflexivity| |].
  - repeat constructor; intros entry a; vm_compute;
      intros [= <-] [= <-]; discriminate.
  - repeat constructor; intros (entry & a & data & Hsel & Ha & Hd & Hk);
      vm_compute in Hsel; [|discriminate].
    injection Hsel as <-. injection Ha as <-. lia.
Defined.

Lemma apply_loop_app base_offset include_inactive only_name dry_run xs ys
    total p :
  apply_loop base_offset include_inactive only_name dry_run (xs ++ ys) total p
  = bind (apply_loop base_offset include_inactive only_name dry_run xs total)
      (apply_loop base_offset include_inactive only_name dry_run ys) p.
Proof.
  revert total p. induction xs as [|x xs IH]; intros total p; [done|].
  cbn [app apply_loop]. unfold bind in *.
  destruct (apply_entry _ _ _ _ _ _ _) as [p1 [t1|e]]; [apply IH|done].
Qed.

(** X23: a patch that was applied reads back. When [apply_patches] returns
    from a real run over patches none of which starts before the image, a
    byte of an applied patch stands at its place in the buffer, at every
    position that no later applied patch covers; the other positions of the
    patch may have been overwritten. *)
Theorem apply_patches_reads_back base_offset include_inactive only_name
    pre item post entry a data p p' written i b :
  starts_inside base_offset include_inactive only_name (pre ++ item :: post) →
  selected include_inactive only_name item = Some entry →
  addr entry = Ok a → value entry = Ok data →
  data !! i = Some b →
  Forall (λ later, ¬ in_patch base_offset include_inactive only_name
                       (Z.to_nat (base_offset + a) + i) later) post →
  apply_patches base_offset (Patches (pre ++ item :: post)) include_inactive
    only_name false p = (p', Ok written) →
  rom_bytes p' !! (Z.to_nat (base_offset + a) + i)%nat = Some b.
Proof.
  unfold starts_inside. intros Hstart Hsel Ha Hd Hi Hpost Hrun.
  apply Forall_app in Hstart as [_ Hstart].
  apply Forall_cons_1 in Hstart as [Hitem Hstart].
  specialize (Hitem entry a Hsel Ha).
  cbn [apply_patches] in Hrun. rewrite apply_loop_app in Hrun.
  unfold bind in Hrun.
  destruct (apply_loop _ _ _ _ pre 0 p) as [p1 [t1|e]]; [|done].
  cbn [apply_loop] in Hrun. unfold bind in Hrun.
  rewrite (apply_entry_cases _ _ _ _ _ _ _ _ Hsel), Ha, Hd in Hrun.
  cbn zeta in Hrun.
  destruct (len (rom_bytes p1) <? _) eqn:Hend; [done|].
  apply Z.ltb_ge in Hend.
  pose proof (apply_loop_frame base_offset include_inactive only_name false
                post _ Hstart Hpost (t1 + len data)
                (Patcher (setslice (rom_bytes p1) (base_offset + a)
                            (base_offset + a + len data) data)
                   (printed p1 ++ [PatchedWrote (name entry) (len data)
                                     (base_offset + a)]))) as Hframe.
  rewrite Hrun in Hframe. cbn [fst rom_bytes] in Hframe. rewrite Hframe.
  by apply (proj1 (setslice_inside_lookup _ _ data Hitem Hend)).
Qed.

Lemma apply_patches_reads_back_witness :
  let first := Some (Entry [80%N] true (Ok 1) (Ok [7; 8])) in
  let second := Some (Entry [81%N] true (Ok 2) (Ok [9])) in
  let run := apply_patches 0 (Patches [first; second]) false None false
               (Patcher [0; 0; 0; 0] []) in
  run.2 = Ok 3 ∧ rom_bytes run.1 !! 1%nat = Some 7 ∧
  rom_bytes run.1 !! 2%nat = Some 9.
Proof.
  intros first second run. split; [reflexivity|]. split; [|reflexivity].
  refine (apply_patches_reads_back 0 false None [] first [second]
            (Entry [80%N] true (Ok 1) (Ok [7; 8])) 1 [7; 8]
            (Patcher [0; 0; 0; 0] []) run.1 3 0%nat 7 _ eq_refl eq_refl
            eq_refl eq_refl _ eq_refl).
  - repeat constructor; intros entry a; vm_compute;
      intros [= <-] [= <-]; discriminate.
  - repeat constructor.
    intros (entry & a & data & Hsel & Ha & Hd & Hk).
    vm_compute in Hsel. injection Hsel as <-.
    injection Ha as <-. injection Hd as <-.
    change (len [9]) with 1 in Hk. lia.
Defined.

Lemma apply_loop_total base_offset include_inactive only_name dry_run items :
  ∀ total p p' written,
    apply_loop base_offset include_inactive only_name dry_run items total p
    = (p', Ok written) →
    written
    = total + foldr Z.add 0 (patch_size include_inactive only_name <$> items).
Proof.
  induction items as [|item items IH]; intros total p p' written.
  - intros [= _ <-]. simpl. lia.
  - cbn [apply_loop fmap list_fmap foldr]. unfold bind, patch_size at 1.
    destruct (selected include_inactive only_name item) as [entry|] eqn:Hsel.
    + rewrite (apply_entry_cases _ _ _ _ _ _ _ _ Hsel).
      destruct (addr entry) as [a|]; [|done].
      destruct (value entry) as [data|]; [|done]. cbn zeta.
      destruct (len (rom_bytes p) <? _); [done|].
      destruct dry_run; intros ->%IH; lia.
    + rewrite apply_entry_selected by done. unfold ret. intros ->%IH. lia.
Qed.

(** X24: the total [apply_patches] returns, in a dry run or a real one, is
    the sum of the lengths of the values of the items that pass the filters;
    an item that is not a [dict], that is filtered out by name or that is
    inactive counts nothing. *)
Theorem apply_patches_total base_offset include_inactive only_name dry_run
    items p p' written :
  apply_patches base_offset (Patches items) include_inactive only_name
    dry_run p = (p', Ok written) →
  written = foldr Z.add 0 (patch_size include_inactive only_name <$> items).
Proof. intros Hrun. by apply apply_loop_total in Hrun. Qed.

Lemma apply_patches_total_witness :
  let items := [Some (Entry [80%N] true (Ok 1) (Ok [7; 8]));
                None;
                Some (Entry [81%N] false (Ok 0) (Ok [1; 2; 3]));
                Some (Entry [82%N] true (Ok 0) (Ok [9]))] in
  ∃ p', apply_patches 0 (Patches items) false None false
          (Patcher [0; 0; 0; 0] []) = (p', Ok 3) ∧
        3 = foldr Z.add 0 (patch_size false None <$> items).
Proof.
  intros items. eexists. split; [reflexivity|].
  eapply (apply_patches_total 0 false None false items
            (Patcher [0; 0; 0; 0] [])).
  reflexivity.
Defined.

End applier_more.

(** ** rom_patches.py: reading the values of a manifest *)

Section values.
Import RomPatches Spec.

Variable int_ : Z → str → result Z.

Lemma land_byte_range n : 0 ≤ Z.land n 0xFF < 256.
Proof. rewrite land_byte. apply Z.mod_pos_bound. lia. Qed.

Lemma append_land out n : append out (Z.land n 0xFF) = Ok (out ++ [Z.land n 0xFF]).
Proof. apply append_ok. apply land_byte_range. Qed.

(** The loop on a list of items, from the bytes [out] it starts with. *)
Lemma parts_loop_Ok parts : ∀ out data,
  parts_loop int_ parts out = Ok data →
  ∃ new, data = out ++ new ∧ length new = length parts ∧
         Forall (λ b, 0 ≤ b < 256) new ∧
         ∀ i n, parts !! i = Some (IsInt n) → new !! i = Some (n `mod` 256).
Proof.
  induction parts as [|part parts IH]; intros out data.
  - intros [= <-]. exists []. rewrite app_nil_r. by repeat split.
  - cbn [parts_loop].
    assert (∀ n, (out' ←? append out (Z.land n 0xFF);
                  parts_loop int_ parts out') = Ok data →
                 ∃ new, data = out ++ Z.land n 0xFF :: new ∧
                        length new = length parts ∧
                        Forall (λ b, 0 ≤ b < 256) new ∧
                        ∀ i m, parts !! i = Some (IsInt m) →
                               new !! i = Some (m `mod` 256)) as Hstep.
    { intros n. rewrite append_land. cbn [rbind].
      intros (new & -> & Hlen & Hall & Hint)%IH. exists new.
      by rewrite <- app_assoc. }
    destruct part as [n|text].
    + intros (new & -> & Hlen & Hall & Hint)%Hstep.
      exists (Z.land n 0xFF :: new). split; [done|].
      split; [simpl; by rewrite Hlen|].
      split; [constructor; [apply land_byte_range|done]|].
      intros [|i] m; [|apply Hint]. intros [= ->]. simpl. by rewrite land_byte.
    + cbn zeta.
      destruct (if lower_startswith_0x (strip text)
                then int_ 16 (strip text) else int_ 16 (strip text))
        as [n|e] eqn:Hn; [|done]. cbn [rbind].
      intros (new & -> & Hlen & Hall & Hint)%Hstep.
      exists (Z.land n 0xFF :: new). split; [done|].
      split; [simpl; by rewrite Hlen|].
      split; [constructor; [apply land_byte_range|done]|].
      intros [|i] m; [done|apply Hint].
Qed.

Lemma parts_loop_Raise parts : ∀ out e,
  parts_loop int_ parts out = Raise e →
  ∃ text, HasStr text ∈ parts ∧ int_ 16 (strip text) = Raise e.
Proof.
  induction parts as [|part parts IH]; intros out e; [done|].
  cbn [parts_loop]. destruct part as [n|text].
  - rewrite append_land. cbn [rbind]. intros (text & Hin & He)%IH.
    exists text. split; [by right|done].
  - cbn zeta.
    destruct (int_ 16 (strip text)) as [n|e'] eqn:Hn.
    + assert ((if lower_startswith_0x (strip text)
               then Ok n else Ok n) = (Ok n : result Z)) as ->
        by by destruct (lower_startswith_0x _).
      cbn [rbind]. rewrite append_land. cbn [rbind].
      intros (text' & Hin & He)%IH. exists text'. split; [by right|done].
    + assert ((if lower_startswith_0x (strip text)
               then Raise e' else Raise e') = (Raise e' : result Z)) as ->
        by by destruct (lower_startswith_0x _).
      cbn [rbind]. intros [= <-]. exists text. split; [by left|done].
Qed.

(** X25: [parse_value_to_bytes] on a list. When it returns, it has made one
    byte of [range(256)] for each item, and an [int] item gives its value
    modulo 256; it raises only what [int(s, 16)] raises on the stripped text
    of an item that is not an [int], so no item is ever refused for being
    too large or negative. *)
Theorem parse_value_to_bytes_list items :
  (∀ data, parse_value_to_bytes int_ (RawList items) = Ok data →
     length data = length items ∧
     Forall (λ b, 0 ≤ b < 256) data ∧
     ∀ i n, items !! i = Some (IsInt n) → data !! i = Some (n `mod` 256)) ∧
  (∀ e, parse_value_to_bytes int_ (RawList items) = Raise e →
     ∃ text, HasStr text ∈ items ∧ int_ 16 (strip text) = Raise e).
Proof.
  cbn [parse_value_to_bytes]. split.
  - by intros data (new & -> & Hlen & Hall & Hint)%parts_loop_Ok.
  - intros e. apply parts_loop_Raise.
Qed.

Lemma split_loop_words s : ∀ word,
  (∀ w, word = Some w → is_word w) →
  Forall is_word (split_loop s word).
Proof.
  induction s as [|ch s IH]; intros word Hword; cbn [split_loop].
  - destruct word as [w|]; [|done]. constructor; [by apply Hword|done].
  - destruct (isspace ch) eqn:Hch.
    + destruct word as [w|]; [constructor; [by apply Hword|]|]; by apply IH.
    + apply IH. intros w [= <-]. split; [by destruct (default [] word)|].
      apply Forall_app. split; [|by repeat constructor].
      destruct word as [w|]; [by apply Hword|done].
Qed.

Lemma lstrip_word w : Forall (λ ch, isspace ch = false) w → lstrip w = w.
Proof. destruct 1 as [|ch w Hch _]; [done|]. cbn [lstrip]. by rewrite Hch. Qed.

Lemma strip_word w : is_word w → strip w = w.
Proof.
  intros [_ Hw]. unfold strip. rewrite (lstrip_word w Hw).
  rewrite lstrip_word by by apply Forall_reverse. apply reverse_involutive.
Qed.

(** X26: [parse_value_to_bytes] on a string reads it as the list of its
    words, with commas counting as white space: the result is the one for
    the list of the words [split] returns. None of these words is empty and
    stripping changes none of them, so the filter [if p] drops nothing and
    each word goes to [int(s, 16)] as it is. *)
Theorem parse_value_to_bytes_string text :
  parse_value_to_bytes int_ (RawStr text)
  = parse_value_to_bytes int_
      (RawList (HasStr <$> split (replace_char 0x2C 0x20 text))) ∧
  Forall (λ word, word ≠ [] ∧ strip word = word)
    (split (replace_char 0x2C 0x20 text)).
Proof.
  assert (Forall is_word (split (replace_char 0x2C 0x20 text))) as Hwords
    by by apply split_loop_words.
  split.
  - cbn [parse_value_to_bytes]. cbn zeta. f_equal. f_equal.
    induction Hwords as [|w ws [Hw _] _ IH]; [done|].
    rewrite filter_cons_True by done. by rewrite IH.
  - eapply list.Forall_impl; [exact Hwords|].
    intros w Hw. split; [apply Hw|by apply strip_word].
Qed.

End values.

(** ** rom_patches.py: whole runs *)

Section patcher_runs_more.
Import RomPatches Spec.

(** X27: a run of [rom_patches.py] without [--dry-run] that returns, over
    patches none of which starts before the image, has written back an image
    of the length it read, in which every byte outside the ranges of the
    applied patches is the byte that was read; its exit code is 0. *)
Theorem rom_patches_run_patches_in_place lower args manifest base_offset items
    rom w w' code :
  dry_run args = false →
  base_offset_of args = Ok base_offset →
  find_language_section lower manifest (language args) = Ok (Patches items) →
  starts_inside base_offset (include_inactive args) (only args) items →
  file w = Some rom →
  main lower args (Ok manifest) w = (w', Ok code) →
  code = 0 ∧
  ∃ rom', file w' = Some rom' ∧ length rom' = length rom ∧
    ∀ k, Forall (λ item, ¬ in_patch base_offset (include_inactive args)
                           (only args) k item) items →
         rom' !! k = rom !! k.
Proof.
  intros Hdry Hbase Hsection Hstart Hfile. unfold main, main_with, write_back.
  change (match offset args with
          | Some parsed => parsed
          | None => if mcs args then Ok 128 else Ok 0
          end) with (base_offset_of args).
  unfold bind, lift, read_bytes, call_apply_patches, write_bytes, print, ret.
  rewrite Hbase. cbn beta iota. rewrite Hsection. cbn beta iota.
  rewrite Hfile, Hdry. cbn beta iota. cbn [apply_patches].
  pose proof (apply_loop_keeps_length base_offset (include_inactive args)
                (only args) false items 0 (Patcher rom (stdout w)) Hstart)
    as Hlen.
  pose proof (λ k H, apply_loop_frame base_offset (include_inactive args)
                (only args) false items k Hstart H 0 (Patcher rom (stdout w)))
    as Hframe.
  destruct (apply_loop _ _ _ _ _ _ _) as [p [written|e]]; [|done].
  cbn [fst rom_bytes file] in *. intros [= <- <-]. split; [done|].
  exists (rom_bytes p). split; [done|]. split; [done|]. exact Hframe.
Qed.

Lemma rom_patches_run_patches_in_place_witness :
  let items := [Some (Entry [80%N] true (Ok 1) (Ok [7; 8]))] in
  let args := Args [101%N] true None None false false in
  let w := World (Some (replicate 200 5)) None [] in
  (main ascii_lower args (Ok [([101%N], Patches items)]) w).2 = Ok 0 ∧
  ∃ rom',
    file (main ascii_lower args (Ok [([101%N], Patches items)]) w).1
    = Some rom' ∧
    length rom' = 200%nat ∧ rom' !! 0%nat = Some 5 ∧ rom' !! 131%nat = Some 5.
Proof.
  intros items args w. split; [reflexivity|].
  destruct (rom_patches_run_patches_in_place ascii_lower args
              [([101%N], Patches items)] 0x80 items (replicate 200 5) w
              (main ascii_lower args (Ok [([101%N], Patches items)]) w).1 0
              eq_refl eq_refl eq_refl)
    as (_ & rom' & Hfile & Hlen & Hframe); [|reflexivity|reflexivity|].
  - repeat constructor; intros entry a; vm_compute;
      intros [= <-] [= <-]; discriminate.
  - exists rom'. split; [exact Hfile|]. split; [exact Hlen|].
    split; (rewrite Hframe; [reflexivity|]); repeat constructor;
      intros (entry & a & data & Hsel & Ha & Hd & Hk);
      vm_compute in Hsel; injection Hsel as <-;
      injection Ha as <-; injection Hd as <-;
      change (len [7; 8]) with 2 in Hk; lia.
Defined.

End patcher_runs_more.

(** ** YGOFM-NamePatch.py: fields, failures and the effect of a run *)

Section standalone_more.
Import NamePatch Spec.

(** X28: [le16] and [le32] are read back by the little-endian value of
    their bytes. [le16 n] is two bytes and [le32 n] four, each of
    [range(256)], and they hold [n] modulo 2^16 and 2^32 for every integer
    [n], so a value that fits the field is stored exactly. *)
Theorem le16_le32_round_trip n :
  (length (le16 n) = 2%nat ∧ Forall (λ b, 0 ≤ b < 256) (le16 n) ∧
   le_value (le16 n) = n `mod` 65536) ∧
  (length (le32 n) = 4%nat ∧ Forall (λ b, 0 ≤ b < 256) (le32 n) ∧
   le_value (le32 n) = n `mod` 4294967296).
Proof.
  unfold le16, le32. rewrite shiftr_8, shiftr_16, shiftr_24, !land_byte.
  split; (split; [done|]); split.
  - repeat constructor; apply Z.mod_pos_bound; lia.
  - apply le_value_2.
  - repeat constructor; apply Z.mod_pos_bound; lia.
  - apply le_value_4.
Qed.

(** The three ways a run can end: at the check of the arguments, with the
    usage line printed; later, with the world as it was; or with a new
    image, the backup in place and some lines printed. *)
Lemma standalone_outcome argc card_list w (P : world * result unit → Prop) :
  (argc ≠ 3 →
   P (World (file w) (backup w) (stdout w ++ [Usage]),
      Raise (SystemExit (ExitStatus 1)))) →
  (argc = 3 → ∀ e, P (w, Raise e)) →
  (argc = 3 → ∀ data data' out,
     file w = Some data →
     P (World (Some data') (Some (default data (backup w))) out, Ok tt)) →
  P (main argc card_list w).
Proof.
  intros Husage Hfail Hdone. unfold main.
  unfold bind, get, lift, throw, ret, read_bytes, write_bytes, print, put.
  destruct (decide (argc ≠ 3)) as [Hargc|Hargc]; [by apply Husage|].
  assert (argc = 3) as Hthree by lia.
  specialize (Hfail Hthree). specialize (Hdone Hthree).
  destruct (file w) as [data|] eqn:Hfile; [|apply Hfail].
  destruct card_list as [lines|]; [|apply Hfail].
  destruct (decide _); [apply Hfail|].
  rewrite Hfile.
  destruct (blob_loop _ _ _ _ _) as [blob name_offsets].
  destruct (_ <? _ - 1); [apply Hfail|].
  destruct (offsets_loop _ _ _) as [data1|]; [|apply Hfail].
  destruct (255 <? _); [apply Hfail|].
  destruct (setitem _ _ _) as [data2|]; [|apply Hfail].
  destruct (backup w) eqn:Hbackup; cbn [fst snd backup file stdout].
  - rewrite Hbackup. by apply (Hdone data).
  - rewrite Hfile. cbn [fst snd backup file stdout]. by apply (Hdone data).
Qed.

(** A standalone run that exits, at whichever check, has not touched the
    file. *)
Lemma standalone_fails_before_write argc card_list w status :
  (main argc card_list w).2 = Raise (SystemExit status) →
  file (main argc card_list w).1 = file w.
Proof.
  apply (standalone_outcome argc card_list w
           (λ run, run.2 = Raise (SystemExit status) → file run.1 = file w));
    by intros.
Qed.

(** X29: what a run of the standalone patcher does to the backup and at
    its exits. A backup that exists is never overwritten. A run that ends
    in [sys.exit], at whichever check, leaves the image and the backup as
    they were and has printed nothing, but for the usage line of the check
    of the arguments: every exit stands in front of the writes and of the
    summary. And a run that returns with no backup present has made one
    that holds the image as it was read. *)
Theorem standalone_backup argc card_list w :
  (∀ b, backup w = Some b → backup (main argc card_list w).1 = Some b) ∧
  (∀ status, (main argc card_list w).2 = Raise (SystemExit status) →
     file (main argc card_list w).1 = file w ∧
     backup (main argc card_list w).1 = backup w ∧
     stdout (main argc card_list w).1
     = stdout w ++ (if decide (argc = 3) then [] else [Usage])) ∧
  ((main argc card_list w).2 = Ok tt → backup w = None →
   backup (main argc card_list w).1 = file w).
Proof.
  apply (standalone_outcome argc card_list w
           (λ run, (∀ b, backup w = Some b → backup run.1 = Some b) ∧
                   (∀ status, run.2 = Raise (SystemExit status) →
                      file run.1 = file w ∧ backup run.1 = backup w ∧
                      stdout run.1
                      = stdout w ++ (if decide (argc = 3) then []
                                     else [Usage])) ∧
                   (run.2 = Ok tt → backup w = None →
                    backup run.1 = file w))).
  - intros Hargc. cbn [fst snd file backup stdout].
    split; [done|]. split; [|done]. intros status _.
    by rewrite decide_False by done.
  - intros Hargc e. cbn [fst snd].
    split; [done|]. split; [|done]. intros status _.
    by rewrite decide_True, app_nil_r by done.
  - intros Hargc data data' out Hfile. cbn [fst snd backup].
    split; [by intros b ->|]. split; [done|]. intros _ ->. by rewrite Hfile.
Qed.

Lemma standalone_backup_witness :
  let w := World (Some [1; 2; 3]) (Some [9]) [] in
  (main 3 (Some [[65%N]]) w).2 = Raise (SystemExit (WrongNameCount 1)) ∧
  (main 3 (Some [[65%N]]) w).1 = w ∧
  (main 2 (Some [[65%N]]) w).2 = Raise (SystemExit (ExitStatus 1)) ∧
  file (main 2 (Some [[65%N]]) w).1 = Some [1; 2; 3] ∧
  backup (main 2 (Some [[65%N]]) w).1 = Some [9] ∧
  stdout (main 2 (Some [[65%N]]) w).1 = [Usage].
Proof.
  intros w.
  destruct (standalone_backup 3 (Some [[65%N]]) w) as (_ & Hcount & _).
  destruct (Hcount (WrongNameCount 1) eq_refl) as (Hfile3 & Hbackup3 & Hout3).
  destruct (standalone_backup 2 (Some [[65%N]]) w) as (_ & Hargs & _).
  destruct (Hargs (ExitStatus 1) eq_refl) as (Hfile2 & Hbackup2 & Hout2).
  split; [reflexivity|]. split; [reflexivity|]. split; [reflexivity|].
  split; [exact Hfile2|]. split; [exact Hbackup2|exact Hout2].
Defined.

(** [data.extend(b"\x00" * (n - len(data)))] under [if len(data) < n]. *)
Lemma zero_extend_len (data : bytes) n :
  len (if len data <? n then data ++ bytes_mul 0x00 (n - len data) else data)
  = Z.max (len data) n.
Proof.
  destruct (len data <? n) eqn:E.
  - apply Z.ltb_lt in E. rewrite len_app, len_bytes_mul; lia.
  - apply Z.ltb_ge in E. lia.
Qed.

Lemma zero_extend_lookup (data : bytes) n k :
  default 0 ((if len data <? n
              then data ++ bytes_mul 0x00 (n - len data) else data) !! k)
  = default 0 (data !! k).
Proof.
  destruct (len data <? n); [|done].
  destruct (decide (k < length data)%nat).
  - by rewrite lookup_app_l.
  - rewrite lookup_app_r, (lookup_ge_None_2 data k) by lia.
    unfold bytes_mul. destruct (replicate _ _ !! _) as [b|] eqn:Hb; [|done].
    by apply lookup_replicate in Hb as [-> _].
Qed.

Lemma zero_extend_lookup_lt (data : bytes) n k :
  (k < length data)%nat →
  (if len data <? n then data ++ bytes_mul 0x00 (n - len data) else data) !! k
  = data !! k.
Proof. intros Hk. destruct (len data <? n); [by rewrite lookup_app_l|done]. Qed.

(** The loop over the card table, for the cards [s .. s + n - 1], when their
    records lie inside the buffer and every offset fits sixteen bits: it
    returns, keeps the length, leaves in each field the two bytes of the
    card's offset, and touches nothing else. *)
Lemma offsets_loop_spec name_offsets n : ∀ s data,
  CARD_TABLE_FILE_START + (Z.of_nat s + Z.of_nat n) * BYTES_PER_CARD
  ≤ len data →
  (s + n ≤ length name_offsets)%nat →
  (∀ i rel, name_offsets !! i = Some rel → 0 ≤ rel ≤ 0xFFFF) →
  ∃ data',
    offsets_loop (seq s n) name_offsets data = Ok data' ∧
    length data' = length data ∧
    (∀ i rel, (s ≤ i < s + n)%nat → name_offsets !! i = Some rel →
       data' !! Z.to_nat (19468 + Z.of_nat i * 6 + 4) = Some (rel `mod` 256) ∧
       data' !! Z.to_nat (19468 + Z.of_nat i * 6 + 5)
       = Some ((rel `div` 256) `mod` 256)) ∧
    (∀ k, (∀ i, (s ≤ i < s + n)%nat →
             k ≠ Z.to_nat (19468 + Z.of_nat i * 6 + 4) ∧
             k ≠ Z.to_nat (19468 + Z.of_nat i * 6 + 5)) →
       data' !! k = data !! k).
Proof.
  change CARD_TABLE_FILE_START with 19468. change BYTES_PER_CARD with 6.
  induction n as [|n IH]; intros s data Hlen Hoffs Hfit.
  - exists data. split; [done|]. split; [done|]. split; [intros; lia|done].
  - cbn [seq offsets_loop]. cbn zeta.
    change CARD_TABLE_FILE_START with 19468. change BYTES_PER_CARD with 6.
    destruct (lookup_lt_is_Some_2 name_offsets s ltac:(lia)) as [rel0 Hrel0].
    unfold RomNames.list_getitem. rewrite Hrel0. cbn [rbind].
    pose proof (Hfit s rel0 Hrel0) as Hrange.
    rewrite (proj2 (Z.leb_le 0 rel0)), (proj2 (Z.leb_le rel0 0xFFFF)) by lia.
    cbn [andb].
    change (19468 + Z.of_nat s * 6 + 4 + 2)
      with (19468 + Z.of_nat s * 6 + 4 + len (le16 rel0)).
    destruct (setslice_inside_lookup data (19468 + Z.of_nat s * 6 + 4)
                (le16 rel0)) as [Hwritten Hkept].
    { lia. }
    { change (len (le16 rel0)) with 2. lia. }
    set (data1 := setslice data _ _ (le16 rel0)) in *.
    assert (length data1 = length data) as Hl1.
    { unfold data1. apply setslice_length; [lia|].
      change (len (le16 rel0)) with 2. lia. }
    destruct (IH (S s) data1) as (data' & Hrun & Hl & Hfield & Hframe).
    { unfold len in *. rewrite Hl1. lia. }
    { lia. }
    { done. }
    exists data'. split; [exact Hrun|]. split; [congruence|]. split.
    + intros i rel Hi Hrel. destruct (decide (i = s)) as [->|Hne].
      * assert (rel = rel0) as -> by congruence.
        rewrite !Hframe by (intros; lia).
        pose proof (Hwritten 0%nat (Z.land rel0 0xFF) eq_refl) as H0.
        pose proof (Hwritten 1%nat (Z.land (Z.shiftr rel0 8) 0xFF) eq_refl)
          as H1.
        rewrite land_byte in H0. rewrite shiftr_8, land_byte in H1.
        replace (Z.to_nat (19468 + Z.of_nat s * 6 + 4) + 0)%nat
          with (Z.to_nat (19468 + Z.of_nat s * 6 + 4)) in H0 by lia.
        replace (Z.to_nat (19468 + Z.of_nat s * 6 + 4) + 1)%nat
          with (Z.to_nat (19468 + Z.of_nat s * 6 + 5)) in H1 by lia.
        by split.
      * apply Hfield; [lia|done].
    + intros k Hk. rewrite Hframe by (intros; apply Hk; lia).
      apply Hkept. destruct (Hk s ltac:(lia)) as [Hk4 Hk5].
      change (length (le16 rel0)) with 2%nat. lia.
Qed.

(** X30: the effect of a run of the standalone patcher on an image of at
    most 255 blocks with 722 names. If the blob, the marker and the names
    with their terminators, has more than 0x10000 bytes, the run exits and
    nothing changes. Otherwise it returns; the image it writes is the longer
    of the image read and the end of the blob, rounded up to whole blocks,
    with the number of blocks in byte 3, the blob at 0x8000, the address
    0x02008000 in the pointer at 0x2A7C and, in the field of each card, the
    offset of its name in the blob, 0 for the first; every other byte is
    the byte that was read, or zero where the image was extended. *)
Theorem standalone_run_effect lines w data :
  let names := filter (λ n, n ≠ []) lines in
  let blob := START_OF_TEXT ++ terminated (encode <$> names) in
  file w = Some data →
  len names = NUM_CARDS →
  len data ≤ 255 * BLOCK_SIZE →
  (0x10000 < len blob →
   main 3 (Some lines) w
   = (w, Raise (SystemExit (BlobTooLarge (len blob))))) ∧
  (len blob ≤ 0x10000 →
   ∃ data' out,
     main 3 (Some lines) w
     = (World (Some data') (Some (default data (backup w))) out, Ok tt) ∧
     len data'
     = ceil_div (Z.max (len data) (NAME_LIST_FILE_OFF + len blob)) BLOCK_SIZE
       * BLOCK_SIZE ∧
     data' !! 3%nat = Some (len data' `div` BLOCK_SIZE) ∧
     (∀ i b, blob !! i = Some b →
             data' !! (Z.to_nat NAME_LIST_FILE_OFF + i)%nat = Some b) ∧
     le_value (take 4 (drop (Z.to_nat LOOKUP_PTR_FILE_OFF) data'))
     = NAME_LIST_ROM_ADDR ∧
     (∀ i, (i < 722)%nat →
        le_value (take 2 (drop (Z.to_nat (CARD_TABLE_FILE_START
                                          + Z.of_nat i * BYTES_PER_CARD + 4))
                            data'))
        = if decide (i = 0%nat) then 0
          else len (START_OF_TEXT ++ terminated (take i (encode <$> names)))) ∧
     (∀ k, (k < length data')%nat → k ≠ 3%nat →
        ¬ (Z.to_nat LOOKUP_PTR_FILE_OFF ≤ k
           < Z.to_nat LOOKUP_PTR_FILE_OFF + 4)%nat →
        (∀ i, (i < 722)%nat →
           k ≠ Z.to_nat (CARD_TABLE_FILE_START
                         + Z.of_nat i * BYTES_PER_CARD + 4) ∧
           k ≠ Z.to_nat (CARD_TABLE_FILE_START
                         + Z.of_nat i * BYTES_PER_CARD + 5)) →
        ¬ (Z.to_nat NAME_LIST_FILE_OFF ≤ k
           < Z.to_nat NAME_LIST_FILE_OFF + length blob)%nat →
        data' !! k = Some (default 0 (data !! k)))).
Proof.
  intros names blob Hfile Hcount Hsize.
  destruct (blob_loop_spec names 0 START_OF_TEXT [])
    as (news & Hloop & Hnl & Hnk).
  change ([] ++ news) with news in Hloop. fold blob in Hloop.
  assert (length names = 722%nat) as Hnames
    by (unfold len in Hcount; change NUM_CARDS with 722 in Hcount; lia).
  split.
  - intros Hbig.
    unfold main, bind, get, lift, throw, ret, read_bytes.
    rewrite (decide_False (P := 3 ≠ 3)) by (intros Hne; by apply Hne).
    cbv beta iota.
    rewrite Hfile. cbv beta iota.
    rewrite decide_False by (intros Hne; by apply Hne).
    rewrite Hfile. fold names. rewrite Hloop.
    by rewrite (proj2 (Z.ltb_lt 0xFFFF (len blob - 1))) by lia.
  - intros Hblob.
    pose proof (len_nonneg data) as Hdata.
    assert (2 ≤ len blob) as Hmarker.
    { unfold blob. rewrite len_app. change (len START_OF_TEXT) with 2.
      pose proof (len_nonneg (terminated (encode <$> names))). lia. }
    unfold main, bind, get, lift, throw, ret, read_bytes.
    rewrite (decide_False (P := 3 ≠ 3)) by (intros Hne; by apply Hne).
    cbv beta iota.
    rewrite Hfile. cbv beta iota.
    rewrite decide_False by (intros Hne; by apply Hne).
    rewrite Hfile. fold names. rewrite Hloop.
    rewrite (proj2 (Z.ltb_ge 0xFFFF (len blob - 1))) by lia.
    cbv beta iota.
    change NAME_LIST_FILE_OFF with 32768 in *.
    change LOOKUP_PTR_FILE_OFF with 10876 in *.
    change NAME_LIST_ROM_ADDR with 33587200 in *.
    change HEADER_BLOCK_BYTE with 3 in *.
    change BLOCK_SIZE with 8192 in *.
    change (Z.to_nat NUM_CARDS) with 722%nat.
    set (d0 := if len data <? 32768
               then data ++ bytes_mul 0 (32768 - len data) else data).
    set (d1 := if len d0 <? 32768 + len blob
               then d0 ++ bytes_mul 0 (32768 + len blob - len d0) else d0).
    pose proof (zero_extend_len data 32768) as Hl0. fold d0 in Hl0.
    pose proof (zero_extend_len d0 (32768 + len blob)) as Hl1. fold d1 in Hl1.
    destruct (setslice_inside_lookup d1 32768 blob) as [Hwritten2 Hkept2];
      [lia|lia|].
    pose proof (setslice_length d1 32768 blob ltac:(lia) ltac:(lia)) as Hl2.
    set (d2 := setslice d1 32768 (32768 + len blob) blob) in *.
    change (10876 + 4) with (10876 + len (le32 33587200)).
    assert (len d2 = len d1) as Hl2' by (unfold len; by rewrite Hl2).
    destruct (setslice_inside_lookup d2 10876 (le32 33587200))
      as [Hwritten3 Hkept3];
      [lia|change (len (le32 33587200)) with 4; lia|].
    pose proof (setslice_length d2 10876 (le32 33587200) ltac:(lia)
                  ltac:(change (len (le32 33587200)) with 4; lia)) as Hl3.
    set (d3 := setslice d2 10876 (10876 + len (le32 33587200))
                 (le32 33587200)) in *.
    assert (len d3 = len d1) as Hl3' by (unfold len; by rewrite Hl3, Hl2).
    assert (∀ i rel, news !! i = Some rel → 0 ≤ rel ≤ 0xFFFF) as Hfit.
    { intros i rel Hrel.
      assert (i < length names)%nat as Hi
        by (rewrite <- Hnl; by eapply lookup_lt_Some).
      rewrite Hnk in Hrel by done.
      assert (rel = if decide (0 + i = 0)%nat then 0
                    else len (START_OF_TEXT
                              ++ terminated (take i (encode <$> names))))
        as -> by congruence.
      case_decide; [lia|].
      pose proof (len_terminated_take_lt (encode <$> names) i
                    ltac:(by rewrite length_fmap)) as Hlt.
      unfold blob in Hblob. rewrite len_app in Hblob. rewrite len_app.
      pose proof (len_nonneg (terminated (take i (encode <$> names)))).
      change (len START_OF_TEXT) with 2 in *.
      lia. }
    change (Z.to_nat 722) with 722%nat.
    destruct (offsets_loop_spec news 722 0 d3) as (d4 & Hrun4 & Hl4 & Hfield4
                                                   & Hframe4).
    { change CARD_TABLE_FILE_START with 19468. change BYTES_PER_CARD with 6.
      lia. }
    { lia. }
    { exact Hfit. }
    rewrite Hrun4. cbv beta iota.
    set (M := Z.max (len data) (32768 + len blob)).
    assert (len d4 = M) as Hn by (unfold len in *; unfold M; lia).
    rewrite Hn.
    set (blocks := ceil_div M 8192).
    assert (M ≤ blocks * 8192 < M + 8192) as Hceil.
    { unfold blocks, ceil_div.
      pose proof (Z.div_mod (- M) 8192 ltac:(lia)).
      pose proof (Z.mod_pos_bound (- M) 8192 ltac:(lia)). lia. }
    assert (1 ≤ blocks ≤ 255) as Hblocks by (unfold M in *; lia).
    rewrite Z.div_mul by lia.
    rewrite (proj2 (Z.ltb_ge 255 blocks)) by lia. cbv beta iota.
    pose proof (zero_extend_len d4 (blocks * 8192)) as Hl5.
    rewrite Hn in Hl5.
    pose proof (zero_extend_lookup d4 (blocks * 8192)) as Hdefault5.
    pose proof (zero_extend_lookup_lt d4 (blocks * 8192)) as Hkept5.
    rewrite Hn in Hdefault5, Hkept5.
    set (d5 := if M <? blocks * 8192
               then d4 ++ bytes_mul 0 (blocks * 8192 - M) else d4) in *.
    rewrite land_byte, Z.mod_small by lia.
    rewrite setitem_inside by lia.
    set (d6 := <[Z.to_nat 3 := blocks]> d5).
    assert (length d6 = length d5) as Hl6 by apply length_insert.
    assert (len d6 = blocks * 8192) as Hlen6 by (unfold len in *; lia).
    assert (∀ k, k ≠ 3%nat → d6 !! k = d5 !! k) as Hkept6
      by (intros k Hk; apply list_lookup_insert_ne; lia).
    assert (∀ k, (k < length d3)%nat →
              (∀ i, (i < 722)%nat →
                 k ≠ Z.to_nat (19468 + Z.of_nat i * 6 + 4) ∧
                 k ≠ Z.to_nat (19468 + Z.of_nat i * 6 + 5)) →
              k ≠ 3%nat → d6 !! k = d3 !! k) as Hkept.
    { intros k Hk Hout H3. rewrite Hkept6, Hkept5 by lia.
      apply Hframe4. intros i Hi. apply Hout. lia. }
    exists d6.
    exists (((((stdout w ++ [SummaryOk])
               ++ [SummaryNames (len blob) 32768 33587200])
              ++ [SummaryPointer 10876 (le32 33587200)])
             ++ [SummaryOffsets NUM_CARDS 19468 CARD_TABLE_FILE_END])
            ++ [SummaryPadded (blocks * 8192) blocks]).
    split.
    { unfold put, write_bytes, print.
      destruct (backup w) eqn:Hbackup.
      - cbn [backup file stdout]. rewrite ?Hbackup. reflexivity.
      - rewrite Hfile. cbn [backup file stdout]. reflexivity. }
    split; [exact Hlen6|].
    split.
    { rewrite Hlen6, Z.div_mul by lia. apply list_lookup_insert_eq.
      unfold len in *. lia. }
    assert (len blob = Z.of_nat (length blob)) as Hlb by done.
    split.
    { intros i b Hi. apply lookup_lt_Some in Hi as Hlt.
      rewrite Hkept; [|unfold len in *; lia|intros; lia|lia].
      rewrite (Hkept3 (Z.to_nat 32768 + i)%nat)
        by (change (length (le32 33587200)) with 4%nat; lia).
      by apply Hwritten2. }
    split.
    { erewrite (take_drop_4 d6 (Z.to_nat 10876) 0 128 0 2); [done|..].
      - rewrite Hkept; [|unfold len in *; lia|intros; lia|lia].
        apply (Hwritten3 0%nat). reflexivity.
      - rewrite Hkept; [|unfold len in *; lia|intros; lia|lia].
        apply (Hwritten3 1%nat). reflexivity.
      - rewrite Hkept; [|unfold len in *; lia|intros; lia|lia].
        apply (Hwritten3 2%nat). reflexivity.
      - rewrite Hkept; [|unfold len in *; lia|intros; lia|lia].
        apply (Hwritten3 3%nat). reflexivity. }
    split.
    { intros i Hi.
      pose proof (Hnk i ltac:(lia)) as Hrel. cbn [Nat.add] in Hrel.
      set (rel := if decide (i = 0%nat) then 0
                  else len (START_OF_TEXT
                            ++ terminated (take i (encode <$> names)))) in *.
      destruct (Hfield4 i rel ltac:(lia) Hrel) as [Hlo Hhi].
      pose proof (Hfit i rel Hrel) as Hrange.
      change CARD_TABLE_FILE_START with 19468. change BYTES_PER_CARD with 6.
      erewrite (take_drop_2 d6 _ (rel `mod` 256) ((rel `div` 256) `mod` 256)).
      - rewrite le_value_2. apply Z.mod_small. lia.
      - rewrite Hkept6, Hkept5 by (unfold len in *; lia). exact Hlo.
      - replace (Z.to_nat (19468 + Z.of_nat i * 6 + 4) + 1)%nat
          with (Z.to_nat (19468 + Z.of_nat i * 6 + 5)) by lia.
        rewrite Hkept6, Hkept5 by (unfold len in *; lia). exact Hhi. }
    intros k Hk H3 Hptr Hfields Hnames'.
    change CARD_TABLE_FILE_START with 19468 in Hfields.
    change BYTES_PER_CARD with 6 in Hfields.
    rewrite Hkept6 by done.
    destruct (d5 !! k) as [b|] eqn:Hb;
      [|apply lookup_ge_None in Hb; lia].
    f_equal. change b with (default 0 (Some b)). rewrite <- Hb.
    rewrite Hdefault5.
    rewrite Hframe4 by (intros i Hi; apply Hfields; lia).
    rewrite Hkept3
      by (change (length (le32 33587200)) with 4%nat; lia).
    rewrite Hkept2 by lia.
    unfold d1. rewrite zero_extend_lookup.
    unfold d0. by rewrite zero_extend_lookup.
Qed.

Lemma standalone_run_effect_witness :
  let lines := replicate 722 [65%N] in
  let w := World (Some []) None [] in
  ∃ data' out,
    main 3 (Some lines) w = (World (Some data') (Some []) out, Ok tt) ∧
    len data' = 0xA000 ∧ data' !! 3%nat = Some 5 ∧
    data' !! Z.to_nat 0x8000 = Some 0xFA.
Proof.
  intros lines w.
  assert (len (filter (λ n : str, n ≠ []) lines) = NUM_CARDS) as Hcount
    by (vm_compute; reflexivity).
  assert (len ([] : bytes) ≤ 255 * BLOCK_SIZE) as Hsize
    by (vm_compute; discriminate).
  assert (len (START_OF_TEXT
               ++ terminated (encode <$> filter (λ n : str, n ≠ []) lines))
          ≤ 0x10000) as Hblob by (vm_compute; discriminate).
  destruct (proj2 (standalone_run_effect lines w [] eq_refl Hcount Hsize)
              Hblob)
    as (data' & out & Hrun & Hlen & Hheader & Hnames & _).
  exists data', out. split; [exact Hrun|].
  assert (len data' = 0xA000) as Hlen' by (rewrite Hlen; vm_compute; reflexivity).
  split; [exact Hlen'|]. split.
  - rewrite Hheader, Hlen'. reflexivity.
  - specialize (Hnames 0%nat 0xFA eq_refl).
    rewrite Nat.add_0_r in Hnames. exact Hnames.
Defined.

End standalone_more.
